(** * Document-processing pipeline of hall-guard-ai: a shallow embedding

    The pipeline validates an uploaded buffer, extracts its text, cuts the
    text into token-bounded chunks and reports progress.  This file embeds
    the TypeScript sources

    - [lib/utils/file-validation.ts]       (module [FileValidation]),
    - [lib/services/document-chunking.ts]  (module [Chunking]),
    - [lib/services/text-extraction.ts]    (module [Extraction]),
    - [lib/services/document-processing.ts] (module [Processor]),
    - [app/api/documents/[documentId]/status/route.ts] (module [StatusRoute]),
    - [lib/types/document-processing.ts]   (module [Types]),

    as executable Rocq definitions and proves properties of them.  The
    definitions come first, each next to the name of the function it
    embeds; the predicates of the proofs follow in [Invariants]; the proofs
    come last, the statements about the services at the end of the module
    of their service. *)

From Stdlib Require Import ZArith NArith List String Ascii Bool Lia QArith Qround Qpower.
From Stdlib Require Import DecimalString Sorted.
From Stdlib.Strings Require Import Byte.
Import ListNotations.

Local Open Scope Z_scope.

(** ** JavaScript strings and numbers *)

Module JS.

(** A JavaScript string is a sequence of UTF-16 code units. *)
Definition jsstring := list N.

(** Literals are written as Rocq strings of ASCII characters. *)
Definition str (s : string) : jsstring :=
  map N_of_ascii (list_ascii_of_string s).
Arguments str : simpl never.

Definition chr (a : ascii) : N := N_of_ascii a.

Fixpoint streq (a b : jsstring) : bool :=
  match a, b with
  | [], [] => true
  | x :: a', y :: b' => N.eqb x y && streq a' b'
  | _, _ => false
  end.

Definition len (s : jsstring) : Z := Z.of_nat (List.length s).

(** A JavaScript number with its exact value in [A], or [NaN]. *)
Inductive number (A : Type) :=
| Num (a : A)
| NaN.
Arguments Num {A} a.
Arguments NaN {A}.

Definition inRange (lo hi c : N) : bool := (N.leb lo c && N.leb c hi)%bool.

(** [\s] of a regular expression and the characters [String.prototype.trim]
    removes: WhiteSpace and LineTerminator code points. *)
Definition isWhiteSpace (c : N) : bool :=
  (inRange 9 13 c || N.eqb c 32 || N.eqb c 160 || N.eqb c 5760
   || inRange 8192 8202 c || N.eqb c 8232 || N.eqb c 8233 || N.eqb c 8239
   || N.eqb c 8287 || N.eqb c 12288 || N.eqb c 65279)%bool.

Definition isDigit (c : N) : bool := inRange 48 57 c.
Definition isUpper (c : N) : bool := inRange 65 90 c.
Definition isLower (c : N) : bool := inRange 97 122 c.
Definition isLetter (c : N) : bool := (isUpper c || isLower c)%bool.

(** [\w] is [[A-Za-z0-9_]]. *)
Definition isWordChar (c : N) : bool :=
  (isLetter c || isDigit c || N.eqb c 95)%bool.

(** [.] of a regular expression (no [s] flag): anything but a line terminator. *)
Definition isLineTerminator (c : N) : bool :=
  (N.eqb c 10 || N.eqb c 13 || N.eqb c 8232 || N.eqb c 8233)%bool.

Fixpoint trimStart (s : jsstring) : jsstring :=
  match s with
  | c :: s' => if isWhiteSpace c then trimStart s' else s
  | [] => []
  end.

Definition trimEnd (s : jsstring) : jsstring := rev' (trimStart (rev' s)).

Definition trim (s : jsstring) : jsstring := trimEnd (trimStart s).

(** Length of the longest prefix whose characters satisfy [p] (a greedy
    [[...]*]). *)
Fixpoint spanLen (p : N -> bool) (s : jsstring) : nat :=
  match s with
  | c :: s' => if p c then S (spanLen p s') else O
  | [] => O
  end.

Fixpoint startsWith (pre s : jsstring) : bool :=
  match pre, s with
  | [], _ => true
  | x :: pre', y :: s' => N.eqb x y && startsWith pre' s'
  | _ :: _, [] => false
  end.

(** [s.endsWith(suffix)] *)
Definition endsWith (suffix s : jsstring) : bool :=
  startsWith (rev' suffix) (rev' s).

(** [s[n]], and a test of it that fails past the end of the string. *)
Definition nth_char (s : jsstring) (n : nat) : option N := nth_error s n.

Definition charIs (p : N -> bool) (o : option N) : bool :=
  match o with Some c => p c | None => false end.

(** [s.includes(c)] for a one-character needle. *)
Definition includesChar (c : N) (s : jsstring) : bool := existsb (N.eqb c) s.

(** [String.prototype.split] with a regular expression that never matches
    the empty string and looks at nothing before the position it is tried
    at.  [sep s] is the length of the match of the expression at the start
    of [s], and [0] when it does not match there.  [skip] counts the
    characters of the current separator still to be passed over and [cur]
    holds the current piece, reversed. *)
Fixpoint splitGo (sep : jsstring -> nat) (skip : nat) (cur : jsstring)
    (s : jsstring) : list jsstring :=
  match s with
  | [] => [rev' cur]
  | c :: s' =>
      match skip with
      | S k => splitGo sep k cur s'
      | O =>
          match sep s with
          | O => splitGo sep O (c :: cur) s'
          | S n => rev' cur :: splitGo sep n [] s'
          end
      end
  end.

Definition split (sep : jsstring -> nat) (s : jsstring) : list jsstring :=
  splitGo sep O [] s.

(** [String.prototype.replace] with a global regular expression that never
    matches the empty string.  [m prev s] tries the expression at the start
    of [s], [prev] being the character before it (for [\b]); it gives the
    length of the match and the text put in its place. *)
Fixpoint replaceGo (m : option N -> jsstring -> option (nat * jsstring))
    (skip : nat) (prev : option N) (s : jsstring) : jsstring :=
  match s with
  | [] => []
  | c :: s' =>
      match skip with
      | S k => replaceGo m k (Some c) s'
      | O =>
          match m prev s with
          | Some (S n, r) => r ++ replaceGo m n (Some c) s'
          | _ => c :: replaceGo m O (Some c) s'
          end
      end
  end.

Definition replaceAll (m : option N -> jsstring -> option (nat * jsstring))
    (s : jsstring) : jsstring :=
  replaceGo m O None s.

(** [l.length > 0], and the truth value of a string. *)
Definition nonEmpty {A} (l : list A) : bool :=
  match l with [] => false | _ => true end.

(** [a.join(sep)]. *)
Fixpoint join (sep : jsstring) (l : list jsstring) : jsstring :=
  match l with
  | [] => []
  | [x] => x
  | x :: l' => x ++ sep ++ join sep l'
  end.

(** [s.toLowerCase()].  Exact on code units below 256 and on the two code
    points above whose lower case is, or starts with, an ASCII letter
    (KELVIN SIGN and LATIN CAPITAL LETTER I WITH DOT ABOVE); any other code
    unit is left as it is, and stays outside ASCII as it does in
    JavaScript. *)
Definition lowerChar (c : N) : jsstring :=
  if isUpper c then [(c + 32)%N]
  else if (inRange 192 222 c && negb (N.eqb c 215))%bool then [(c + 32)%N]
  else if N.eqb c 8490 then [107%N]
  else if N.eqb c 304 then [105%N; 775%N]
  else [c].

Definition toLowerCase (s : jsstring) : jsstring := flat_map lowerChar s.

Definition count (p : N -> bool) (s : jsstring) : Z :=
  Z.of_nat (List.length (filter p s)).

(** [String(n)] for an integer [n]. *)
Definition showZ (n : Z) : jsstring := str (NilZero.string_of_int (Z.to_int n)).

(** [s.split(".").pop()]: what follows the last dot, or all of [s] when it
    has none. *)
Definition sepDot (s : jsstring) : nat :=
  match s with 46%N :: _ => 1%nat | _ => O end.

Definition lastPart (s : jsstring) : jsstring := last (split sepDot s) [].

(** A Node.js [Buffer]. *)
Definition Buffer := list byte.

Definition bytes (s : string) : Buffer :=
  map byte_of_ascii (list_ascii_of_string s).

Definition byteLength (b : Buffer) : Z := Z.of_nat (List.length b).

(** [buffer.toString("ascii")] clears the high bit of every byte. *)
Definition decodeAscii (b : Buffer) : jsstring :=
  map (fun x => N.land (Byte.to_N x) 127) b.

(** [buffer.subarray(0, n)] *)
Definition subarray (b : Buffer) (n : nat) : Buffer := firstn n b.

Fixpoint bufferEquals (a b : Buffer) : bool :=
  match a, b with
  | [], [] => true
  | x :: a', y :: b' => Byte.eqb x y && bufferEquals a' b'
  | _, _ => false
  end.

End JS.

(** JavaScript numbers are IEEE 754 binary64 values.  [F64] gives the finite
    ones as a mantissa and a binary exponent, with every operation rounded
    to nearest, ties to even, at 53 bits.  Exponent overflow and subnormal
    numbers are left out: no quantity of the pipeline comes near them. *)
Module F64.

Record t := mk { man : Z; exp : Z }.

Definition bitlen (m : Z) : Z :=
  if m =? 0 then 0 else Z.log2 (Z.abs m) + 1.

Definition round (m e : Z) : t :=
  let k := bitlen m in
  if k <=? 53 then mk m e
  else
    let s := k - 53 in
    let q := Z.shiftr m s in
    let r := m - Z.shiftl q s in
    let half := Z.shiftl 1 (s - 1) in
    let up := ((half <? r) || ((r =? half) && Z.odd q))%bool in
    mk (if up then q + 1 else q) (e + s).

Definition ofZ (n : Z) : t := round n 0.

Definition mul (a b : t) : t := round (man a * man b) (exp a + exp b).

Definition add (a b : t) : t :=
  let e := Z.min (exp a) (exp b) in
  round (man a * 2 ^ (exp a - e) + man b * 2 ^ (exp b - e)) e.

(** Quotient of two numbers with positive mantissas: the quotient is taken
    with at least 55 bits and a sticky bit, then rounded. *)
Definition div (a b : t) : t :=
  let s := Z.max 0 (bitlen (man b) - bitlen (man a) + 55) in
  let n := Z.shiftl (man a) s in
  let q := n / man b in
  let sticky := if n mod man b =? 0 then 0 else 1 in
  round (2 * q + sticky) (exp a - exp b - s - 1).

(** The decimal literal [d / 10^k]. *)
Definition lit (d : Z) (k : Z) : t := div (ofZ d) (ofZ (10 ^ k)).

(** [Math.ceil]. *)
Definition ceil (a : t) : Z :=
  if 0 <=? exp a then man a * 2 ^ exp a
  else - ((- man a) / 2 ^ (- exp a)).

(** [a < b]. *)
Definition ltb (a b : t) : bool :=
  let e := Z.min (exp a) (exp b) in
  man a * 2 ^ (exp a - e) <? man b * 2 ^ (exp b - e).

(** The same rounding on exact values, for the arithmetic of the status
    endpoint and for [parseFloat]: an operation of IEEE 754 gives the exact
    result rounded to the nearest number of 53 bits, ties to even, so that
    [a / b] in JavaScript is [rn (a / b)] on the values of [a] and [b], and
    likewise for the product and the difference.  Comparisons, [Math.max],
    [Math.min], [Math.floor], [Math.ceil] and [Math.round] are exact. *)

(** The nearest whole number, ties to even. *)
Definition halfEven (x : Q) : Z :=
  let f := Qfloor x in
  match Qcompare (x - inject_Z f) (1 # 2) with
  | Lt => f
  | Gt => f + 1
  | Eq => if Z.even f then f else f + 1
  end.

(** The exponent of the last of the 53 bits of [x > 0]:
    [2^(lastBit x + 52) <= x < 2^(lastBit x + 53)]. *)
Definition lastBit (x : Q) : Z :=
  let l := Z.log2 (Qnum x) - Z.log2 (Zpos (Qden x)) in
  (if Qle_bool (2 ^ l) x then l else l - 1) - 52.

Definition nearest (x : Q) : Q :=
  let e := lastBit x in
  (inject_Z (halfEven (x / 2 ^ e)) * 2 ^ e)%Q.

(** The binary64 number nearest to [x], as a fraction in lowest terms. *)
Definition rn (x : Q) : Q :=
  Qred match Qcompare x 0 with
       | Eq => 0
       | Gt => nearest x
       | Lt => - nearest (- x)
       end.

End F64.

(** ** Shared types ([lib/types/document-processing.ts]) *)

Module Types.
Import JS.

(** A value of a [details] record. *)
Inductive DetailValue :=
| DString (s : jsstring)
| DStrings (l : list jsstring)
| DUndefined.

Record ProcessingError := {
  code : jsstring;
  message : jsstring;
  details : option (list (string * DetailValue));
  retryable : bool
}.

(** [createProcessingError]; [retryable] defaults to [false] at the callers
    that leave it out. *)
Definition createProcessingError (code message : jsstring)
    (details : option (list (string * DetailValue))) (retryable : bool)
    : ProcessingError :=
  {| code := code; message := message; details := details;
     retryable := retryable |}.

(** What a [throw] can carry, by what the [catch] clauses look at.  It is a
    [ProcessingErrorImpl], the class of the errors this code creates, or any
    other value, of which three things are seen: whether it is an [Error];
    the properties [code], [message], [details] and [retryable] when it has
    them, as [isProcessingError] tests (they are taken to be data
    properties, read without effect); and what the interpolation of
    [error instanceof Error ? error.message : String(error)] in a template
    gives, which is a text or, when the conversion to a string throws, the
    value thrown ([String(Object.create(null))] throws a [TypeError]). *)
Inductive Thrown :=
| ThrownProcessingError (e : ProcessingError)
| ThrownOther (isError : bool) (fields : option ProcessingError)
              (text : Conversion)
with Conversion :=
| Text (s : jsstring)
| Raises (raised : Thrown).

(** An [Error] with the message [msg]. *)
Definition ThrownError (msg : jsstring) : Thrown :=
  ThrownOther true None (Text msg).

(** A value that is no [Error] and that [String] converts to [asString]. *)
Definition ThrownValue (asString : jsstring) : Thrown :=
  ThrownOther false None (Text asString).



Definition isProcessingError (x : Thrown) : bool :=
  match x with
  | ThrownProcessingError _ => true
  | ThrownOther _ (Some _) _ => true
  | ThrownOther _ None _ => false
  end.

(** [error instanceof Error] *)
Definition instanceOfError (x : Thrown) : bool :=
  match x with
  | ThrownProcessingError _ => true
  | ThrownOther isError _ _ => isError
  end.

(** The result of a call that may throw. *)
Inductive Outcome (A : Type) :=
| Ret (a : A)
| Throw (x : Thrown).
Arguments Ret {A} a.
Arguments Throw {A} x.

(** [error instanceof Error ? error.message : String(error)] in a template:
    the text, or what its evaluation throws. *)
Definition messageOf (x : Thrown) : Outcome jsstring :=
  match x with
  | ThrownProcessingError e => Ret (message e)
  | ThrownOther _ _ (Text s) => Ret s
  | ThrownOther _ _ (Raises raised) => Throw raised
  end.

Inductive SemanticType := paragraph | heading | list_ | table | other.

Definition SemanticType_eqb (a b : SemanticType) : bool :=
  match a, b with
  | paragraph, paragraph | heading, heading | list_, list_
  | table, table | other, other => true
  | _, _ => false
  end.

Module DocumentChunk.
Record t := {
  index : Z;
  content : jsstring;
  tokenCount : Z;
  startPosition : Z;
  endPosition : Z;
  semanticType : SemanticType;
  unitCount : Z;                          (* metadata.unitCount *)
  types : list (SemanticType * Z)         (* metadata.types, in key order *)
}.
End DocumentChunk.

Record ChunkingOptions := {
  maxTokens : Z;
  overlapTokens : Z;
  preserveSemanticBoundaries : bool;
  minChunkSize : Z
}.

(** [Partial<ChunkingOptions>]. *)
Record PartialChunkingOptions := {
  maxTokens_opt : option Z;
  overlapTokens_opt : option Z;
  preserveSemanticBoundaries_opt : option bool;
  minChunkSize_opt : option Z
}.

Definition DEFAULT_CHUNKING_OPTIONS : ChunkingOptions :=
  {| maxTokens := 1500; overlapTokens := 150;
     preserveSemanticBoundaries := true; minChunkSize := 100 |}.

Definition orElse {A} (o : option A) (d : A) : A :=
  match o with Some a => a | None => d end.

(** [{ ...base, ...over }]. *)
Definition spread (base : ChunkingOptions) (over : option PartialChunkingOptions)
    : ChunkingOptions :=
  match over with
  | None => base
  | Some o =>
      {| maxTokens := orElse (maxTokens_opt o) (maxTokens base);
         overlapTokens := orElse (overlapTokens_opt o) (overlapTokens base);
         preserveSemanticBoundaries :=
           orElse (preserveSemanticBoundaries_opt o)
                  (preserveSemanticBoundaries base);
         minChunkSize := orElse (minChunkSize_opt o) (minChunkSize base) |}
  end.

Inductive SupportedFileType := pdf | docx | doc | txt | rtf.

Definition SUPPORTED_FILE_TYPES : list SupportedFileType :=
  [pdf; docx; doc; txt; rtf].

Definition fileTypeName (t : SupportedFileType) : jsstring :=
  match t with
  | pdf => str "pdf" | docx => str "docx" | doc => str "doc"
  | txt => str "txt" | rtf => str "rtf"
  end.

Definition MAX_FILE_SIZE : Z := 100 * 1024 * 1024.

Definition MIME_TYPE_MAP (t : SupportedFileType) : list jsstring :=
  match t with
  | pdf => [str "application/pdf"]
  | docx =>
      [str "application/vnd.openxmlformats-officedocument.wordprocessingml.document"]
  | doc => [str "application/msword"]
  | txt => [str "text/plain"]
  | rtf => [str "application/rtf"; str "text/rtf"]
  end.

End Types.

(** ** The chunking service ([lib/services/document-chunking.ts]) *)

Module Chunking.
Import JS Types.

Module SemanticUnit.
Record t := {
  content : jsstring;
  type : SemanticType;
  startPosition : Z;
  endPosition : Z;
  tokenCount : Z
}.
End SemanticUnit.

Definition isBlank (s : jsstring) : bool :=
  match trim s with [] => true | _ => false end.

(** *** [normalizeText] *)

(** [/\r\n/g] *)
Definition reCrLf (_ : option N) (s : jsstring) : option (nat * jsstring) :=
  if startsWith [13%N; 10%N] s then Some (2%nat, [10%N]) else None.

(** [/\r/g] *)
Definition reCr (_ : option N) (s : jsstring) : option (nat * jsstring) :=
  if startsWith [13%N] s then Some (1%nat, [10%N]) else None.

(** [/\n{3,}/g] *)
Definition reNewlines3 (_ : option N) (s : jsstring) : option (nat * jsstring) :=
  let n := spanLen (N.eqb 10) s in
  if Nat.leb 3 n then Some (n, [10%N; 10%N]) else None.

(** [/[ \t]+/g] *)
Definition isSpaceOrTab (c : N) : bool := (N.eqb c 32 || N.eqb c 9)%bool.

Definition reSpacesTabs (_ : option N) (s : jsstring) : option (nat * jsstring) :=
  let n := spanLen isSpaceOrTab s in
  if Nat.leb 1 n then Some (n, [32%N]) else None.

Definition normalizeText (text : jsstring) : jsstring :=
  trim
    (replaceAll reSpacesTabs
       (replaceAll reNewlines3
          (replaceAll reCr
             (replaceAll reCrLf text)))).

(** *** [estimateTokenCount] *)

(** [/\s+/] as a separator. *)
Definition sepWhiteSpace (s : jsstring) : nat := spanLen isWhiteSpace s.

(** The class of [. ! ? , : ; ( ) [ ] { }], the apostrophe and the double
    quote. *)
Definition isPunctuation (c : N) : bool :=
  existsb (N.eqb c) [46; 33; 63; 44; 58; 59; 40; 41; 91; 93; 123; 125; 39; 34]%N.

(** The complement of [\w], [\s] and the punctuation class. *)
Definition isSpecialChar (c : N) : bool :=
  negb (isWordChar c || isWhiteSpace c || isPunctuation c).

Definition estimateTokenCount (text : jsstring) : Z :=
  match text with
  | [] => 0
  | _ =>
      let words := Z.of_nat (List.length (split sepWhiteSpace (trim text))) in
      let punctuationCount := count isPunctuation text in
      let specialCharCount := count isSpecialChar text in
      let baseTokens := F64.mul (F64.ofZ words) (F64.lit 13 1) in
      let punctuationTokens :=
        F64.mul (F64.ofZ punctuationCount) (F64.lit 2 1) in
      let specialTokens := F64.mul (F64.ofZ specialCharCount) (F64.lit 3 1) in
      F64.ceil (F64.add (F64.add baseTokens punctuationTokens) specialTokens)
  end.

(** *** [detectSemanticType] *)

(** [/^#{1,6}\s+/] *)
Definition reMarkdownHeader (s : jsstring) : bool :=
  let n := spanLen (N.eqb 35) s in
  (Nat.leb 1 n && Nat.leb n 6 && charIs isWhiteSpace (nth_char s n))%bool.

(** [/^[A-Z][A-Z\s]{2,}$/] *)
Definition reAllCaps (s : jsstring) : bool :=
  match s with
  | c :: rest =>
      (isUpper c && Nat.leb 2 (List.length rest)
       && forallb (fun x => isUpper x || isWhiteSpace x) rest)%bool
  | [] => false
  end.

(** [/^\d+\.?\s+[A-Z]/] *)
Definition reNumberedHeading (s : jsstring) : bool :=
  let n := spanLen isDigit s in
  let r1 := skipn n s in
  let r2 := match r1 with 46%N :: r => r | _ => r1 end in
  let w := spanLen isWhiteSpace r2 in
  (Nat.leb 1 n && Nat.leb 1 w && charIs isUpper (nth_char r2 w))%bool.

Definition isSentenceEnd (c : N) : bool :=
  (N.eqb c 46 || N.eqb c 33 || N.eqb c 63)%bool.

(** [/^[A-Z][^.!?]*$/] *)
Definition reCapitalNoPunctuation (s : jsstring) : bool :=
  match s with
  | c :: rest => (isUpper c && forallb (fun x => negb (isSentenceEnd x)) rest)%bool
  | [] => false
  end.

Definition isHeading (text : jsstring) : bool :=
  ((reMarkdownHeader text || reAllCaps text || reNumberedHeading text
    || reCapitalNoPunctuation text)
   && (len text <? 100))%bool.

(** [/^[-*+]\s+/] *)
Definition reBullet (s : jsstring) : bool :=
  match s with
  | c :: rest =>
      ((N.eqb c 45 || N.eqb c 42 || N.eqb c 43)
       && charIs isWhiteSpace (nth_char rest 0))%bool
  | [] => false
  end.

(** [/^\d+\.\s+/] *)
Definition reNumbered (s : jsstring) : bool :=
  let n := spanLen isDigit s in
  match skipn n s with
  | 46%N :: r => (Nat.leb 1 n && charIs isWhiteSpace (nth_char r 0))%bool
  | _ => false
  end.

(** [/^[a-z]\.\s+/i] *)
Definition reLettered (s : jsstring) : bool :=
  match s with
  | c :: 46%N :: r => (isLetter c && charIs isWhiteSpace (nth_char r 0))%bool
  | _ => false
  end.

(** [/^•\s+/] *)
Definition reUnicodeBullet (s : jsstring) : bool :=
  match s with
  | 8226%N :: r => charIs isWhiteSpace (nth_char r 0)
  | _ => false
  end.

(** [/^\([a-z0-9]+\)\s+/i] *)
Definition reParenthetical (s : jsstring) : bool :=
  match s with
  | 40%N :: r =>
      let n := spanLen (fun c => isLetter c || isDigit c)%bool r in
      match skipn n r with
      | 41%N :: r' => (Nat.leb 1 n && charIs isWhiteSpace (nth_char r' 0))%bool
      | _ => false
      end
  | _ => false
  end.

Definition listPatterns : list (jsstring -> bool) :=
  [reBullet; reNumbered; reLettered; reUnicodeBullet; reParenthetical].

(** [text.split("\n")] *)
Definition sepNewline (s : jsstring) : nat :=
  match s with 10%N :: _ => 1%nat | _ => O end.

Definition isList (text : jsstring) : bool :=
  let lines := split sepNewline text in
  match lines with
  | [_] => existsb (fun pattern => pattern text) listPatterns
  | _ =>
      let listLines :=
        filter (fun line => existsb (fun pattern => pattern (trim line))
                                    listPatterns) lines in
      (Nat.leb 2 (List.length listLines)
       && Nat.eqb (List.length listLines) (List.length lines))%bool
  end.

(** [/\s{3,}/] anywhere in the line. *)
Fixpoint reThreeSpaces (s : jsstring) : bool :=
  match s with
  | [] => false
  | _ :: s' => (Nat.leb 3 (spanLen isWhiteSpace s) || reThreeSpaces s')%bool
  end.

Definition isTable (text : jsstring) : bool :=
  let lines := filter (fun line => negb (isBlank line)) (split sepNewline text) in
  if existsb (includesChar 124) lines then
    Nat.leb 2 (List.length (filter (includesChar 124) lines))
  else if Nat.leb 2 (List.length lines) then
    let tabPattern := forallb (includesChar 9) lines in
    let spacePattern := forallb reThreeSpaces lines in
    (tabPattern || spacePattern)%bool
  else false.

Definition detectSemanticType (text : jsstring) : SemanticType :=
  let trimmed := trim text in
  if isHeading trimmed then heading
  else if isList trimmed then list_
  else if isTable trimmed then table
  else paragraph.

(** *** [splitIntoSentences] *)

Definition abbreviations : list jsstring :=
  map str ["Dr"; "Prof"; "Mr"; "Mrs"; "Ms"; "vs"; "etc"; "e.g"; "i.e";
           "Inc"; "Ltd"; "Co"]%string.

Definition dotMarker : jsstring := str "<!DOT!>".

Definition upperAscii (c : N) : N := if isLower c then (c - 32)%N else c.

(** One alternative of the abbreviation pattern tried at the start of [s],
    ignoring case; the abbreviations are spliced into the pattern as they
    are, so the dot of [e.g] and [i.e] stands for any character but a line
    terminator.  Gives the matched text and what follows it. *)
Fixpoint matchAbbreviation (pat s : jsstring) : option (jsstring * jsstring) :=
  match pat, s with
  | [], _ => Some ([], s)
  | p :: pat', c :: s' =>
      if (if N.eqb p 46 then negb (isLineTerminator c)
          else N.eqb (upperAscii p) (upperAscii c))
      then match matchAbbreviation pat' s' with
           | Some (m, r) => Some (c :: m, r)
           | None => None
           end
      else None
  | _ :: _, [] => None
  end.

Fixpoint firstAbbreviation (alts : list jsstring) (s : jsstring)
    : option (nat * jsstring) :=
  match alts with
  | [] => None
  | a :: alts' =>
      match matchAbbreviation a s with
      | Some (abbr, 46%N :: _) => Some (S (List.length abbr), abbr ++ dotMarker)
      | _ => firstAbbreviation alts' s
      end
  end.

(** [/\b(Dr|Prof|...|Co)\./gi], replaced by the abbreviation and the marker. *)
Definition reAbbreviation (prev : option N) (s : jsstring)
    : option (nat * jsstring) :=
  if xorb (charIs isWordChar prev) (charIs isWordChar (nth_char s 0))
  then firstAbbreviation abbreviations s
  else None.

(** [/[.!?]+\s+/] as a separator. *)
Definition sepSentenceEnd (s : jsstring) : nat :=
  let n := spanLen isSentenceEnd s in
  let w := spanLen isWhiteSpace (skipn n s) in
  match n, w with
  | O, _ | _, O => O
  | _, _ => (n + w)%nat
  end.

(** [/<!DOT!>/g], replaced by a dot. *)
Definition reDotMarker (_ : option N) (s : jsstring) : option (nat * jsstring) :=
  if startsWith dotMarker s then Some (List.length dotMarker, [46%N]) else None.

Definition splitIntoSentences (text : jsstring) : list jsstring :=
  let processedText := replaceAll reAbbreviation text in
  filter (fun sentence => negb (isBlank sentence))
    (map (replaceAll reDotMarker) (split sepSentenceEnd processedText)).

(** *** [splitIntoSemanticUnits] *)

(** [/\n\n+/] as a separator. *)
Definition sepParagraph (s : jsstring) : nat :=
  let n := spanLen (N.eqb 10) s in
  if Nat.leb 2 n then n else O.

(** The body of the loop over the sentences of a long paragraph. *)
Definition pushSentence (acc : list SemanticUnit.t * Z) (sentence : jsstring)
    : list SemanticUnit.t * Z :=
  let '(units, position) := acc in
  if isBlank sentence then acc
  else
    (units ++
       [{| SemanticUnit.content := trim sentence;
           SemanticUnit.type := paragraph;
           SemanticUnit.startPosition := position;
           SemanticUnit.endPosition := position + len sentence;
           SemanticUnit.tokenCount := estimateTokenCount (trim sentence) |}],
     position + len sentence).

(** The body of the loop over the paragraphs; [this] holds the options the
    service was constructed with. *)
Definition pushParagraph (this : ChunkingOptions)
    (acc : list SemanticUnit.t * Z) (paragraph_ : jsstring)
    : list SemanticUnit.t * Z :=
  let '(units, position) := acc in
  if isBlank paragraph_ then acc
  else
    let trimmedParagraph := trim paragraph_ in
    let semanticType := detectSemanticType trimmedParagraph in
    if (SemanticType_eqb semanticType paragraph
        && (estimateTokenCount trimmedParagraph >? maxTokens this))%bool
    then fold_left pushSentence (splitIntoSentences trimmedParagraph) acc
    else
      (units ++
         [{| SemanticUnit.content := trimmedParagraph;
             SemanticUnit.type := semanticType;
             SemanticUnit.startPosition := position;
             SemanticUnit.endPosition := position + len trimmedParagraph;
             SemanticUnit.tokenCount := estimateTokenCount trimmedParagraph |}],
       position + len trimmedParagraph + 2).

Definition splitIntoSemanticUnits (this : ChunkingOptions) (text : jsstring)
    : list SemanticUnit.t :=
  fst (fold_left (pushParagraph this) (split sepParagraph text) ([], 0)).

(** *** [buildChunk] *)

Definition sumTokens (units : list SemanticUnit.t) : Z :=
  fold_left (fun sum u => sum + SemanticUnit.tokenCount u) units 0.

(** [acc[unit.type] = (acc[unit.type] || 0) + 1]: the count of a known key is
    raised in place, a new key is added after the others. *)
Fixpoint bumpType (acc : list (SemanticType * Z)) (ty : SemanticType)
    : list (SemanticType * Z) :=
  match acc with
  | [] => [(ty, 1)]
  | (k, n) :: acc' =>
      if SemanticType_eqb k ty then (k, n + 1) :: acc'
      else (k, n) :: bumpType acc' ty
  end.

Definition typeCounts (units : list SemanticUnit.t) : list (SemanticType * Z) :=
  fold_left (fun acc u => bumpType acc (SemanticUnit.type u)) units [].

(** [Object.entries(typeCounts).reduce((a, b) => a[1] > b[1] ? a : b)[0]].
    Without an initial value [reduce] throws on no entries; [buildChunk] is
    only called on a non-empty array, which has at least one entry. *)
Definition primaryType (entries : list (SemanticType * Z)) : SemanticType :=
  match entries with
  | [] => paragraph
  | e :: rest =>
      fst (fold_left (fun a b => if snd a >? snd b then a else b) rest e)
  end.

Definition buildChunk (units : list SemanticUnit.t) (index : Z)
    : DocumentChunk.t :=
  let content := join (str (String "010" (String "010" EmptyString)))
                      (map SemanticUnit.content units) in
  let tokenCount := sumTokens units in
  let startPosition :=
    match units with u :: _ => SemanticUnit.startPosition u | [] => 0 end in
  let endPosition :=
    match rev units with u :: _ => SemanticUnit.endPosition u | [] => 0 end in
  {| DocumentChunk.index := index;
     DocumentChunk.content := trim content;
     DocumentChunk.tokenCount := tokenCount;
     DocumentChunk.startPosition := startPosition;
     DocumentChunk.endPosition := endPosition;
     DocumentChunk.semanticType := primaryType (typeCounts units);
     DocumentChunk.unitCount := Z.of_nat (List.length units);
     DocumentChunk.types := typeCounts units |}.

(** *** [createOverlap] *)

(** The loop of [createOverlap], walking the units from the last one down. *)
Fixpoint createOverlapGo (overlapTokens : Z) (fromEnd : list SemanticUnit.t)
    (overlap : list SemanticUnit.t) (tokenCount : Z) : list SemanticUnit.t :=
  match fromEnd with
  | [] => overlap
  | u :: rest =>
      if tokenCount <? overlapTokens
      then createOverlapGo overlapTokens rest (u :: overlap)
             (tokenCount + SemanticUnit.tokenCount u)
      else overlap
  end.

Definition createOverlap (units : list SemanticUnit.t) (overlapTokens : Z)
    : list SemanticUnit.t :=
  createOverlapGo overlapTokens (rev units) [] 0.

(** *** [splitLargeUnit] *)

Record SplitState := {
  splitUnits : list SemanticUnit.t;
  currentContent : jsstring;
  currentTokens : Z;
  startPos : Z
}.

Definition pieceOf (unit : SemanticUnit.t) (st : SplitState) : SemanticUnit.t :=
  {| SemanticUnit.content := trim (currentContent st);
     SemanticUnit.type := SemanticUnit.type unit;
     SemanticUnit.startPosition := startPos st;
     SemanticUnit.endPosition := startPos st + len (currentContent st);
     SemanticUnit.tokenCount := currentTokens st |}.

Definition splitStep (unit : SemanticUnit.t) (maxTokens : Z) (st : SplitState)
    (sentence : jsstring) : SplitState :=
  let sentenceTokens := estimateTokenCount sentence in
  if ((currentTokens st + sentenceTokens >? maxTokens)
      && nonEmpty (currentContent st))%bool
  then
    {| splitUnits := splitUnits st ++ [pieceOf unit st];
       currentContent := sentence;
       currentTokens := sentenceTokens;
       startPos := startPos st + len (currentContent st) |}
  else
    {| splitUnits := splitUnits st;
       currentContent :=
         currentContent st
         ++ (if nonEmpty (currentContent st) then [32%N] else []) ++ sentence;
       currentTokens := currentTokens st + sentenceTokens;
       startPos := startPos st |}.

Definition splitLargeUnit (unit : SemanticUnit.t) (maxTokens : Z)
    : list SemanticUnit.t :=
  let sentences := splitIntoSentences (SemanticUnit.content unit) in
  let st :=
    fold_left (splitStep unit maxTokens) sentences
      {| splitUnits := []; currentContent := []; currentTokens := 0;
         startPos := SemanticUnit.startPosition unit |} in
  if nonEmpty (currentContent st)
  then splitUnits st ++ [pieceOf unit st]
  else splitUnits st.

(** *** [createChunks] *)

Record Assembly := {
  chunks : list DocumentChunk.t;
  currentChunk : list SemanticUnit.t;
  currentTokenCount : Z;
  chunkIndex : Z
}.

(** [chunks.push(buildChunk(currentChunk, chunkIndex)); chunkIndex++], the
    running chunk then being set to [next]. *)
Definition closeChunk (st : Assembly) (next : list SemanticUnit.t) : Assembly :=
  {| chunks := chunks st ++ [buildChunk (currentChunk st) (chunkIndex st)];
     currentChunk := next;
     currentTokenCount := sumTokens next;
     chunkIndex := chunkIndex st + 1 |}.

Definition pushUnit (st : Assembly) (unit : SemanticUnit.t) : Assembly :=
  {| chunks := chunks st;
     currentChunk := currentChunk st ++ [unit];
     currentTokenCount := currentTokenCount st + SemanticUnit.tokenCount unit;
     chunkIndex := chunkIndex st |}.

(** The body of the loop over the pieces of a unit that is too large. *)
Definition addSplitUnit (options : ChunkingOptions) (st : Assembly)
    (splitUnit : SemanticUnit.t) : Assembly :=
  let st' :=
    if ((currentTokenCount st + SemanticUnit.tokenCount splitUnit
           >? maxTokens options)
        && nonEmpty (currentChunk st))%bool
    then closeChunk st []
    else st in
  pushUnit st' splitUnit.

(** The body of the loop over the semantic units. *)
Definition addUnit (options : ChunkingOptions) (st : Assembly)
    (unit : SemanticUnit.t) : Assembly :=
  let unitTokenCount := SemanticUnit.tokenCount unit in
  let st' :=
    if ((currentTokenCount st + unitTokenCount >? maxTokens options)
        && nonEmpty (currentChunk st))%bool
    then
      if overlapTokens options >? 0
      then closeChunk st (createOverlap (currentChunk st) (overlapTokens options))
      else closeChunk st []
    else st in
  if unitTokenCount >? maxTokens options
  then fold_left (addSplitUnit options)
         (splitLargeUnit unit (maxTokens options)) st'
  else pushUnit st' unit.

Definition emptyAssembly : Assembly :=
  {| chunks := []; currentChunk := []; currentTokenCount := 0; chunkIndex := 0 |}.

(** The chunks assembled by the loop and the final push, before the filter. *)
Definition assembleChunks (semanticUnits : list SemanticUnit.t)
    (options : ChunkingOptions) : list DocumentChunk.t :=
  let st := fold_left (addUnit options) semanticUnits emptyAssembly in
  if nonEmpty (currentChunk st)
  then chunks st ++ [buildChunk (currentChunk st) (chunkIndex st)]
  else chunks st.

Definition createChunks (semanticUnits : list SemanticUnit.t)
    (options : ChunkingOptions) : list DocumentChunk.t :=
  let chunks := assembleChunks semanticUnits options in
  filter (fun chunk =>
            (DocumentChunk.tokenCount chunk >=? minChunkSize options)
            || Nat.eqb (List.length chunks) 1)%bool
         chunks.

(** *** The running chunk, seen from outside

    [createChunks] hands arrays of units to [buildChunk] and keeps none of
    them.  The definitions below name what the statements about chunks
    speak of: the units in the order in which they are pushed, and the
    arrays given to [buildChunk]. *)

(** The units in the order in which the loop pushes them to the running
    chunk: a unit above [maxTokens] goes in as its pieces. *)
Definition pushedUnits (semanticUnits : list SemanticUnit.t)
    (options : ChunkingOptions) : list SemanticUnit.t :=
  flat_map
    (fun unit =>
       if SemanticUnit.tokenCount unit >? maxTokens options
       then splitLargeUnit unit (maxTokens options)
       else [unit])
    semanticUnits.

(** The loop of [createChunks] with every closed array kept as it is, where
    [createChunks] keeps the chunk built from it. *)
Record Grouping := {
  closed : list (list SemanticUnit.t);
  running : list SemanticUnit.t
}.

Definition groupPush (g : Grouping) (unit : SemanticUnit.t) : Grouping :=
  {| closed := closed g; running := running g ++ [unit] |}.

Definition groupClose (g : Grouping) (next : list SemanticUnit.t) : Grouping :=
  {| closed := closed g ++ [running g]; running := next |}.

Definition groupSplitUnit (options : ChunkingOptions) (g : Grouping)
    (splitUnit : SemanticUnit.t) : Grouping :=
  let g' :=
    if ((sumTokens (running g) + SemanticUnit.tokenCount splitUnit
           >? maxTokens options)
        && nonEmpty (running g))%bool
    then groupClose g []
    else g in
  groupPush g' splitUnit.

Definition groupUnit (options : ChunkingOptions) (g : Grouping)
    (unit : SemanticUnit.t) : Grouping :=
  let unitTokenCount := SemanticUnit.tokenCount unit in
  let g' :=
    if ((sumTokens (running g) + unitTokenCount >? maxTokens options)
        && nonEmpty (running g))%bool
    then
      if overlapTokens options >? 0
      then groupClose g (createOverlap (running g) (overlapTokens options))
      else groupClose g []
    else g in
  if unitTokenCount >? maxTokens options
  then fold_left (groupSplitUnit options)
         (splitLargeUnit unit (maxTokens options)) g'
  else groupPush g' unit.

Definition assembleGroups (semanticUnits : list SemanticUnit.t)
    (options : ChunkingOptions) : list (list SemanticUnit.t) :=
  let g := fold_left (groupUnit options) semanticUnits
             {| closed := []; running := [] |} in
  if nonEmpty (running g) then closed g ++ [running g] else closed g.

(** [buildChunk] on every array, with its place in the list as index. *)
Fixpoint buildFrom (index : Z) (groups : list (list SemanticUnit.t))
    : list DocumentChunk.t :=
  match groups with
  | [] => []
  | g :: groups' => buildChunk g index :: buildFrom (index + 1) groups'
  end.

(** The units [chunkDocument] packs. *)
Definition semanticUnitsOf (this : ChunkingOptions) (text : jsstring)
    : list SemanticUnit.t :=
  splitIntoSemanticUnits this (normalizeText text).

(** *** [chunkDocument] *)

(** [createError] of the chunking service: never retryable. *)
Definition createError (code message : jsstring)
    (details : option (list (string * DetailValue))) : ProcessingError :=
  createProcessingError code message details false.

(** The [catch] clause of [chunkDocument]: what it throws. *)
Definition rethrow (x : Thrown) : Thrown :=
  if isProcessingError x then x
  else
    match messageOf x with
    | Ret msg =>
        ThrownProcessingError
          (createError (str "CHUNKING_FAILED")
             (str "Failed to chunk document: " ++ msg)
             (Some [("originalError"%string, DString msg)]))
    | Throw raised => raised
    end.

(** [this] holds the options given to the constructor, already spread over
    the defaults. *)
Definition chunkDocument (this : ChunkingOptions) (text : jsstring)
    (options : option PartialChunkingOptions) : Outcome (list DocumentChunk.t) :=
  let chunkingOptions := spread this options in
  let body : Outcome (list DocumentChunk.t) :=
    if (negb (nonEmpty text) || (len (trim text) =? 0))%bool
    then Throw (ThrownProcessingError
                  (createError (str "EMPTY_TEXT") (str "Cannot chunk empty text")
                     None))
    else
      let normalizedText := normalizeText text in
      let semanticUnits := splitIntoSemanticUnits this normalizedText in
      Ret (createChunks semanticUnits chunkingOptions)
  in
  match body with
  | Ret chunks => Ret chunks
  | Throw error => Throw (rethrow error)
  end.

End Chunking.

(** ** Effects: exceptions and observable events *)

Module Effects.
Import JS Types.

Inductive Stage :=
| uploading | extracting | chunking | analyzing | completed | failed.

Record ProcessingProgress := {
  stage : Stage;
  progress : number Z;
  progressMessage : jsstring;
  estimatedTimeRemaining : option (number Q);
  progressError : option ProcessingError
}.

(** What a run leaves behind for an observer: the progress records handed to
    the callback, and the entries into the two services' public methods
    [extractText] and [chunkDocument] (recorded so that one can say that a
    run did or did not reach them). *)
Inductive Event :=
| EvProgress (p : ProcessingProgress)
| EvExtractText (buffer : Buffer) (filename : jsstring)
| EvChunkDocument (text : jsstring).

(** A computation that leaves events behind and returns or throws. *)
Definition M (A : Type) : Type := list Event * Outcome A.

Definition ret {A} (a : A) : M A := ([], Ret a).
Definition throw {A} (x : Thrown) : M A := ([], Throw x).
Definition emit (e : Event) : M unit := ([e], Ret tt).
Definition lift {A} (o : Outcome A) : M A := ([], o).

Definition bind {A B} (m : M A) (f : A -> M B) : M B :=
  match m with
  | (l, Ret a) => let '(l', o) := f a in (l ++ l', o)
  | (l, Throw x) => (l, Throw x)
  end.

(** [try { m } catch (error) { handler error }] *)
Definition tryCatch {A} (m : M A) (handler : Thrown -> M A) : M A :=
  match m with
  | (l, Ret a) => (l, Ret a)
  | (l, Throw x) => let '(l', o) := handler x in (l ++ l', o)
  end.

Definition events {A} (m : M A) : list Event := fst m.
Definition outcome {A} (m : M A) : Outcome A := snd m.

Declare Scope eff_scope.
Delimit Scope eff_scope with eff.
Notation "x <- m ;; k" := (bind m (fun x => k))
  (at level 100, m at next level, right associativity) : eff_scope.
Notation "m ;;; k" := (bind m (fun _ => k))
  (at level 100, right associativity) : eff_scope.

End Effects.

(** ** The extraction service ([lib/services/text-extraction.ts]) *)

Module Extraction.
Import JS Types Effects.
Local Open Scope eff_scope.

(** What [pdf-parse] resolves to.  A date is kept as the text it is written
    with, which stands for the [Date] made of it. *)
Record PdfData := {
  pdf_text : jsstring;
  info_Title : option jsstring;
  info_Author : option jsstring;
  info_CreationDate : option jsstring;
  numpages : Z
}.

(** What [mammoth.extractRawText] resolves to. *)
Record MammothResult := {
  value : jsstring;
  messages : list jsstring
}.

(** The libraries the services call.  Each call may throw (or reject). *)
Record Env := {
  fileTypeFromBuffer : Buffer -> Outcome (option jsstring);
      (* file-type: the [mime] of the detected type, or [undefined] *)
  pdfParse : Buffer -> Outcome PdfData;
  extractRawText : Buffer -> Outcome MammothResult;
  decodeUtf8 : Buffer -> jsstring;       (* [buffer.toString("utf8")] *)
  sha256Hex : Buffer -> jsstring
      (* [crypto.createHash("sha256").update(buffer).digest("hex")] *)
}.

(** [Partial<DocumentMetadata>] *)
Record PartialMetadata := {
  filename_opt : option jsstring;
  fileType_opt : option SupportedFileType;
  fileSize_opt : option Z;
  title_opt : option jsstring;
  author_opt : option jsstring;
  creationDate_opt : option jsstring;
  pages_opt : option Z
}.

Definition noMetadata : PartialMetadata :=
  {| filename_opt := None; fileType_opt := None; fileSize_opt := None;
     title_opt := None; author_opt := None; creationDate_opt := None;
     pages_opt := None |}.

Record Extracted := {
  text : jsstring;
  metadata : PartialMetadata
}.

Record FileCheck := {
  valid : bool;
  errors : list jsstring;
  checkMetadata : option PartialMetadata
}.

Definition createError (code message : jsstring)
    (details : option (list (string * DetailValue))) : ProcessingError :=
  createProcessingError code message details false.

Definition throwError {A} (code message : jsstring)
    (details : option (list (string * DetailValue))) : M A :=
  throw (ThrownProcessingError (createError code message details)).

Definition optString (o : option jsstring) : DetailValue :=
  match o with Some s => DString s | None => DUndefined end.

(** [x || undefined] on an optional string. *)
Definition truthy (o : option jsstring) : option jsstring :=
  match o with
  | Some [] | None => None
  | Some s => Some s
  end.

(** The [switch] on the detected MIME type. *)
Definition typeOfMime (mime : jsstring) : option SupportedFileType :=
  if streq mime (str "application/pdf") then Some pdf
  else if streq mime
    (str "application/vnd.openxmlformats-officedocument.wordprocessingml.document")
  then Some docx
  else if streq mime (str "application/msword") then Some doc
  else if streq mime (str "text/plain") then Some txt
  else if (streq mime (str "application/rtf") || streq mime (str "text/rtf"))%bool
  then Some rtf
  else None.

(** The [switch] on the extension. *)
Definition typeOfExtension (extension : jsstring) : option SupportedFileType :=
  if streq extension (str "pdf") then Some pdf
  else if streq extension (str "docx") then Some docx
  else if streq extension (str "doc") then Some doc
  else if streq extension (str "txt") then Some txt
  else if streq extension (str "rtf") then Some rtf
  else None.

Section WithEnv.
Context (env : Env).

Definition detectFileType (buffer : Buffer) (filename : jsstring)
    : M SupportedFileType :=
  tryCatch
    (detectedType <- lift (fileTypeFromBuffer env buffer) ;;
     match match detectedType with
           | Some mime => typeOfMime mime
           | None => None
           end with
     | Some t => ret t
     | None =>
         (* Fallback to file extension *)
         let extension := lastPart (toLowerCase filename) in
         match typeOfExtension extension with
         | Some t => ret t
         | None =>
             throwError (str "UNKNOWN_FILE_TYPE")
               (str "Cannot determine file type for " ++ filename)
               (Some [("filename"%string, DString filename);
                      ("detectedMime"%string, optString detectedType);
                      ("extension"%string, DString extension)])
         end
     end)
    (fun error =>
       msg <- lift (messageOf error) ;;
       throwError (str "FILE_TYPE_DETECTION_FAILED")
         (str "Failed to detect file type: " ++ msg)
         (Some [("filename"%string, DString filename)])).

Definition originalError (msg : jsstring) :=
  Some [("originalError"%string, DString msg)].

Definition extractFromPDF (buffer : Buffer) : M Extracted :=
  tryCatch
    (data <- lift (pdfParse env buffer) ;;
     ret {| text := pdf_text data;
            metadata :=
              {| filename_opt := None; fileType_opt := None;
                 fileSize_opt := None;
                 title_opt := truthy (info_Title data);
                 author_opt := truthy (info_Author data);
                 creationDate_opt := truthy (info_CreationDate data);
                 pages_opt := Some (numpages data) |} |})
    (fun error =>
       msg <- lift (messageOf error) ;;
       throwError (str "PDF_EXTRACTION_FAILED")
         (str "Failed to extract PDF: " ++ msg)
         (originalError msg)).

Definition extractFromWord (buffer : Buffer) : M Extracted :=
  tryCatch
    (result <- lift (extractRawText env buffer) ;;
     ret {| text := value result; metadata := noMetadata |})
    (fun error =>
       msg <- lift (messageOf error) ;;
       throwError (str "WORD_EXTRACTION_FAILED")
         (str "Failed to extract Word document: " ++ msg)
         (originalError msg)).

(** The decoding loop of [extractFromText] stops at its first encoding:
    [buffer.toString] does not throw for [utf8]. *)
Definition extractFromText (buffer : Buffer) : M Extracted :=
  tryCatch
    (let text := decodeUtf8 env buffer in
     match text with
     | [] =>
         throw (ThrownError
                  (str "Could not decode text with any supported encoding"))
     | _ => ret {| text := text; metadata := noMetadata |}
     end)
    (fun error =>
       msg <- lift (messageOf error) ;;
       throwError (str "TEXT_EXTRACTION_FAILED")
         (str "Failed to extract text file: " ++ msg)
         (originalError msg)).

(** [/\\[a-z]+\d*\s?/g], removed. *)
Definition reControlWord (_ : option N) (s : jsstring) : option (nat * jsstring) :=
  match s with
  | 92%N :: r =>
      let n := spanLen isLower r in
      let d := spanLen isDigit (skipn n r) in
      let w := if charIs isWhiteSpace (nth_char r (n + d)) then 1%nat else O in
      if Nat.leb 1 n then Some (S (n + d + w), []) else None
  | _ => None
  end.

(** [/[{}]/g], removed. *)
Definition reBrace (_ : option N) (s : jsstring) : option (nat * jsstring) :=
  match s with
  | c :: _ => if (N.eqb c 123 || N.eqb c 125)%bool then Some (1%nat, []) else None
  | [] => None
  end.

(** [/\\\\/g], replaced by one backslash. *)
Definition reBackslashes (_ : option N) (s : jsstring) : option (nat * jsstring) :=
  if startsWith [92%N; 92%N] s then Some (2%nat, [92%N]) else None.

(** [/\\'/g], replaced by an apostrophe. *)
Definition reEscapedQuote (_ : option N) (s : jsstring) : option (nat * jsstring) :=
  if startsWith [92%N; 39%N] s then Some (2%nat, [39%N]) else None.

(** [/\s+/g], replaced by one space. *)
Definition reWhiteSpace (_ : option N) (s : jsstring) : option (nat * jsstring) :=
  let n := spanLen isWhiteSpace s in
  if Nat.leb 1 n then Some (n, [32%N]) else None.

(** Nothing in the body of [extractFromRTF] throws, so its [catch] clause is
    never entered. *)
Definition extractFromRTF (buffer : Buffer) : M Extracted :=
  let rtfText := decodeAscii buffer in
  let text := replaceAll reControlWord rtfText in
  let text := replaceAll reBrace text in
  let text := replaceAll reBackslashes text in
  let text := replaceAll reEscapedQuote text in
  let text := trim (replaceAll reWhiteSpace text) in
  ret {| text := text; metadata := noMetadata |}.

(** The [catch] clause of [extractText]. *)
Definition rethrow (filename : jsstring) (error : Thrown) : M Extracted :=
  if isProcessingError error then throw error
  else
    msg <- lift (messageOf error) ;;
    throwError (str "EXTRACTION_FAILED")
      (str "Failed to extract text: " ++ msg)
      (Some [("originalError"%string, DString msg);
             ("filename"%string, DString filename)]).

(** [detectFileType] returns one of the five supported types or throws, so
    the [default] case of the [switch] is never taken. *)
Definition extractText (buffer : Buffer) (filename : jsstring) : M Extracted :=
  emit (EvExtractText buffer filename) ;;;
  tryCatch
    (fileType <- detectFileType buffer filename ;;
     match fileType with
     | pdf => extractFromPDF buffer
     | docx | doc => extractFromWord buffer
     | txt => extractFromText buffer
     | rtf => extractFromRTF buffer
     end)
    (rethrow filename).

Definition validateFile (buffer : Buffer) (filename : jsstring) : M FileCheck :=
  tryCatch
    (let errors :=
       (if byteLength buffer =? 0 then [str "File is empty"] else [])
       ++ (if byteLength buffer >? 100 * 1024 * 1024
           then [str "File size exceeds 100MB limit"] else []) in
     fileType <- detectFileType buffer filename ;;
     errors <-
       (match errors with
        | [] =>
            tryCatch
              (_ <- extractText buffer filename ;; ret errors)
              (fun error =>
                 msg <- lift (messageOf error) ;;
                 ret (errors ++
                        [str "File appears to be corrupted or unreadable: "
                         ++ msg]))
        | _ => ret errors
        end) ;;
     ret {| valid := negb (nonEmpty errors);
            errors := errors;
            checkMetadata :=
              Some {| filename_opt := Some filename;
                      fileType_opt := Some fileType;
                      fileSize_opt := Some (byteLength buffer);
                      title_opt := None; author_opt := None;
                      creationDate_opt := None; pages_opt := None |} |})
    (fun error =>
       msg <- lift (messageOf error) ;;
       ret {| valid := false;
              errors := [str "Validation failed: " ++ msg];
              checkMetadata := None |}).

End WithEnv.

End Extraction.

(** ** The orchestrator ([lib/services/document-processing.ts]) *)

Module Processor.
Import JS Types Effects.
Local Open Scope eff_scope.

Record DocumentMetadata := {
  filename : jsstring;
  originalFilename : jsstring;
  fileType : jsstring;
  fileSize : Z;
  fileHash : jsstring;
  title : option jsstring;
  author : option jsstring;
  creationDate : option jsstring;
  pages : option Z
}.

Record ProcessingResult := {
  success : bool;
  extractedText : option jsstring;
  chunks : option (list DocumentChunk.t);
  metadata : option DocumentMetadata;
  processingTimeMs : option Z;
  error : option ProcessingError
}.

(** The callback given as [onProgress]: absent, or a function that returns or
    throws what [Some] carries. *)
Definition Callback := option (ProcessingProgress -> option Thrown).

Definition updateProgress (callback : Callback) (progress : ProcessingProgress)
    : M unit :=
  match callback with
  | Some f =>
      emit (EvProgress progress) ;;;
      match f progress with
      | None => ret tt
      | Some x => throw x
      end
  | None => ret tt
  end.

(** The events a call of [updateProgress] leaves. *)
Definition delivered (callback : Callback) (progress : ProcessingProgress)
    : list Event :=
  match callback with
  | Some _ => [EvProgress progress]
  | None => []
  end.

Definition isRetryableError (code : jsstring) : bool :=
  existsb (streq code) [str "NETWORK_ERROR"; str "TIMEOUT"; str "TEMPORARY_FAILURE"].

Definition createError (code message : jsstring)
    (details : option (list (string * DetailValue))) : ProcessingError :=
  createProcessingError code message details (isRetryableError code).

Definition getFileTypeFromName (filename : jsstring) : jsstring :=
  match lastPart (toLowerCase filename) with
  | [] => str "unknown"
  | extension => extension
  end.

(** [Math.ceil(n / d)] for a size [n >= 0] and a constant [d > 0]. *)
Definition ceilDiv (n d : Z) : Z := - ((- n) / d).

(** [Math.ceil(fileSize / (1024 * 1024)) * 1.5] *)
Definition estimateExtractionTime (fileSize : Z) : Q :=
  inject_Z (ceilDiv fileSize (1024 * 1024)) * (3 # 2).

(** [Math.ceil(textLength / 10000) * 0.5] *)
Definition estimateChunkingTime (textLength : Z) : Q :=
  inject_Z (ceilDiv textLength 10000) * (1 # 2).

(** The first progress record of [processDocument]. *)
Definition validatingProgress : ProcessingProgress :=
  {| stage := extracting; progress := Num 0;
     progressMessage := str "Validating file...";
     estimatedTimeRemaining := None; progressError := None |}.

(** The error thrown when validation fails. *)
Definition validationFailed (errors : list jsstring) : ProcessingError :=
  createError (str "VALIDATION_FAILED")
    (str "File validation failed: " ++ join (str ", ") errors)
    (Some [("errors"%string, DStrings errors)]).

(** The [catch] clause of [processDocument]: the error it reports, the
    progress record it hands to the callback and the result it returns.
    The error is the value caught when [isProcessingError] holds of it, and
    is made from its text otherwise, which is where the clause can throw
    before it has reported anything. *)
Definition processedErrorOf (error : Thrown) : Outcome ProcessingError :=
  match error with
  | ThrownProcessingError e => Ret e
  | ThrownOther _ (Some e) _ => Ret e
  | ThrownOther _ None _ =>
      match messageOf error with
      | Ret msg =>
          Ret (createError (str "PROCESSING_FAILED")
                 (str "Document processing failed: " ++ msg)
                 (Some [("originalError"%string, DString msg)]))
      | Throw raised => Throw raised
      end
  end.

Definition failedProgress (processedError : ProcessingError)
    : ProcessingProgress :=
  {| stage := failed; progress := Num 0;
     progressMessage := message processedError;
     estimatedTimeRemaining := None;
     progressError := Some processedError |}.

Definition failureResult (processedError : ProcessingError)
    (processingTimeMs : Z) : ProcessingResult :=
  {| success := false;
     extractedText := None;
     chunks := None;
     metadata := None;
     processingTimeMs := Some processingTimeMs;
     error := Some processedError |}.




Section WithEnv.
Context (env : Extraction.Env).

(** [this] holds the options of the chunking service; [startTime] and
    [endTime] are the two readings of [Date.now()], at entry and when the
    result is built. *)
Definition processDocument (this : ChunkingOptions) (startTime endTime : Z)
    (buffer : Buffer) (filename : jsstring) (onProgress : Callback)
    : M ProcessingResult :=
  tryCatch
    ((* Initial validation *)
     updateProgress onProgress validatingProgress ;;;
     validation <- Extraction.validateFile env buffer filename ;;
     (if Extraction.valid validation then ret tt
      else
        throw (ThrownProcessingError
                 (validationFailed (Extraction.errors validation)))) ;;;
     (* Generate file hash for deduplication *)
     let fileHash := Extraction.sha256Hex env buffer in
     (* Extract text *)
     updateProgress onProgress
       {| stage := extracting; progress := Num 20;
          progressMessage := str "Extracting text from document...";
          estimatedTimeRemaining :=
            Some (Num (estimateExtractionTime (byteLength buffer)));
          progressError := None |} ;;;
     extracted <- Extraction.extractText env buffer filename ;;
     let text := Extraction.text extracted in
     let extractedMetadata := Extraction.metadata extracted in
     (if (negb (nonEmpty text) || (len (trim text) =? 0))%bool
      then
        throw (ThrownProcessingError
                 (createError (str "EMPTY_DOCUMENT")
                    (str "No text content found in document") None))
      else ret tt) ;;;
     (* Build complete metadata *)
     let metadata :=
       {| filename := filename;
          originalFilename := filename;
          fileType :=
            match Extraction.fileType_opt extractedMetadata with
            | Some t => fileTypeName t
            | None => getFileTypeFromName filename
            end;
          fileSize := byteLength buffer;
          fileHash := fileHash;
          title := Extraction.title_opt extractedMetadata;
          author := Extraction.author_opt extractedMetadata;
          creationDate := Extraction.creationDate_opt extractedMetadata;
          pages := Extraction.pages_opt extractedMetadata |} in
     (* Chunk document *)
     updateProgress onProgress
       {| stage := chunking; progress := Num 60;
          progressMessage := str "Creating document chunks...";
          estimatedTimeRemaining :=
            Some (Num (estimateChunkingTime (len text)));
          progressError := None |} ;;;
     emit (EvChunkDocument text) ;;;
     chunks <- lift (Chunking.chunkDocument this text None) ;;
     (match chunks with
      | [] =>
          throw (ThrownProcessingError
                   (createError (str "CHUNKING_FAILED")
                      (str "Failed to create document chunks") None))
      | _ => ret tt
      end) ;;;
     (* Complete *)
     updateProgress onProgress
       {| stage := completed; progress := Num 100;
          progressMessage :=
            str "Successfully processed document into "
            ++ showZ (Z.of_nat (List.length chunks)) ++ str " chunks";
          estimatedTimeRemaining := None; progressError := None |} ;;;
     ret {| success := true;
            extractedText := Some text;
            chunks := Some chunks;
            metadata := Some metadata;
            processingTimeMs := Some (endTime - startTime);
            error := None |})
    (fun error =>
       processedError <- lift (processedErrorOf error) ;;
       updateProgress onProgress (failedProgress processedError) ;;;
       ret (failureResult processedError (endTime - startTime))).



End WithEnv.

End Processor.

(** ** The upload validator ([lib/utils/file-validation.ts]) *)

Module FileValidation.
Import JS Types.

(** The messages pushed to [errors] and [warnings], each with the values its
    template interpolates.  Their rendering as text is left out
    ([formatFileSize] goes through [Math.log]). *)
Inductive Message :=
| FileIsEmpty
| FileSizeExceeds (size maxSize : Z)
| FileMustHaveExtension
| FileTypeNotSupported (extension : jsstring) (allowedTypes : list SupportedFileType)
| ContentDoesNotMatchExtension (mime extension : jsstring)
| ContentTypeDiffers (mime extension : jsstring)
| CouldNotVerifyFileType (extension : jsstring)
| NotAllowedForSecurityReasons (extension : jsstring)
| ContainsExecutableCode (name : string)
| AppearsToContainScript
| InvalidPDFStructure
| PDFVersionNotFullySupported (version : Q)
| InvalidWordStructure
| MayContainBinaryData
| InvalidRTFStructure
| ContentValidationFailed (msg : jsstring)
| ValidationFailed (msg : jsstring).

Record ValidationOptions := {
  maxFileSize : option Z;
  allowedTypes : option (list SupportedFileType);
  allowExecutables : option bool;
  strictMimeTypeCheck : option bool
}.

Record FileMetadata := {
  filename : jsstring;
  fileSize : Z;
  fileType : jsstring
}.

Record FileValidationResult := {
  valid : bool;
  errors : list Message;
  warnings : list Message;
  metadata : option FileMetadata
}.

(** The first argument of [validateFile]: a [Buffer], or a browser [File]
    with its name and contents. *)
Inductive FileArg :=
| OfBuffer (buffer : Buffer)
| OfFile (name : jsstring) (contents : Buffer).

Definition getFileExtension (filename : jsstring) : option jsstring :=
  let parts := split sepDot (toLowerCase filename) in
  if Nat.ltb 1 (List.length parts)
  then match last parts [] with [] => None | e => Some e end
  else None.

Definition isLikelyMislabeled (detectedMime extension : jsstring) : bool :=
  let commonMislabeling :=
    [(str "application/octet-stream", [str "pdf"; str "docx"]);
     (str "text/plain", [str "pdf"; str "docx"])] in
  existsb (fun case_ =>
             streq (fst case_) detectedMime
             && existsb (streq extension) (snd case_))%bool
          commonMislabeling.

(** [MIME_TYPE_MAP[extension]]: an entry of the table; a property every
    object inherits (the only lower-case ones are [constructor] and
    [__proto__]), which is truthy but has no [includes]; or [undefined]. *)
Inductive MimeLookup :=
| OwnEntry (mimes : list jsstring)
| InheritedProperty
| NoEntry.

Definition lookupMimeTypes (extension : jsstring) : MimeLookup :=
  match Extraction.typeOfExtension extension with
  | Some t => OwnEntry (MIME_TYPE_MAP t)
  | None =>
      if (streq extension (str "constructor")
          || streq extension (str "__proto__"))%bool
      then InheritedProperty else NoEntry
  end.

Definition matchesSignature (buffer : Buffer) (signature : list byte) : bool :=
  (Nat.leb (List.length signature) (List.length buffer)
   && bufferEquals (firstn (List.length signature) buffer) signature)%bool.

Definition dangerousExtensions : list jsstring :=
  map str ["exe"; "bat"; "cmd"; "com"; "scr"; "pif"; "vbs"; "js"; "jar";
           "app"; "dmg"; "pkg"; "deb"; "rpm"; "sh"; "bash"; "ps1"; "msi";
           "bin"; "run"; "action"; "workflow"]%string.

Definition executableSignatures : list (list byte * string) :=
  [([x4d; x5a], "PE (Windows executable)"%string);
   ([x7f; x45; x4c; x46], "ELF (Linux executable)"%string);
   ([xfe; xed; xfa; xce], "Mach-O (macOS executable)"%string);
   ([xce; xfa; xed; xfe], "Mach-O (macOS executable)"%string);
   ([xcf; xfa; xed; xfe], "Mach-O (macOS executable)"%string)].

(** [pre] at the start of [s], ignoring the case of ASCII letters. *)
Fixpoint startsWithNoCase (pre s : jsstring) : bool :=
  match pre, s with
  | [], _ => true
  | x :: pre', y :: s' =>
      N.eqb (Chunking.upperAscii x) (Chunking.upperAscii y)
      && startsWithNoCase pre' s'
  | _ :: _, [] => false
  end.

(** [/^\s*<script/i], [/^\s*#!\s*\/bin/], [/^\s*@echo\s+off/i] and
    [/^\s*powershell/i]. *)
Definition scriptPatterns : list (jsstring -> bool) :=
  [ (fun s => startsWithNoCase (str "<script") (trimStart s));
    (fun s =>
       let r := trimStart s in
       startsWith (str "#!") r && startsWith (str "/bin") (trimStart (skipn 2 r)));
    (fun s =>
       let r := trimStart s in
       let r' := skipn 5 r in
       startsWithNoCase (str "@echo") r
       && Nat.leb 1 (spanLen isWhiteSpace r')
       && startsWithNoCase (str "off") (trimStart r'));
    (fun s => startsWithNoCase (str "powershell") (trimStart s)) ]%bool.

Definition firstSignature (magicBytes : Buffer) : list Message :=
  match filter (fun sg => matchesSignature magicBytes (fst sg))
               executableSignatures with
  | sg :: _ => [ContainsExecutableCode (snd sg)]
  | [] => []
  end.

(** [/%PDF-(\d+\.\d+)/]: the first place of [s] where it matches, with the
    text captured. *)
Fixpoint matchPdfVersion (s : jsstring) : option (jsstring * jsstring) :=
  match s with
  | [] => None
  | _ :: s' =>
      let here :=
        if startsWith (str "%PDF-") s then
          let r := skipn 5 s in
          let n := spanLen isDigit r in
          match skipn n r with
          | 46%N :: r' =>
              let k := spanLen isDigit r' in
              if (Nat.leb 1 n && Nat.leb 1 k)%bool
              then Some (firstn n r, firstn k r') else None
          | _ => None
          end
        else None in
      match here with
      | Some v => Some v
      | None => matchPdfVersion s'
      end
  end.

Definition digitsValue (ds : jsstring) : Z :=
  fold_left (fun acc d => 10 * acc + (Z.of_N d - 48)) ds 0.

(** [parseFloat(v)] for [v] the digits before and after the dot: the
    binary64 number nearest to the decimal. *)
Definition parseFloat (v : jsstring * jsstring) : Q :=
  F64.rn (inject_Z (digitsValue (fst v))
          + inject_Z (digitsValue (snd v))
            / inject_Z (10 ^ Z.of_nat (List.length (snd v)))).

Definition validatePDFContent (buffer : Buffer) : list Message * list Message :=
  let pdfHeader := subarray buffer 4 in
  if negb (bufferEquals pdfHeader (bytes "%PDF")) then ([InvalidPDFStructure], [])
  else
    let headerLine := decodeAscii (subarray buffer 20) in
    match matchPdfVersion headerLine with
    | Some versionMatch =>
        let version := parseFloat versionMatch in
        if negb (Qle_bool version 2)
        then ([], [PDFVersionNotFullySupported version])
        else ([], [])
    | None => ([], [])
    end.

Definition validateWordContent (buffer : Buffer) : list Message * list Message :=
  let zipSignature := subarray buffer 4 in
  if 4 <=? byteLength buffer then
    if (negb (bufferEquals zipSignature [x50; x4b; x03; x04])
        && negb (bufferEquals zipSignature [x50; x4b; x07; x08]))%bool
    then
      let docSignature := subarray buffer 8 in
      let validDocSignatures := [[xd0; xcf; x11; xe0; xa1; xb1; x1a; xe1]] in
      if negb (existsb (bufferEquals docSignature) validDocSignatures)
      then ([InvalidWordStructure], []) else ([], [])
    else ([], [])
  else ([], []).

Definition isNonTextByte (b : byte) : bool :=
  let n := Byte.to_N b in
  (N.ltb n 32 && negb (N.eqb n 9) && negb (N.eqb n 10) && negb (N.eqb n 13))%bool.

(** The ratio is [NaN] on an empty sample, and the test then fails. *)
Definition validateTextContent (buffer : Buffer) : list Message * list Message :=
  let sample := subarray buffer 1000 in
  let nonTextBytes := Z.of_nat (List.length (filter isNonTextByte sample)) in
  match sample with
  | [] => ([], [])
  | _ =>
      let nonTextRatio :=
        F64.div (F64.ofZ nonTextBytes) (F64.ofZ (byteLength sample)) in
      if F64.ltb (F64.lit 1 1) nonTextRatio
      then ([], [MayContainBinaryData]) else ([], [])
  end.

Definition validateRTFContent (buffer : Buffer) : list Message * list Message :=
  let rtfHeader := decodeAscii (subarray buffer 10) in
  if negb (startsWith (str "{\rtf") rtfHeader)
  then ([InvalidRTFStructure], []) else ([], []).

(** None of the four checks throws, so the [catch] clause of
    [validateFileContent] is never entered. *)
Definition validateFileContent (buffer : Buffer) (fileType : jsstring)
    : list Message * list Message :=
  match Extraction.typeOfExtension fileType with
  | Some pdf => validatePDFContent buffer
  | Some docx | Some doc => validateWordContent buffer
  | Some txt => validateTextContent buffer
  | Some rtf => validateRTFContent buffer
  | None => ([], [])
  end.

(** [options?.maxFileSize || MAX_FILE_SIZE] *)
Definition maxSizeOf (options : option ValidationOptions) : Z :=
  match options with
  | Some o => match maxFileSize o with
              | Some m => if m =? 0 then MAX_FILE_SIZE else m
              | None => MAX_FILE_SIZE
              end
  | None => MAX_FILE_SIZE
  end.

(** [options?.allowedTypes || SUPPORTED_FILE_TYPES] *)
Definition allowedTypesOf (options : option ValidationOptions)
    : list SupportedFileType :=
  match options with
  | Some o => orElse (allowedTypes o) SUPPORTED_FILE_TYPES
  | None => SUPPORTED_FILE_TYPES
  end.

(** [options?.strictMimeTypeCheck ?? true] *)
Definition strictMimeOf (options : option ValidationOptions) : bool :=
  match options with
  | Some o => orElse (strictMimeTypeCheck o) true
  | None => true
  end.

(** [options?.allowExecutables], as a truth value. *)
Definition allowExecutablesOf (options : option ValidationOptions) : bool :=
  match options with
  | Some o => orElse (allowExecutables o) false
  | None => false
  end.

(** The buffer and the name [validateFile] works on: those of the [File], or
    the buffer with [filename || "unknown"]. *)
Definition bufferOf (file : FileArg) : Buffer :=
  match file with
  | OfBuffer b => b
  | OfFile _ contents => contents
  end.

Definition nameOf (file : FileArg) (filename : option jsstring) : jsstring :=
  match file with
  | OfBuffer _ =>
      match filename with
      | Some [] | None => str "unknown"
      | Some f => f
      end
  | OfFile n _ => n
  end.

(** [error instanceof Error ? error.message : "Unknown error"] in a
    template. *)
Definition messageOrUnknown (error : Thrown) : Outcome jsstring :=
  if instanceOfError error then messageOf error
  else Ret (str "Unknown error").

(** A sniffer that answers with a type the extension expects. *)
Definition agreeing (t : SupportedFileType) : Buffer -> Outcome (option jsstring) :=
  fun _ => Ret (Some (hd [] (MIME_TYPE_MAP t))).

(** [isValidFileSize(size, maxSize = MAX_FILE_SIZE)] *)
Definition isValidFileSize (size : Z) (maxSize : option Z) : bool :=
  ((size >? 0) && (size <=? orElse maxSize MAX_FILE_SIZE))%bool.

(** [isValidFileType(filename, allowedTypes = SUPPORTED_FILE_TYPES)] *)
Definition isValidFileType (filename : jsstring)
    (allowedTypes : option (list SupportedFileType)) : bool :=
  match getFileExtension filename with
  | Some extension =>
      existsb (fun t => streq (fileTypeName t) extension)
              (orElse allowedTypes SUPPORTED_FILE_TYPES)
  | None => false
  end.

(** What [validateMultipleFiles] resolves to. *)
Record BatchValidation := {
  results : list FileValidationResult;
  hasErrors : bool
}.

Section WithLibraries.
Context (fileTypeFromBuffer : Buffer -> Outcome (option jsstring))
        (decodeUtf8 : Buffer -> jsstring).

Definition checkFileSecurity (buffer : Buffer) (filename : jsstring)
    : list Message * list Message :=
  let extension := getFileExtension filename in
  let errors1 :=
    match extension with
    | Some e =>
        if existsb (streq e) dangerousExtensions
        then [NotAllowedForSecurityReasons e] else []
    | None => []
    end in
  let errors2 :=
    if 4 <=? byteLength buffer then firstSignature (subarray buffer 4) else [] in
  let warnings :=
    match extension with
    | Some e =>
        if (streq e (str "txt") && (0 <? byteLength buffer))%bool then
          let content := decodeUtf8 (subarray buffer 1000) in
          if existsb (fun pattern => pattern content) scriptPatterns
          then [AppearsToContainScript] else []
        else []
    | None => []
    end in
  (errors1 ++ errors2, warnings).

(** The MIME type validation of [validateFile]: the errors and warnings it
    pushes, or what it throws. *)
Definition checkMimeType (buffer : Buffer) (extension : option jsstring)
    (strictMime : bool) : Outcome (list Message * list Message) :=
  if 0 <? byteLength buffer then
    match fileTypeFromBuffer buffer with
    | Throw x => Throw x
    | Ret detectedType =>
        match extension with
        | Some ext =>
            if strictMime then
              match detectedType, lookupMimeTypes ext with
              | Some mime, OwnEntry expectedMimeTypes =>
                  if negb (existsb (streq mime) expectedMimeTypes) then
                    if isLikelyMislabeled mime ext
                    then Ret ([ContentDoesNotMatchExtension mime ext], [])
                    else Ret ([], [ContentTypeDiffers mime ext])
                  else Ret ([], [])
              | Some mime, InheritedProperty =>
                  Throw (ThrownError
                           (str "expectedMimeTypes.includes is not a function"))
              | Some mime, NoEntry => Ret ([], [])
              | None, NoEntry => Ret ([], [])
              | None, _ => Ret ([], [CouldNotVerifyFileType ext])
              end
            else Ret ([], [])
        | None => Ret ([], [])
        end
    end
  else Ret ([], []).

Definition validateFile (file : FileArg) (filename : option jsstring)
    (options : option ValidationOptions) : Outcome FileValidationResult :=
  let maxSize := maxSizeOf options in
  let allowedTypes_ := allowedTypesOf options in
  let strictMime := strictMimeOf options in
  let buffer := bufferOf file in
  let name := nameOf file filename in
  let size := byteLength buffer in
  (* Basic validations *)
  let errors0 :=
    (if size =? 0 then [FileIsEmpty] else [])
    ++ (if size >? maxSize then [FileSizeExceeds size maxSize] else []) in
  (* File extension validation *)
  let extension := getFileExtension name in
  let errors1 :=
    errors0 ++
    match extension with
    | None => [FileMustHaveExtension]
    | Some ext =>
        if negb (existsb (fun t => streq (fileTypeName t) ext) allowedTypes_)
        then [FileTypeNotSupported ext allowedTypes_] else []
    end in
  (* MIME type validation *)
  match checkMimeType buffer extension strictMime with
  | Throw error =>
      match messageOrUnknown error with
      | Ret msg =>
          Ret {| valid := false;
                 errors := [ValidationFailed msg];
                 warnings := []; metadata := None |}
      | Throw raised => Throw raised
      end
  | Ret (mimeErrors, mimeWarnings) =>
      let errors2 := errors1 ++ mimeErrors in
      let warnings2 := mimeWarnings in
      (* Security checks *)
      let security :=
        if allowExecutablesOf options then ([], [])
        else checkFileSecurity buffer name in
      let errors3 := errors2 ++ fst security in
      let warnings3 := warnings2 ++ snd security in
      (* Content-specific validation *)
      let content :=
        match extension, errors3 with
        | Some ext, [] => validateFileContent buffer ext
        | _, _ => ([], [])
        end in
      let errors4 := errors3 ++ fst content in
      let warnings4 := warnings3 ++ snd content in
      Ret {| valid := negb (nonEmpty errors4);
             errors := errors4;
             warnings := warnings4;
             metadata :=
               Some {| filename := name; fileSize := size;
                       fileType := match extension with
                                   | Some e => e
                                   | None => str "unknown"
                                   end |} |}
  end.

(** The loop of [validateMultipleFiles]; the files are browser [File]s,
    each with its name and contents. *)
Fixpoint validateEach (files : list (jsstring * Buffer))
    (options : option ValidationOptions) : Outcome (list FileValidationResult) :=
  match files with
  | [] => Ret []
  | file :: files' =>
      match validateFile (OfFile (fst file) (snd file)) None options with
      | Throw raised => Throw raised
      | Ret result =>
          match validateEach files' options with
          | Throw raised => Throw raised
          | Ret results => Ret (result :: results)
          end
      end
  end.

Definition validateMultipleFiles (files : list (jsstring * Buffer))
    (options : option ValidationOptions) : Outcome BatchValidation :=
  match validateEach files options with
  | Throw raised => Throw raised
  | Ret results =>
      Ret {| results := results;
             hasErrors := existsb (fun result => negb (valid result)) results |}
  end.

End WithLibraries.

End FileValidation.

(** ** The status endpoint ([app/api/documents/[documentId]/status/route.ts])

    The numbers of this file are binary64 numbers, kept as the fractions
    they are: every conversion, quotient, product and difference is rounded
    by [F64.rn]. *)

Module StatusRoute.
Import JS Types Effects.

Inductive DocumentStatus :=
| UPLOADED | PROCESSING | COMPLETED | FAILED | OTHER.

(** The fields of the database row the endpoint reads; the times are in
    milliseconds. *)
Record Document := {
  status : DocumentStatus;
  processingStartedAt : option Z;
  createdTime : Z;
  fileSize : Z;
  fileType : jsstring;
  chunkCount : option Z
}.

Definition Qmax (a b : Q) : Q := if Qle_bool a b then b else a.
Definition Qmin (a b : Q) : Q := if Qle_bool a b then a else b.
Definition Qgtb (a b : Q) : bool := negb (Qle_bool a b).

(** The names of the properties every object inherits from
    [Object.prototype]. *)
Definition objectPrototypeKeys : list jsstring :=
  map str ["constructor"; "__defineGetter__"; "__defineSetter__";
           "hasOwnProperty"; "__lookupGetter__"; "__lookupSetter__";
           "isPrototypeOf"; "propertyIsEnumerable"; "toString"; "valueOf";
           "__proto__"; "toLocaleString"]%string.

(** [timePerMB[fileType]]: a rate of the table; a property every object
    inherits, which is a function or an object; or [undefined]. *)
Inductive RateLookup :=
| OwnRate (rate : Q)
| InheritedValue
| NoRate.

Definition timePerMB (fileType : jsstring) : RateLookup :=
  if streq fileType (str "pdf") then OwnRate 3
  else if streq fileType (str "docx") then OwnRate 2
  else if streq fileType (str "doc") then OwnRate (5 # 2)
  else if streq fileType (str "txt") then OwnRate 1
  else if streq fileType (str "rtf") then OwnRate (3 # 2)
  else if existsb (streq fileType) objectPrototypeKeys then InheritedValue
  else NoRate.

(** [timePerMB[fileType] || 2.0] as a factor of a product: an inherited
    value is truthy, so it is the multiplier, and it converts to [NaN]. *)
Definition multiplierOf (fileType : jsstring) : number Q :=
  match timePerMB fileType with
  | OwnRate rate => Num rate
  | InheritedValue => NaN
  | NoRate => Num 2%Q
  end.

(** [Number(fileSize) / (1024 * 1024)] *)
Definition sizeInMB (fileSize : Z) : Q :=
  let sizeInBytes := F64.rn (inject_Z fileSize) in
  F64.rn (sizeInBytes / inject_Z (1024 * 1024)).

(** [Math.max] and [Math.ceil] of [NaN] are [NaN]. *)
Definition estimateProcessingTime (fileSize : Z) (fileType : jsstring)
    : number Z :=
  match multiplierOf fileType with
  | Num multiplier =>
      let estimatedTime := Qmax 10 (F64.rn (sizeInMB fileSize * multiplier)) in
      Num (Qceiling estimatedTime)
  | NaN => NaN
  end.

(** [Math.round]: the nearest whole number, a half going up. *)
Definition round (x : Q) : Z := Qfloor (x + (1 # 2)).

(** [document.processingStartedAt || document.createdTime] *)
Definition startTimeOf (document : Document) : Z :=
  match processingStartedAt document with
  | Some t => t
  | None => createdTime document
  end.

(** [Math.floor(elapsedMs / 1000)] at the time [now], both times in whole
    milliseconds as [getTime] gives them. *)
Definition elapsedSecondsAt (now : Z) (document : Document) : Z :=
  let elapsedMs := F64.rn (inject_Z now - inject_Z (startTimeOf document)) in
  Qfloor (F64.rn (elapsedMs / 1000)).

Definition progressPercentage (elapsedSeconds estimatedTotalTime : Z) : Q :=
  Qmin 95
    (F64.rn (F64.rn (inject_Z elapsedSeconds / inject_Z estimatedTotalTime)
             * 100)).

Definition mapDocumentStatusToProgress (now : Z) (document : Document)
    : ProcessingProgress :=
  let elapsedSeconds := elapsedSecondsAt now document in
  match status document with
  | UPLOADED =>
      {| stage := uploading; progress := Num 100;
         progressMessage :=
           str "File uploaded successfully. Starting processing...";
         estimatedTimeRemaining := Some (Num 30%Q); progressError := None |}
  | PROCESSING =>
      match estimateProcessingTime (fileSize document) (fileType document) with
      | Num estimatedTotalTime =>
          let pct := progressPercentage elapsedSeconds estimatedTotalTime in
          let estimatedRemaining :=
            Qmax 5 (F64.rn (inject_Z estimatedTotalTime
                            - inject_Z elapsedSeconds)) in
          let '(stage1, message1) :=
            if Qgtb pct 30
            then (chunking, str "Creating document chunks for analysis...")
            else (extracting, str "Extracting text from document...") in
          let '(stage2, message2) :=
            if Qgtb pct 60
            then (analyzing, str "Running AI analysis on content...")
            else (stage1, message1) in
          {| stage := stage2; progress := Num (round pct);
             progressMessage := message2;
             estimatedTimeRemaining := Some (Num estimatedRemaining);
             progressError := None |}
      | NaN =>
          (* the percentage and the remaining time are NaN, and no
             comparison with NaN holds *)
          {| stage := extracting; progress := NaN;
             progressMessage := str "Extracting text from document...";
             estimatedTimeRemaining := Some NaN; progressError := None |}
      end
  | COMPLETED =>
      {| stage := completed; progress := Num 100;
         progressMessage :=
           str "Document processed successfully! Created "
           ++ showZ (match chunkCount document with
                     | Some n => n
                     | None => 0
                     end)
           ++ str " chunks.";
         estimatedTimeRemaining := None; progressError := None |}
  | FAILED =>
      {| stage := failed; progress := Num 0;
         progressMessage :=
           str "Document processing failed. Please try uploading again.";
         estimatedTimeRemaining := None;
         progressError :=
           Some {| code := str "PROCESSING_FAILED";
                   message :=
                     str "Document processing failed due to an internal error";
                   details := None;
                   retryable := true |} |}
  | OTHER =>
      {| stage := uploading; progress := Num 0;
         progressMessage := str "Starting document processing...";
         estimatedTimeRemaining := None; progressError := None |}
  end.

(** The stage by the thresholds on the elapsed fraction, in integers:
    [analyzing] above 60 percent of the estimate, [chunking] above 30. *)
Definition stageOf (elapsedSeconds estimatedTotalTime : Z) : Stage :=
  if 60 * estimatedTotalTime <? 100 * elapsedSeconds then analyzing
  else if 30 * estimatedTotalTime <? 100 * elapsedSeconds then chunking
  else extracting.

End StatusRoute.

(** ** Concrete inputs for the examples *)

Module Samples.
Import JS Types Effects.

(** The libraries as they answer on the buffers used below: [file-type]
    knows the signatures of PNG images and of PDF documents and nothing in
    plain text; [pdf-parse] and [mammoth] reject a buffer that is no PDF
    document and no zip archive.  The digest is a stand-in, no statement
    looks at it. *)
Definition pngSignature : Buffer := [x89; x50; x4e; x47; x0d; x0a; x1a; x0a].

(** A PNG image of one black pixel: the signature and the chunks [IHDR],
    [IDAT] and [IEND], 67 bytes. *)
Definition onePixelPng : Buffer :=
  pngSignature
  ++ [x00; x00; x00; x0d; x49; x48; x44; x52; x00; x00; x00; x01;
      x00; x00; x00; x01; x08; x00; x00; x00; x00; x3a; x7e; x9b; x55]
  ++ [x00; x00; x00; x0a; x49; x44; x41; x54; x78; xda; x63; x60;
      x00; x00; x00; x02; x00; x01; xe5; x27; xde; xfc]
  ++ [x00; x00; x00; x00; x49; x45; x4e; x44; xae; x42; x60; x82].

(** [buffer.toString("utf8")] on a buffer in which no byte above 127 begins
    or continues a well-formed sequence: such a byte decodes to U+FFFD and
    the others to themselves. *)
Definition decodeUtf8 (buffer : Buffer) : jsstring :=
  map (fun x => if N.ltb (Byte.to_N x) 128 then Byte.to_N x else 65533%N)
      buffer.

Definition sniff (buffer : Buffer) : Outcome (option jsstring) :=
  if FileValidation.matchesSignature buffer pngSignature
  then Ret (Some (str "image/png"))
  else if FileValidation.matchesSignature buffer (bytes "%PDF")
  then Ret (Some (str "application/pdf"))
  else Ret None.

Definition env : Extraction.Env :=
  {| Extraction.fileTypeFromBuffer := sniff;
     Extraction.pdfParse :=
       fun _ => Throw (ThrownError (str "Invalid PDF structure"));
     Extraction.extractRawText :=
       fun _ => Throw (ThrownError (str "Could not find the zip archive"));
     Extraction.decodeUtf8 := decodeUtf8;
     Extraction.sha256Hex := fun _ => str "digest" |}.




(** Texts for the chunker.  The first is one paragraph of three sentences
    that [estimateTokenCount] puts at 6, 11 and 2 tokens; the second is
    three paragraphs of six words, 8 tokens each. *)
Definition threeSentences : jsstring :=
  str "Alpha beta gamma delta. Epsilon zeta eta theta iota kappa lambda mu. Nu.".

Definition threeParagraphs : jsstring :=
  str "one two three four five six"
  ++ [10; 10]%N ++ str "seven eight nine ten eleven twelve"
  ++ [10; 10]%N ++ str "thirteen fourteen fifteen sixteen seventeen eighteen".

(** [{ maxTokens, overlapTokens, minChunkSize }] as the options argument. *)
Definition tight (maxTokens overlapTokens minChunkSize : Z)
    : option PartialChunkingOptions :=
  Some {| maxTokens_opt := Some maxTokens;
          overlapTokens_opt := Some overlapTokens;
          preserveSemanticBoundaries_opt := None;
          minChunkSize_opt := Some minChunkSize |}.

(** Texts for the chunker with its default options.  [words n] is one
    sentence of [n] words, which [estimateTokenCount] puts at the ceiling
    of [1.3 n + 0.2] tokens: 1496 for 1150 words, 1301 for 1000. *)
Definition words (n : nat) : jsstring :=
  join (str " ") (repeat (str "word") n) ++ str ".".

(** A heading of 6 tokens and a paragraph of 1496. *)
Definition headedText : jsstring :=
  str "Chapter one begins here" ++ [10; 10]%N ++ words 1150.

(** Three paragraphs of 1301 tokens. *)
Definition threeLongParagraphs : jsstring :=
  words 1000 ++ [10; 10]%N ++ words 1000 ++ [10; 10]%N ++ words 1000.

(** A list of 400 items of 7 tokens: one unit of 2800 tokens. *)
Definition bulletList : jsstring :=
  join [10]%N (repeat (str "- alpha beta gamma delta.") 400).

(** A paragraph of 3 tokens and a list item that is 7600 exclamation marks
    between a dash and a letter: 1525 tokens, of which the sentences keep
    4. *)
Definition exclamations : jsstring :=
  str "Hello there." ++ [10; 10]%N
  ++ str "- " ++ repeat 33%N (76 * 100) ++ str " b".

(** A body of 203 sentences of fifteen words: 3045 words and 203 full
    stops, which [estimateTokenCount] puts at 4000 tokens. *)
Definition sentence : jsstring :=
  str "The quick brown fox jumps over the lazy dog near the old river bank today.".

Definition longBody : jsstring := join (str " ") (repeat sentence 203).

(** A document of three and a half megabytes, in processing for four
    seconds. *)
Definition processingDocument : StatusRoute.Document :=
  {| StatusRoute.status := StatusRoute.PROCESSING;
     StatusRoute.processingStartedAt := Some 1000;
     StatusRoute.createdTime := 0;
     StatusRoute.fileSize := 3670016;
     StatusRoute.fileType := str "pdf";
     StatusRoute.chunkCount := None |}.

End Samples.

(** * The vocabulary of the proofs

    The predicates the statements below are phrased with: what the
    extraction service may throw, the marker that stands for the dot of an
    abbreviation, the layout of the semantic units in the text, and the
    invariants of the loop of [createChunks]. *)

Module Invariants.
Import JS Types Chunking Effects.

(** A computation that throws throws a [ProcessingErrorImpl]. *)
Definition throwsOnlyProcessingErrors {A} (m : M A) : Prop :=
  match outcome m with
  | Ret _ => True
  | Throw x => exists e, x = ThrownProcessingError e
  end.

(** The text of [x] can be taken: the interpolation of
    [error instanceof Error ? error.message : String(error)] does not
    throw. *)
Definition Describable (x : Thrown) : Prop :=
  exists msg, messageOf x = Ret msg.

(** What the libraries throw can be described. *)
Definition DescribableThrows (env : Extraction.Env) : Prop :=
  (forall buffer x,
     Extraction.fileTypeFromBuffer env buffer = Throw x -> Describable x)
  /\ (forall buffer x,
        Extraction.pdfParse env buffer = Throw x -> Describable x)
  /\ (forall buffer x,
        Extraction.extractRawText env buffer = Throw x -> Describable x).



(** The order of the stages of a document in processing. *)
Definition stageRank (s : Stage) : Z :=
  match s with
  | uploading => 0 | extracting => 1 | chunking => 2 | analyzing => 3
  | completed => 4 | failed => 5
  end.

(** The computation [m] once the events [l] have been left. *)
Definition after {A} (l : list Event) (m : M A) : M A :=
  (l ++ events m, outcome m).

(** The extractor [extractText] calls for a file of type [t]. *)
Definition extractorOf (env : Extraction.Env) (t : SupportedFileType)
    (buffer : Buffer) : M Extraction.Extracted :=
  match t with
  | pdf => Extraction.extractFromPDF env buffer
  | docx | doc => Extraction.extractFromWord env buffer
  | txt => Extraction.extractFromText env buffer
  | rtf => Extraction.extractFromRTF buffer
  end.

(** The codes of the errors that leave [extractText]. *)
Definition extractionCodes : list jsstring :=
  [str "FILE_TYPE_DETECTION_FAILED"; str "PDF_EXTRACTION_FAILED";
   str "WORD_EXTRACTION_FAILED"; str "TEXT_EXTRACTION_FAILED"].

(** ** Strings *)

(** [restore] is the replacement of every marker by a dot. *)
Definition restoreGo (skip : nat) (s : jsstring) : jsstring :=
  replaceGo reDotMarker skip None s.

Definition restore (s : jsstring) : jsstring := restoreGo 0 s.

(** No marker of [a ++ y] starts in [a] and ends in [y]. *)
Definition Clean (a y : jsstring) : Prop :=
  forall a1 a2, a = a1 ++ a2 -> a2 <> [] ->
    startsWith dotMarker (a2 ++ y) = true -> startsWith dotMarker a2 = true.

(** A separator: a sentence end, then sentence ends and white space. *)
Definition IsSeparator (z : jsstring) : Prop :=
  exists p w z',
    z = p :: w :: z'
    /\ isSentenceEnd p = true
    /\ (isSentenceEnd w || isWhiteSpace w)%bool = true
    /\ forallb (fun c => negb (N.eqb c 60)) z = true.

(** One more than the length of every piece, summed. *)
Definition cost (l : list jsstring) : nat :=
  list_sum (map (fun q => S (List.length q)) l).


(** A character that is no brace, and one that is a plain space if it is
    white space at all. *)
Definition notBrace (c : N) : Prop := c <> 123%N /\ c <> 125%N.

Definition plainBlank (c : N) : Prop := isWhiteSpace c = true -> c = 32%N.

(** ** Positions *)

(** The units of [l] start at or after [lo] and at or before [hi], each at
    or after the one before it, and each ends after it starts. *)
Fixpoint Laid (lo : Z) (l : list SemanticUnit.t) (hi : Z) : Prop :=
  match l with
  | [] => lo <= hi
  | d :: l' =>
      lo <= SemanticUnit.startPosition d
      /\ SemanticUnit.startPosition d < SemanticUnit.endPosition d
      /\ SemanticUnit.startPosition d <= hi
      /\ Laid (SemanticUnit.startPosition d) l' hi
  end.

(** The units of [units] lie one after the other between [lo] and [hi], each
    at least as long as its content. *)
Fixpoint Placed (lo : Z) (units : list SemanticUnit.t) (hi : Z) : Prop :=
  match units with
  | [] => lo <= hi
  | u :: units' =>
      lo <= SemanticUnit.startPosition u
      /\ SemanticUnit.startPosition u < SemanticUnit.endPosition u
      /\ SemanticUnit.startPosition u + len (SemanticUnit.content u)
         <= SemanticUnit.endPosition u
      /\ Placed (SemanticUnit.endPosition u) units' hi
  end.

(** The invariant of the loop of [splitLargeUnit] on the unit [whole], with
    the sentences still to come. *)
Definition PiecesInv (whole : SemanticUnit.t) (st : SplitState)
    (rest : list jsstring) : Prop :=
  Laid (SemanticUnit.startPosition whole) (splitUnits st) (startPos st)
  /\ (startPos st - SemanticUnit.startPosition whole)
     + len (currentContent st) + Z.of_nat (cost rest)
     <= len (SemanticUnit.content whole) + 1
  /\ (currentContent st = [] ->
      splitUnits st = [] /\ startPos st = SemanticUnit.startPosition whole).

(** ** The loop of [createChunks] *)

(** The state of [createChunks] and the grouping that goes with it. *)
Definition Sim (st : Assembly) (g : Grouping) : Prop :=
  chunks st = buildFrom 0 (closed g)
  /\ currentChunk st = running g
  /\ currentTokenCount st = sumTokens (running g)
  /\ chunkIndex st = Z.of_nat (List.length (closed g)).

Definition Suffix (l D : list SemanticUnit.t) : Prop := exists pre, D = pre ++ l.

Definition Segment (l D : list SemanticUnit.t) : Prop :=
  exists pre post, D = pre ++ l ++ post.

(** Every group is a run of the units pushed so far. *)
Definition GSeg (D : list SemanticUnit.t) (g : Grouping) : Prop :=
  Suffix (running g) D
  /\ Forall (fun grp => grp <> [] /\ Segment grp D) (closed g).

(** The units one step of the loop pushes. *)
Definition expand (options : ChunkingOptions) (unit : SemanticUnit.t)
    : list SemanticUnit.t :=
  if SemanticUnit.tokenCount unit >? maxTokens options
  then splitLargeUnit unit (maxTokens options)
  else [unit].

(** The token count a group can reach when no pushed unit has more than [m]
    tokens. *)
Definition budget (options : ChunkingOptions) (m : Z) : Z :=
  Z.max 0 (maxTokens options) + Z.max 0 (overlapTokens options) + m.

Definition Small (m : Z) (l : list SemanticUnit.t) : Prop :=
  Forall (fun u => SemanticUnit.tokenCount u <= m) l.

Definition GBound (options : ChunkingOptions) (m : Z) (g : Grouping) : Prop :=
  Small m (running g)
  /\ sumTokens (running g) <= budget options m
  /\ Forall (fun grp => sumTokens grp <= budget options m) (closed g).

(** [next] starts with the overlap of [prev] and goes on with new units. *)
Definition Overlapped (options : ChunkingOptions)
    (prev next : list SemanticUnit.t) : Prop :=
  exists rest,
    rest <> []
    /\ next = createOverlap prev (overlapTokens options) ++ rest.

Inductive Chained (options : ChunkingOptions)
    : list (list SemanticUnit.t) -> Prop :=
| Chained_nil : Chained options []
| Chained_one g : Chained options [g]
| Chained_cons g g' l :
    Overlapped options g g' -> Chained options (g' :: l) ->
    Chained options (g :: g' :: l).

Arguments Chained_nil {options}.
Arguments Chained_one {options} g.
Arguments Chained_cons {options} g g' l _ _.

(** The running chunk is empty only before the first unit. *)
Definition GChain (options : ChunkingOptions) (g : Grouping) : Prop :=
  Chained options (closed g ++ [running g])
  /\ (running g = [] -> closed g = []).

(** ** Ink: the characters that are no white space *)

(** Some character of [s] is no white space. *)
Definition hasInk (s : jsstring) : bool :=
  existsb (fun c => negb (isWhiteSpace c)) s.

(** The last character of [s] is no white space. *)
Definition EndsInk (s : jsstring) : Prop :=
  exists s' c, s = s' ++ [c] /\ isWhiteSpace c = false.

(** The first character of [s] is no white space. *)
Definition StartsInk (s : jsstring) : Prop :=
  exists c r, s = c :: r /\ isWhiteSpace c = false.

(** What [trim] leaves of a text that is not blank. *)
Definition Trimmed (s : jsstring) : Prop := StartsInk s /\ EndsInk s.

(** A pattern that matches white space only. *)
Definition MatchesBlanks (m : option N -> jsstring -> option (nat * jsstring))
    : Prop :=
  forall prev s n r,
    m prev s = Some (n, r) -> forallb isWhiteSpace (firstn n s) = true.

(** A pattern whose replacement ends with a character that is no white
    space. *)
Definition WritesInk (m : option N -> jsstring -> option (nat * jsstring))
    : Prop :=
  forall prev s n r, m prev s = Some (n, r) -> EndsInk r.

(** Every unit has a content that starts and ends with ink. *)
Definition Inked (units : list SemanticUnit.t) : Prop :=
  Forall (fun u => Trimmed (SemanticUnit.content u)) units.

(** ** Units and pieces *)

(** A unit as [splitIntoSemanticUnits] makes it: its content is trimmed and
    not empty, its token count is the estimate of its content, and its type
    is not [other]. *)
Definition UnitOk (u : SemanticUnit.t) : Prop :=
  Trimmed (SemanticUnit.content u)
  /\ SemanticUnit.tokenCount u = estimateTokenCount (SemanticUnit.content u)
  /\ SemanticUnit.type u <> other.

(** Two more than the length of every piece, summed. *)
Definition cost2 (l : list jsstring) : nat :=
  list_sum (map (fun q => 2 + List.length q)%nat l).

(** The estimates of the sentences, summed. *)
Definition sumEstimates (sentences : list jsstring) : Z :=
  fold_right Z.add 0 (map estimateTokenCount sentences).

(** A piece of [splitLargeUnit]: it has the type of the unit and a trimmed
    content, and it is within [maxTokens] unless it is one sentence. *)
Definition PieceOk (unit : SemanticUnit.t) (maxTokens : Z)
    (sentences : list jsstring) (p : SemanticUnit.t) : Prop :=
  SemanticUnit.type p = SemanticUnit.type unit
  /\ Trimmed (SemanticUnit.content p)
  /\ (SemanticUnit.tokenCount p <= maxTokens
      \/ exists s, In s sentences
                   /\ SemanticUnit.content p = trim s
                   /\ SemanticUnit.tokenCount p = estimateTokenCount s).

(** The invariant of the loop of [splitLargeUnit] on the token counts,
    [seen] being the sentences the loop has gone through. *)
Definition TokensInv (unit : SemanticUnit.t) (maxTokens : Z)
    (seen : list jsstring) (st : SplitState) : Prop :=
  sumTokens (splitUnits st) + currentTokens st = sumEstimates seen
  /\ Forall (PieceOk unit maxTokens seen) (splitUnits st)
  /\ ((currentContent st = [] /\ currentTokens st = 0 /\ seen = [])
      \/ (hasInk (currentContent st) = true
          /\ (currentTokens st <= maxTokens
              \/ exists s, In s seen
                           /\ currentContent st = s
                           /\ currentTokens st = estimateTokenCount s))).


(** The token counts of the chunks, summed. *)
Definition totalTokens (chunks : list DocumentChunk.t) : Z :=
  fold_right Z.add 0 (map DocumentChunk.tokenCount chunks).

(** The filter that ends [createChunks]. *)
Definition kept (options : ChunkingOptions) (assembled : list DocumentChunk.t)
    (chunk : DocumentChunk.t) : bool :=
  ((DocumentChunk.tokenCount chunk >=? minChunkSize options)
   || Nat.eqb (List.length assembled) 1)%bool.

Definition byIndex (a b : DocumentChunk.t) : Prop :=
  DocumentChunk.index a < DocumentChunk.index b.

(** ** The progress records of [processDocument]

    The three records it builds after the first one, for a buffer of
    [fileSize] bytes, a text of [textLength] characters and [chunkCount]
    chunks. *)





End Invariants.

(** * Proofs *)

(** ** Laws of the effects *)

Module EffectsFacts.
Import JS Types Effects.

Lemma bind_Ret {A B} l (a : A) (f : A -> M B) :
  bind (l, Ret a) f = (l ++ events (f a), outcome (f a)).
Proof. unfold bind, events, outcome. destruct (f a); reflexivity. Qed.

Lemma bind_ret {A B} (a : A) (f : A -> M B) : bind ([], Ret a) f = f a.
Proof. rewrite bind_Ret. destruct (f a); reflexivity. Qed.

Lemma bind_Throw {A B} l x (f : A -> M B) : bind (l, Throw x) f = (l, Throw x).
Proof. reflexivity. Qed.

Lemma tryCatch_Ret {A} l (a : A) h : tryCatch (l, Ret a) h = (l, Ret a).
Proof. reflexivity. Qed.

Lemma tryCatch_Throw {A} l x (h : Thrown -> M A) :
  tryCatch (l, Throw x) h = (l ++ events (h x), outcome (h x)).
Proof. unfold tryCatch, events, outcome. destruct (h x); reflexivity. Qed.

Lemma tryCatch_throw {A} x (h : Thrown -> M A) : tryCatch ([], Throw x) h = h x.
Proof. rewrite tryCatch_Throw. destruct (h x); reflexivity. Qed.

Lemma M_eta {A} (m : M A) : m = (events m, outcome m).
Proof. destruct m; reflexivity. Qed.


End EffectsFacts.

(** ** What the extraction service returns and throws *)

Module ExtractionFacts.
Import JS Types Effects Extraction EffectsFacts Invariants.

Ltac eff :=
  unfold lift, ret, throw, throwError, emit;
  repeat (first
            [ rewrite bind_ret | rewrite bind_Throw | rewrite tryCatch_Ret
            | rewrite tryCatch_throw | rewrite bind_Ret
            | rewrite tryCatch_Throw ];
          cbn [events outcome fst snd app]);
  cbn [events outcome fst snd app].

(** A [catch] clause that takes the text of what it caught leaves no event
    while it does. *)
Lemma describe_events {A} x (k : jsstring -> M A) :
  (forall msg, events (k msg) = []) ->
  events (bind (lift (messageOf x)) k) = [].
Proof.
  intros H. unfold lift.
  destruct (messageOf x); [rewrite bind_ret; apply H | reflexivity].
Qed.

Lemma describe_text {A} x msg (k : jsstring -> M A) :
  messageOf x = Ret msg -> bind (lift (messageOf x)) k = k msg.
Proof. intros ->. unfold lift. apply bind_ret. Qed.

Lemma tryCatch_events_nil {A} (m : M A) h :
  events m = [] -> (forall x, events (h x) = []) -> events (tryCatch m h) = [].
Proof.
  destruct m as [l [a | x]]; cbn [events fst]; intros ->; [reflexivity |].
  intros H. rewrite tryCatch_throw. apply H.
Qed.

Lemma tryCatch_wraps {A} (m : M A) h :
  (forall x, outcome m = Throw x -> throwsOnlyProcessingErrors (h x)) ->
  throwsOnlyProcessingErrors (tryCatch m h).
Proof.
  unfold throwsOnlyProcessingErrors.
  destruct m as [l [a | x]]; cbn [outcome snd]; intros H; [exact I |].
  rewrite tryCatch_Throw. cbn [outcome snd]. apply H. reflexivity.
Qed.

Lemma processing_error_described e : Describable (ThrownProcessingError e).
Proof. eexists. reflexivity. Qed.

Section WithEnv.
Context (env : Env).

(** [detectFileType] leaves no event. *)
Lemma detectFileType_events buffer filename :
  events (detectFileType env buffer filename) = [].
Proof.
  unfold detectFileType. apply tryCatch_events_nil.
  - destruct (fileTypeFromBuffer env buffer) as [d | x]; eff; [| reflexivity].
    destruct (match d with Some mime => typeOfMime mime | None => None end);
      eff; [reflexivity |].
    destruct (typeOfExtension _); reflexivity.
  - intros x. apply describe_events. reflexivity.
Qed.

(** When its [catch] clause can take the text of what it caught,
    [detectFileType] throws the error of that clause and no other. *)
Lemma detectFileType_cases buffer filename :
  (forall x, fileTypeFromBuffer env buffer = Throw x -> Describable x) ->
  (exists t, detectFileType env buffer filename = ([], Ret t))
  \/ (exists msg, detectFileType env buffer filename
        = ([], Throw (ThrownProcessingError
             (createError (str "FILE_TYPE_DETECTION_FAILED")
                (str "Failed to detect file type: " ++ msg)
                (Some [("filename"%string, DString filename)]))))).
Proof.
  intros Hthrown. unfold detectFileType.
  destruct (fileTypeFromBuffer env buffer) as [d | x]; eff.
  - destruct (match d with Some mime => typeOfMime mime | None => None end);
      eff.
    + left; eauto.
    + destruct (typeOfExtension _); eff; [left; eauto | right].
      cbn [messageOf]. eff. eexists. reflexivity.
  - right. destruct (Hthrown x eq_refl) as [msg Hmsg].
    rewrite Hmsg. eff. exists msg. reflexivity.
Qed.

Lemma detectFileType_unresolved buffer filename d :
  fileTypeFromBuffer env buffer = Ret d ->
  match d with Some mime => typeOfMime mime | None => None end = None ->
  typeOfExtension (lastPart (toLowerCase filename)) = None ->
  detectFileType env buffer filename
  = ([], Throw (ThrownProcessingError
       (createError (str "FILE_TYPE_DETECTION_FAILED")
          (str "Failed to detect file type: "
           ++ str "Cannot determine file type for " ++ filename)
          (Some [("filename"%string, DString filename)])))).
Proof.
  intros Hd Hm He. unfold detectFileType. rewrite Hd. eff.
  rewrite Hm, He. eff. cbn [messageOf]. eff. reflexivity.
Qed.

(** The four extractors leave no event. *)
Lemma extractor_events buffer (t : SupportedFileType) :
  events (extractorOf env t buffer) = [].
Proof.
  destruct t; cbn [extractorOf];
    try (apply tryCatch_events_nil;
         [| intros x; apply describe_events; reflexivity]).
  - unfold extractFromPDF. destruct (pdfParse env buffer); reflexivity.
  - destruct (extractRawText env buffer); reflexivity.
  - destruct (extractRawText env buffer); reflexivity.
  - destruct (decodeUtf8 env buffer); reflexivity.
  - reflexivity.
Qed.

(** [extractText] is entered once, whatever becomes of it. *)
Lemma extractText_events buffer filename :
  events (extractText env buffer filename) = [EvExtractText buffer filename].
Proof.
  unfold extractText. eff. f_equal.
  apply tryCatch_events_nil.
  - rewrite (M_eta (detectFileType env buffer filename)), detectFileType_events.
    destruct (outcome (detectFileType env buffer filename)) as [t | x];
      [| reflexivity].
    rewrite bind_ret. exact (extractor_events buffer t).
  - intros x. unfold rethrow. destruct (isProcessingError x); [reflexivity |].
    apply describe_events. reflexivity.
Qed.

(** [validateFile] enters [extractText] once when the buffer is neither
    empty nor above 100 MB and [detectFileType] returns, and never
    otherwise. *)
Lemma validateFile_events buffer filename :
  events (validateFile env buffer filename)
  = match outcome (detectFileType env buffer filename) with
    | Ret _ =>
        if ((byteLength buffer =? 0)
            || (byteLength buffer >? 100 * 1024 * 1024))%bool
        then [] else [EvExtractText buffer filename]
    | Throw _ => []
    end.
Proof.
  unfold validateFile.
  rewrite (M_eta (detectFileType env buffer filename)), detectFileType_events.
  destruct (outcome (detectFileType env buffer filename)) as [t | x].
  - rewrite bind_ret.
    destruct (byteLength buffer =? 0);
      destruct (byteLength buffer >? 100 * 1024 * 1024);
      cbn [app orb]; eff; try reflexivity.
    rewrite (M_eta (extractText env buffer filename)), extractText_events.
    destruct (outcome (extractText env buffer filename)) as [a | y]; eff;
      [reflexivity |].
    destruct (messageOf y) as [msg | z]; eff; [reflexivity |].
    destruct (messageOf z); eff; reflexivity.
  - rewrite bind_Throw, tryCatch_throw. apply describe_events. reflexivity.
Qed.

(** A buffer that is empty or above 100 MB is not valid. *)
Lemma validateFile_sizes buffer filename l v :
  validateFile env buffer filename = (l, Ret v) ->
  byteLength buffer = 0 \/ 100 * 1024 * 1024 < byteLength buffer ->
  valid v = false.
Proof.
  unfold validateFile.
  rewrite (M_eta (detectFileType env buffer filename)), detectFileType_events.
  intros H Hsize.
  assert (Hb : ((byteLength buffer =? 0)
                || (byteLength buffer >? 100 * 1024 * 1024))%bool = true).
  { apply orb_true_iff. destruct Hsize; [left | right]; lia. }
  destruct (outcome (detectFileType env buffer filename)) as [t | x].
  - rewrite bind_ret in H. apply orb_true_iff in Hb.
    destruct (byteLength buffer =? 0);
      destruct (byteLength buffer >? 100 * 1024 * 1024);
      cbn [app] in H; unfold ret in H;
      try (rewrite bind_ret, tryCatch_Ret in H; inversion H; reflexivity).
    destruct Hb; discriminate.
  - rewrite bind_Throw, tryCatch_throw in H. unfold lift, ret in H.
    destruct (messageOf x); [| discriminate].
    rewrite bind_ret in H. inversion H. reflexivity.
Qed.

Section Described.
Hypothesis Hthrown : DescribableThrows env.


Lemma extractor_throws buffer (t : SupportedFileType) :
  throwsOnlyProcessingErrors (extractorOf env t buffer).
Proof.
  destruct Hthrown as (_ & Hpdf & Hword).
  assert (Hwrap : forall x code prefix,
            Describable x ->
            throwsOnlyProcessingErrors
              (bind (lift (messageOf x))
                 (fun msg => throwError (A := Extracted) code (prefix ++ msg)
                               (originalError msg)))).
  { intros x code prefix [msg Hmsg]. rewrite (describe_text _ _ _ Hmsg).
    unfold throwsOnlyProcessingErrors. cbn. eauto. }
  destruct t; cbn [extractorOf]; try (apply tryCatch_wraps; intros x Hx).
  - apply Hwrap, (Hpdf buffer). destruct (pdfParse env buffer); [discriminate |].
    cbn in Hx. congruence.
  - apply Hwrap, (Hword buffer).
    destruct (extractRawText env buffer); [discriminate |]. cbn in Hx. congruence.
  - apply Hwrap, (Hword buffer).
    destruct (extractRawText env buffer); [discriminate |]. cbn in Hx. congruence.
  - apply Hwrap. destruct (decodeUtf8 env buffer); [| discriminate].
    cbn in Hx. inversion Hx. eexists. reflexivity.
  - exact I.
Qed.



End Described.

End WithEnv.
End ExtractionFacts.

(** ** The orchestrator: C2, C3 and C4 *)

Module ProcessorFacts.
Import JS Types Effects Processor EffectsFacts ExtractionFacts Invariants.

Lemma updateProgress_returns (cb : Callback) p :
  (forall f, cb = Some f -> f p = None) ->
  updateProgress cb p = (delivered cb p, Ret tt).
Proof.
  intros H. unfold updateProgress, delivered. destruct cb as [f |]; [| reflexivity].
  rewrite (H f eq_refl). reflexivity.
Qed.

Lemma not_in_delivered_extract cb p b f :
  ~ In (EvExtractText b f) (delivered cb p).
Proof. destruct cb; cbn; intuition discriminate. Qed.

Lemma not_in_delivered_chunk cb p t :
  ~ In (EvChunkDocument t) (delivered cb p).
Proof. destruct cb; cbn; intuition discriminate. Qed.

(** *** What the [catch] clause of [processDocument] can report *)







Section WithEnv.
Context (env : Extraction.Env).



(** C3, amended.  When [validateFile] answers that the file is not valid and
    the callback returns normally, [processDocument] reports that it is
    validating the file, then the stage [failed] with the error
    [VALIDATION_FAILED], and returns the failure with that error.  The
    chunker is never called, and the orchestrator never calls the
    extractor.  The validator calls the extractor itself, once and to see
    whether the file can be read, exactly when the buffer is not empty, not
    above the size limit, and [detectFileType] returns a type for it; in
    every other case the extractor is not called at all. *)
Theorem C3_failed_validation_stops_the_pipeline
    (this : ChunkingOptions) (startTime endTime : Z) (buffer : Buffer)
    (filename : jsstring) (onProgress : Callback)
    (probe : list Event) (validation : Extraction.FileCheck) :
  Extraction.validateFile env buffer filename = (probe, Ret validation) ->
  Extraction.valid validation = false ->
  (forall f p, onProgress = Some f -> f p = None) ->
  let e := validationFailed (Extraction.errors validation) in
  let run := processDocument env this startTime endTime buffer filename
               onProgress in
  code e = str "VALIDATION_FAILED"
  /\ run = (delivered onProgress validatingProgress ++ probe
            ++ delivered onProgress (failedProgress e),
            Ret (failureResult e (endTime - startTime)))
  /\ (forall text, ~ In (EvChunkDocument text) (events run))
  /\ (forall b f, In (EvExtractText b f) (events run) ->
      In (EvExtractText b f) probe)
  /\ (probe = [] \/ probe = [EvExtractText buffer filename])
  /\ (probe = [EvExtractText buffer filename]
      <-> 0 < byteLength buffer <= 100 * 1024 * 1024
          /\ exists t,
               outcome (Extraction.detectFileType env buffer filename) = Ret t).
Proof.
  intros Hv Hinvalid Hcb e run.
  assert (Hrun : run = (delivered onProgress validatingProgress ++ probe
                        ++ delivered onProgress (failedProgress e),
                        Ret (failureResult e (endTime - startTime)))).
  { unfold run, processDocument.
    rewrite updateProgress_returns by (intros f Hf; apply (Hcb f _ Hf)).
    rewrite bind_Ret, Hv, bind_Ret. cbn [events outcome fst snd].
    rewrite Hinvalid. unfold throw. rewrite bind_Throw.
    cbn [events outcome fst snd]. rewrite app_nil_r, tryCatch_Throw.
    cbn [processedErrorOf]. unfold lift. rewrite bind_ret.
    rewrite updateProgress_returns by (intros f Hf; apply (Hcb f _ Hf)).
    rewrite bind_Ret. cbn [events outcome fst snd ret].
    rewrite app_nil_r, <- app_assoc. reflexivity. }
  pose proof (validateFile_events env buffer filename) as Hprobe.
  rewrite Hv in Hprobe. cbn [events fst] in Hprobe.
  assert (Hlen : 0 <= byteLength buffer) by (unfold byteLength; lia).
  split; [reflexivity |]. split; [exact Hrun |].
  rewrite Hrun. cbn [events fst].
  split; [| split; [| split]].
  - intros text Hin. rewrite !in_app_iff in Hin.
    destruct Hin as [Hin | [Hin | Hin]].
    + exact (not_in_delivered_chunk _ _ _ Hin).
    + rewrite Hprobe in Hin.
      destruct (outcome _); [destruct (_ || _)%bool |];
        cbn in Hin; intuition discriminate.
    + exact (not_in_delivered_chunk _ _ _ Hin).
  - intros b f Hin. rewrite !in_app_iff in Hin.
    destruct Hin as [Hin | [Hin | Hin]]; [| exact Hin |];
      destruct (not_in_delivered_extract _ _ _ _ Hin).
  - rewrite Hprobe.
    destruct (outcome _); [destruct (_ || _)%bool |]; auto.
  - rewrite Hprobe.
    destruct (outcome (Extraction.detectFileType env buffer filename))
      as [t | x].
    + destruct (byteLength buffer =? 0) eqn:E0;
        destruct (byteLength buffer >? 100 * 1024 * 1024) eqn:E1;
        cbn [orb]; split;
        try discriminate;
        try (intros [Hsize _]; lia);
        intros _; split; [lia | eauto].
    + split; [discriminate | intros [_ [t Ht]]; discriminate].
Qed.

(** C4, what the code does.  When the sniffed type maps to no supported type
    and the extension of the file name is none of the five, [extractText]
    throws a processing error whose code is [FILE_TYPE_DETECTION_FAILED]:
    the [UNKNOWN_FILE_TYPE] error that [detectFileType] creates is caught by
    its own [catch] clause, which wraps every error, and only the message
    of the first survives in the message of the second. *)
Theorem C4_unresolved_type_is_reported_as_detection_failure
    (buffer : Buffer) (filename : jsstring) (detected : option jsstring) :
  Extraction.fileTypeFromBuffer env buffer = Ret detected ->
  match detected with
  | Some mime => Extraction.typeOfMime mime
  | None => None
  end = None ->
  Extraction.typeOfExtension (lastPart (toLowerCase filename)) = None ->
  exists e,
    outcome (Extraction.extractText env buffer filename)
    = Throw (ThrownProcessingError e)
    /\ code e = str "FILE_TYPE_DETECTION_FAILED"
    /\ message e = str "Failed to detect file type: "
                   ++ str "Cannot determine file type for " ++ filename.
Proof.
  intros Hd Hm He. unfold Extraction.extractText.
  rewrite (detectFileType_unresolved env buffer filename detected Hd Hm He).
  eff. cbn [Extraction.rethrow isProcessingError]. eff.
  eexists. split; [reflexivity |]. split; reflexivity.
Qed.

End WithEnv.

(** What the libraries of the examples throw can be described. *)
Lemma samples_described : DescribableThrows Samples.env.
Proof.
  repeat split; intros buffer x H; cbn in H.
  - unfold Samples.sniff in H.
    destruct (FileValidation.matchesSignature buffer Samples.pngSignature);
      [discriminate |].
    destruct (FileValidation.matchesSignature buffer (bytes "%PDF"));
      discriminate.
  - inversion H. eexists. reflexivity.
  - inversion H. eexists. reflexivity.
Qed.


(** C3 fails for a one-byte buffer named [a.pdf]: validation fails because
    the text cannot be extracted, which the validator found out by calling
    [extractText]. *)
Lemma C3_counterexample_probe_runs_extraction :
  let buffer := bytes "x" in
  let filename := str "a.pdf" in
  (exists probe validation,
     Extraction.validateFile Samples.env buffer filename = (probe, Ret validation)
     /\ Extraction.valid validation = false)
  /\ In (EvExtractText buffer filename)
        (events (processDocument Samples.env DEFAULT_CHUNKING_OPTIONS 0 1
                   buffer filename None)).
Proof.
  cbv zeta. split.
  - eexists _, _. split; vm_compute; reflexivity.
  - vm_compute. left. reflexivity.
Qed.


(** The runs of C3 on three files that are not valid: the one byte named
    [a.pdf], which the validator probes; five bytes of plain text named
    [notes.xyz], of unknown type, and the empty buffer, which it does not
    probe. *)
Lemma C3_witness_probed_and_not_probed :
  let run buffer filename :=
    processDocument Samples.env DEFAULT_CHUNKING_OPTIONS 0 1 buffer filename
      None in
  (exists e,
     code e = str "VALIDATION_FAILED"
     /\ run (bytes "x") (str "a.pdf")
        = ([EvExtractText (bytes "x") (str "a.pdf")], Ret (failureResult e 1)))
  /\ (exists e,
        code e = str "VALIDATION_FAILED"
        /\ run (bytes "hello") (str "notes.xyz") = ([], Ret (failureResult e 1)))
  /\ (exists e,
        code e = str "VALIDATION_FAILED"
        /\ run [] (str "empty.txt") = ([], Ret (failureResult e 1))).
Proof.
  cbv zeta.
  assert (Hquiet : forall f p,
            @None (ProcessingProgress -> option Thrown) = Some f -> f p = None)
    by (intros f p H; discriminate H).
  split; [| split].
  - destruct (C3_failed_validation_stops_the_pipeline Samples.env
                DEFAULT_CHUNKING_OPTIONS 0 1 (bytes "x") (str "a.pdf") None
                [EvExtractText (bytes "x") (str "a.pdf")] _
                eq_refl eq_refl Hquiet)
      as (Hcode & Hrun & _).
    eexists. split; [exact Hcode | exact Hrun].
  - destruct (C3_failed_validation_stops_the_pipeline Samples.env
                DEFAULT_CHUNKING_OPTIONS 0 1 (bytes "hello") (str "notes.xyz")
                None [] _ eq_refl eq_refl Hquiet)
      as (Hcode & Hrun & _).
    eexists. split; [exact Hcode | exact Hrun].
  - destruct (C3_failed_validation_stops_the_pipeline Samples.env
                DEFAULT_CHUNKING_OPTIONS 0 1 [] (str "empty.txt")
                None [] _ eq_refl eq_refl Hquiet)
      as (Hcode & Hrun & _).
    eexists. split; [exact Hcode | exact Hrun].
Defined.

(** The run of C4 on five bytes of plain text named [notes.xyz]. *)
Lemma C4_witness_plain_text_named_xyz :
  exists e,
    outcome (Extraction.extractText Samples.env (bytes "hello") (str "notes.xyz"))
    = Throw (ThrownProcessingError e)
    /\ code e = str "FILE_TYPE_DETECTION_FAILED"
    /\ message e = str "Failed to detect file type: "
                   ++ str "Cannot determine file type for " ++ str "notes.xyz".
Proof.
  apply (C4_unresolved_type_is_reported_as_detection_failure Samples.env
           (bytes "hello") (str "notes.xyz") None); reflexivity.
Defined.

End ProcessorFacts.

(** ** The upload validator: C1 *)

Module FileValidationFacts.
Import JS Types FileValidation.

Lemma expected_mime_is_expected (t : SupportedFileType) :
  existsb (streq (hd [] (MIME_TYPE_MAP t))) (MIME_TYPE_MAP t) = true.
Proof. destruct t; vm_compute; reflexivity. Qed.

Lemma lookupMimeTypes_own ext t :
  Extraction.typeOfExtension ext = Some t ->
  lookupMimeTypes ext = OwnEntry (MIME_TYPE_MAP t).
Proof. unfold lookupMimeTypes. intros ->. reflexivity. Qed.

Section WithLibraries.
Context (fileTypeFromBuffer : Buffer -> Outcome (option jsstring))
        (decodeUtf8 : Buffer -> jsstring).

(** C1, amended.  With strict MIME checking (the default), a buffer that is
    not empty and an extension of a supported type, when the sniffed MIME
    type is not among those expected for the extension: if the pair is one
    [isLikelyMislabeled] knows, [validateFile] records the error that the
    content does not match the extension, and the file is not valid; for
    any other pair it records one more warning and nothing else changes,
    the errors and the verdict being those of the run in which the sniffed
    type is the expected one. *)
Theorem C1_mime_disagreement_error_or_warning
    (file : FileArg) (filename : option jsstring)
    (options : option ValidationOptions)
    (ext mime : jsstring) (t : SupportedFileType) :
  strictMimeOf options = true ->
  bufferOf file <> [] ->
  getFileExtension (nameOf file filename) = Some ext ->
  Extraction.typeOfExtension ext = Some t ->
  fileTypeFromBuffer (bufferOf file) = Ret (Some mime) ->
  existsb (streq mime) (MIME_TYPE_MAP t) = false ->
  exists r r0,
    validateFile fileTypeFromBuffer decodeUtf8 file filename options = Ret r
    /\ validateFile (agreeing t) decodeUtf8 file filename options = Ret r0
    /\ if isLikelyMislabeled mime ext
       then In (ContentDoesNotMatchExtension mime ext) (errors r)
            /\ valid r = false
       else warnings r = ContentTypeDiffers mime ext :: warnings r0
            /\ errors r = errors r0
            /\ valid r = valid r0.
Proof.
  intros Hstrict Hbuf Hext Ht Hsniff Hdis.
  assert (Hlen : (0 <? byteLength (bufferOf file)) = true).
  { unfold byteLength. destruct (bufferOf file); [congruence |].
    apply Z.ltb_lt. cbn [List.length]. lia. }
  assert (Hr0 : checkMimeType (agreeing t) (bufferOf file) (Some ext) true
                = Ret ([], [])).
  { unfold checkMimeType, agreeing. rewrite Hlen, (lookupMimeTypes_own _ _ Ht).
    rewrite expected_mime_is_expected. reflexivity. }
  assert (Hr : checkMimeType fileTypeFromBuffer (bufferOf file) (Some ext) true
               = Ret (if isLikelyMislabeled mime ext
                      then ([ContentDoesNotMatchExtension mime ext], [])
                      else ([], [ContentTypeDiffers mime ext]))).
  { unfold checkMimeType. rewrite Hlen, Hsniff, (lookupMimeTypes_own _ _ Ht), Hdis.
    cbn [negb]. destruct (isLikelyMislabeled mime ext); reflexivity. }
  unfold validateFile. rewrite Hstrict, Hext, Hr, Hr0.
  destruct (isLikelyMislabeled mime ext);
    eexists _, _; (split; [reflexivity |]); (split; [reflexivity |]).
  - cbv zeta. cbn [errors valid].
    match goal with
    | |- In ?m ?l /\ _ =>
        assert (Hin : In m l)
          by (rewrite !in_app_iff; cbn [In]; left; left; right; left; reflexivity)
    end.
    split; [exact Hin |].
    match type of Hin with
    | In _ ?l => destruct l; [destruct Hin | reflexivity]
    end.
  - cbv zeta. cbn [errors valid warnings app]. rewrite !app_nil_r.
    repeat split; reflexivity.
Qed.

End WithLibraries.

(** C1 fails for a PNG image named [a.txt]: the pair is none of the
    mislabelling patterns, and the file is valid, with the warning that the
    content type differs (and the one that a text file holds binary
    data). *)
Lemma C1_counterexample_png_named_txt :
  exists r,
    validateFile Samples.sniff Samples.decodeUtf8
      (OfBuffer Samples.onePixelPng) (Some (str "a.txt")) None = Ret r
    /\ Samples.sniff Samples.onePixelPng = Ret (Some (str "image/png"))
    /\ existsb (streq (str "image/png")) (MIME_TYPE_MAP txt) = false
    /\ isLikelyMislabeled (str "image/png") (str "txt") = false
    /\ errors r = []
    /\ valid r = true
    /\ warnings r = [ContentTypeDiffers (str "image/png") (str "txt");
                     MayContainBinaryData].
Proof. eexists. repeat split; vm_compute; reflexivity. Qed.

(** The run of C1 on the PNG image named [a.txt]. *)
Lemma C1_witness_png_named_txt :
  let file := OfBuffer Samples.onePixelPng in
  let name := Some (str "a.txt") in
  exists r r0,
    validateFile Samples.sniff Samples.decodeUtf8 file name None = Ret r
    /\ validateFile (agreeing txt) Samples.decodeUtf8 file name None = Ret r0
    /\ warnings r = ContentTypeDiffers (str "image/png") (str "txt") :: warnings r0
    /\ errors r = errors r0
    /\ valid r = valid r0.
Proof.
  cbv zeta.
  apply (C1_mime_disagreement_error_or_warning Samples.sniff
           Samples.decodeUtf8 (OfBuffer Samples.onePixelPng)
           (Some (str "a.txt")) None (str "txt") (str "image/png") txt);
    try reflexivity.
  discriminate.
Defined.

End FileValidationFacts.

(** ** Rounding to binary64 *)

Module F64Facts.
Import F64.
Local Open Scope Z_scope.

Lemma two_neq_0 : ~ (2 == 0)%Q.
Proof. discriminate. Qed.

Lemma pow2_pos z : (0 < 2 ^ z)%Q.
Proof. apply Qpower_0_lt. reflexivity. Qed.

Lemma pow2_add a b : (2 ^ (a + b) == 2 ^ a * 2 ^ b)%Q.
Proof. apply Qpower_plus, two_neq_0. Qed.

Lemma pow2_le a b : a <= b -> (2 ^ a <= 2 ^ b)%Q.
Proof. intros H. apply Qpower_le_compat_l; [exact H | discriminate]. Qed.

Lemma pow2_lt a b : a < b -> (2 ^ a < 2 ^ b)%Q.
Proof. intros H. apply Qpower_lt_compat_l; [exact H | reflexivity]. Qed.

Lemma pow2_Z a : 0 <= a -> (inject_Z (2 ^ a) == 2 ^ a)%Q.
Proof. intros H. apply (Zpower_Qpower 2 a H). Qed.

(** *** [halfEven] *)

Lemma halfEven_bounds x : Qfloor x <= halfEven x <= Qfloor x + 1.
Proof.
  unfold halfEven. cbv zeta.
  destruct (Qcompare _ _); [destruct (Z.even _) | |]; lia.
Qed.

Lemma halfEven_mono x y : (x <= y)%Q -> halfEven x <= halfEven y.
Proof.
  intros H. pose proof (Qfloor_resp_le _ _ H) as Hf.
  destruct (Z.eq_dec (Qfloor x) (Qfloor y)) as [E | E].
  - unfold halfEven. cbv zeta. rewrite <- E.
    assert (Hr : (x - inject_Z (Qfloor x) <= y - inject_Z (Qfloor x))%Q).
    { apply Qplus_le_l with (z := inject_Z (Qfloor x)). ring_simplify. exact H. }
    destruct (Qcompare (x - inject_Z (Qfloor x)) (1 # 2)) eqn:Cx;
      destruct (Qcompare (y - inject_Z (Qfloor x)) (1 # 2)) eqn:Cy;
      try (destruct (Z.even (Qfloor x))); try lia; exfalso;
      repeat match goal with
      | H : Qcompare _ _ = Eq |- _ => apply Qeq_alt in H
      | H : Qcompare _ _ = Lt |- _ => apply Qlt_alt in H
      | H : Qcompare _ _ = Gt |- _ => apply Qgt_alt in H
      end;
      try rewrite Cx in Hr; try rewrite Cy in Hr;
      apply (Qlt_irrefl (1 # 2));
      first [ exact (Qle_lt_trans _ _ _ Hr Cy)
            | exact (Qlt_le_trans _ _ _ Cx Hr)
            | exact (Qlt_trans _ _ _ (Qlt_le_trans _ _ _ Cx Hr) Cy) ].
  - pose proof (halfEven_bounds x). pose proof (halfEven_bounds y). lia.
Qed.

Lemma halfEven_Z x z : (x == inject_Z z)%Q -> halfEven x = z.
Proof.
  intros H. unfold halfEven. cbv zeta.
  assert (Hf : Qfloor x = z) by (rewrite H; apply Qfloor_Z).
  rewrite Hf.
  assert (Hc : Qcompare (x - inject_Z z) (1 # 2) = Lt).
  { rewrite <- Qlt_alt, H. unfold Qminus. rewrite Qplus_opp_r. reflexivity. }
  rewrite Hc. reflexivity.
Qed.


(** *** The exponent *)

Lemma Q_as_quotient x : (x * inject_Z (Zpos (Qden x)) == inject_Z (Qnum x))%Q.
Proof.
  destruct x as [n d]. unfold Qeq, Qmult, inject_Z. cbn [Qnum Qden].
  rewrite Pos.mul_1_r. ring.
Qed.

Lemma log2_bounds n :
  0 < n -> (2 ^ Z.log2 n <= inject_Z n /\ inject_Z n < 2 ^ (Z.log2 n + 1))%Q.
Proof.
  intros H. pose proof (Z.log2_spec n H) as [L U].
  pose proof (Z.log2_nonneg n) as P.
  rewrite <- !pow2_Z by lia. rewrite <- Zle_Qle, <- Zlt_Qlt.
  replace (Z.succ (Z.log2 n)) with (Z.log2 n + 1) in U by lia. auto.
Qed.

Lemma pow2_unique x p q :
  (2 ^ p <= x)%Q -> (x < 2 ^ (p + 1))%Q ->
  (2 ^ q <= x)%Q -> (x < 2 ^ (q + 1))%Q -> p = q.
Proof.
  intros Lp Up Lq Uq.
  destruct (Z_lt_le_dec p q) as [H | H].
  - exfalso. apply (Qlt_irrefl x).
    eapply Qlt_le_trans; [exact Up |].
    eapply Qle_trans; [| exact Lq]. apply pow2_le. lia.
  - destruct (Z_lt_le_dec q p) as [H' | H']; [| lia].
    exfalso. apply (Qlt_irrefl x).
    eapply Qlt_le_trans; [exact Uq |].
    eapply Qle_trans; [| exact Lp]. apply pow2_le. lia.
Qed.

Lemma lastBit_spec x :
  (0 < x)%Q ->
  (2 ^ (lastBit x + 52) <= x)%Q /\ (x < 2 ^ (lastBit x + 52 + 1))%Q.
Proof.
  intros Hx. unfold lastBit. cbv zeta.
  set (n := Qnum x). set (d := Zpos (Qden x)).
  set (l := Z.log2 n - Z.log2 d).
  assert (Hn : 0 < n).
  { unfold n. destruct x as [xn xd]. unfold Qlt in Hx. cbn in *. lia. }
  assert (Hd : 0 < d) by (unfold d; lia).
  destruct (log2_bounds n Hn) as [Ln Un].
  destruct (log2_bounds d Hd) as [Ld Ud].
  pose proof (Q_as_quotient x) as Hq. fold n d in Hq.
  assert (Hup : (x < 2 ^ (l + 1))%Q).
  { apply Qmult_lt_r with (z := (2 ^ Z.log2 d)%Q); [apply pow2_pos |].
    rewrite <- pow2_add. replace (l + 1 + Z.log2 d) with (Z.log2 n + 1) by (unfold l; lia).
    eapply Qle_lt_trans; [| exact Un]. rewrite <- Hq.
    apply Qmult_le_l; [exact Hx | exact Ld]. }
  assert (Hlow : (2 ^ (l - 1) < x)%Q).
  { apply Qmult_lt_r with (z := (2 ^ (Z.log2 d + 1))%Q); [apply pow2_pos |].
    rewrite <- pow2_add. replace (l - 1 + (Z.log2 d + 1)) with (Z.log2 n) by (unfold l; lia).
    eapply Qle_lt_trans; [exact Ln |]. rewrite <- Hq.
    apply Qmult_lt_l; [exact Hx | exact Ud]. }
  destruct (Qle_bool (2 ^ l) x) eqn:E.
  - apply Qle_bool_iff in E.
    replace (l - 52 + 52) with l by lia. split; assumption.
  - replace (l - 1 - 52 + 52) with (l - 1) by lia.
    replace (l - 1 + 1) with l by lia.
    split; [apply Qlt_le_weak; exact Hlow |].
    apply Qnot_le_lt. intros H. apply Qle_bool_iff in H. congruence.
Qed.

Lemma lastBit_mono x y : (0 < x)%Q -> (x <= y)%Q -> lastBit x <= lastBit y.
Proof.
  intros Hx Hxy.
  assert (Hy : (0 < y)%Q) by (eapply Qlt_le_trans; eauto).
  destruct (lastBit_spec x Hx) as [Lx Ux].
  destruct (lastBit_spec y Hy) as [Ly Uy].
  destruct (Z_lt_le_dec (lastBit y) (lastBit x)) as [H | H]; [| exact H].
  exfalso. apply (Qlt_irrefl y).
  eapply Qlt_le_trans; [exact Uy |].
  eapply Qle_trans; [| exact Hxy].
  eapply Qle_trans; [| exact Lx]. apply pow2_le. lia.
Qed.

(** The number scaled to its last bit has 53 bits. *)
Lemma scaled_bounds x :
  (0 < x)%Q ->
  (inject_Z (2 ^ 52) <= x / 2 ^ lastBit x)%Q
  /\ (x / 2 ^ lastBit x < inject_Z (2 ^ 53))%Q.
Proof.
  intros Hx. destruct (lastBit_spec x Hx) as [L U].
  rewrite !pow2_Z by lia. split.
  - apply Qle_shift_div_l; [apply pow2_pos |].
    rewrite <- pow2_add. rewrite Z.add_comm. exact L.
  - apply Qlt_shift_div_r; [apply pow2_pos |].
    rewrite <- pow2_add. replace (53 + lastBit x) with (lastBit x + 52 + 1) by lia.
    exact U.
Qed.

Lemma halfEven_scaled x :
  (0 < x)%Q -> 2 ^ 52 <= halfEven (x / 2 ^ lastBit x) <= 2 ^ 53.
Proof.
  intros Hx. destruct (scaled_bounds x Hx) as [L U].
  pose proof (halfEven_bounds (x / 2 ^ lastBit x)) as [B1 B2].
  apply Qfloor_resp_le in L. rewrite Qfloor_Z in L.
  assert (Qfloor (x / 2 ^ lastBit x) < 2 ^ 53).
  { apply Z.lt_nge. intros H. apply (Qlt_irrefl (inject_Z (2 ^ 53))).
    eapply Qle_lt_trans; [| exact U].
    eapply Qle_trans; [| apply Qfloor_le]. rewrite <- Zle_Qle. exact H. }
  lia.
Qed.

Lemma nearest_pos x : (0 < x)%Q -> (0 < nearest x)%Q.
Proof.
  intros Hx. unfold nearest. cbv zeta.
  pose proof (halfEven_scaled x Hx) as [L _].
  apply Qmult_lt_0_compat; [| apply pow2_pos].
  change 0%Q with (inject_Z 0). rewrite <- Zlt_Qlt. lia.
Qed.

Lemma nearest_mono x y : (0 < x)%Q -> (x <= y)%Q -> (nearest x <= nearest y)%Q.
Proof.
  intros Hx Hxy.
  assert (Hy : (0 < y)%Q) by (eapply Qlt_le_trans; eauto).
  pose proof (lastBit_mono x y Hx Hxy) as He.
  unfold nearest. cbv zeta.
  destruct (Z.eq_dec (lastBit x) (lastBit y)) as [E | E].
  - rewrite <- E. apply Qmult_le_r; [apply pow2_pos |].
    rewrite <- Zle_Qle. apply halfEven_mono.
    apply Qmult_le_r; [apply Qinv_lt_0_compat, pow2_pos | exact Hxy].
  - pose proof (halfEven_scaled x Hx) as [_ Ux].
    pose proof (halfEven_scaled y Hy) as [Ly _].
    apply Qle_trans with (y := (inject_Z (2 ^ 53) * 2 ^ lastBit x)%Q).
    { apply Qmult_le_r; [apply pow2_pos |]. rewrite <- Zle_Qle. exact Ux. }
    apply Qle_trans with (y := (inject_Z (2 ^ 52) * 2 ^ lastBit y)%Q).
    { rewrite !pow2_Z by lia. rewrite <- !pow2_add. apply pow2_le. lia. }
    apply Qmult_le_r; [apply pow2_pos |]. rewrite <- Zle_Qle. exact Ly.
Qed.

(** *** Rounding looks at the value of the fraction only *)

Lemma lastBit_comp x y : (0 < x)%Q -> (x == y)%Q -> lastBit x = lastBit y.
Proof.
  intros Hx E.
  assert (Hy : (0 < y)%Q) by (rewrite <- E; exact Hx).
  destruct (lastBit_spec x Hx) as [Lx Ux].
  destruct (lastBit_spec y Hy) as [Ly Uy].
  assert (Ly' : (2 ^ (lastBit y + 52) <= x)%Q).
  { eapply Qle_trans; [exact Ly |]. apply Qle_lteq. right. symmetry. exact E. }
  assert (Uy' : (x < 2 ^ (lastBit y + 52 + 1))%Q).
  { eapply Qle_lt_trans; [| exact Uy]. apply Qle_lteq. right. exact E. }
  pose proof (pow2_unique x _ _ Lx Ux Ly' Uy'). lia.
Qed.

Lemma halfEven_comp x y : (x == y)%Q -> halfEven x = halfEven y.
Proof.
  intros E. apply Z.le_antisymm; apply halfEven_mono; rewrite E; apply Qle_refl.
Qed.

Lemma nearest_comp x y : (0 < x)%Q -> (x == y)%Q -> (nearest x == nearest y)%Q.
Proof.
  intros Hx E. unfold nearest. cbv zeta.
  rewrite <- (lastBit_comp x y Hx E).
  rewrite (halfEven_comp (x / 2 ^ lastBit x) (y / 2 ^ lastBit x)).
  - reflexivity.
  - unfold Qdiv. apply Qmult_comp; [exact E | reflexivity].
Qed.

(** *** Rounding is monotone, and exact on the numbers of 53 bits *)

Lemma rn_cases x :
  ((x == 0 /\ rn x == 0)
   \/ (0 < x /\ rn x == nearest x)
   \/ (x < 0 /\ rn x == - nearest (- x)))%Q.
Proof.
  unfold rn. rewrite Qred_correct.
  destruct (Qcompare x 0) eqn:C.
  - left. apply Qeq_alt in C. split; [exact C | reflexivity].
  - right; right. apply Qlt_alt in C. split; [exact C | reflexivity].
  - right; left. apply Qgt_alt in C. split; [exact C | reflexivity].
Qed.

Lemma opp_pos x : (x < 0)%Q -> (0 < - x)%Q.
Proof. intros H. apply Qopp_lt_compat in H. exact H. Qed.

Lemma opp_neg x : (0 < x)%Q -> (- x < 0)%Q.
Proof. intros H. apply Qopp_lt_compat in H. exact H. Qed.

Theorem rn_mono x y : (x <= y)%Q -> (rn x <= rn y)%Q.
Proof.
  intros H.
  destruct (rn_cases x) as [[Hx Rx] | [[Hx Rx] | [Hx Rx]]];
    destruct (rn_cases y) as [[Hy Ry] | [[Hy Ry] | [Hy Ry]]];
    rewrite Rx, Ry.
  - apply Qle_refl.
  - apply Qlt_le_weak, nearest_pos, Hy.
  - exfalso. rewrite Hx in H. exact (Qlt_irrefl _ (Qle_lt_trans _ _ _ H Hy)).
  - exfalso. rewrite Hy in H. exact (Qlt_irrefl _ (Qlt_le_trans _ _ _ Hx H)).
  - apply nearest_mono; assumption.
  - exfalso. apply (Qlt_irrefl 0).
    eapply Qlt_trans; [exact Hx |]. eapply Qle_lt_trans; eauto.
  - apply Qlt_le_weak, opp_neg, nearest_pos, opp_pos, Hx.
  - apply Qle_trans with (y := 0%Q).
    + apply Qlt_le_weak, opp_neg, nearest_pos, opp_pos, Hx.
    + apply Qlt_le_weak, nearest_pos, Hy.
  - apply Qopp_le_compat. apply nearest_mono; [apply opp_pos, Hy |].
    apply Qopp_le_compat. exact H.
Qed.

Lemma nearest_exact m k :
  0 < m < 2 ^ 53 ->
  (nearest (inject_Z m * 2 ^ k) == inject_Z m * 2 ^ k)%Q.
Proof.
  intros [Hm Hb].
  remember (inject_Z m * 2 ^ k)%Q as x eqn:Ex.
  assert (Hx : (0 < x)%Q).
  { rewrite Ex. apply Qmult_lt_0_compat; [| apply pow2_pos].
    change 0%Q with (inject_Z 0). rewrite <- Zlt_Qlt. exact Hm. }
  destruct (lastBit_spec x Hx) as [L U].
  destruct (log2_bounds m Hm) as [Lm Um].
  assert (Ha : Z.log2 m < 53) by (apply Z.log2_lt_pow2; lia).
  pose proof (Z.log2_nonneg m) as Ha0.
  assert (He : lastBit x + 52 = Z.log2 m + k).
  { apply (pow2_unique x); try assumption; rewrite Ex.
    - rewrite pow2_add. apply Qmult_le_r; [apply pow2_pos | exact Lm].
    - replace (Z.log2 m + k + 1) with (Z.log2 m + 1 + k) by lia.
      rewrite pow2_add. apply Qmult_lt_r; [apply pow2_pos | exact Um]. }
  assert (Hk : (2 ^ k == 2 ^ (52 - Z.log2 m) * 2 ^ lastBit x)%Q).
  { rewrite <- pow2_add. replace (52 - Z.log2 m + lastBit x) with k by lia.
    reflexivity. }
  pose proof (Qpower_not_0 2 (lastBit x) two_neq_0) as P.
  assert (Hs : (x / 2 ^ lastBit x == inject_Z (m * 2 ^ (52 - Z.log2 m)))%Q).
  { rewrite inject_Z_mult, pow2_Z by lia. rewrite Ex at 1. rewrite Hk.
    set (p := (2 ^ lastBit x)%Q) in *. set (q := (2 ^ (52 - Z.log2 m))%Q).
    field. exact P. }
  unfold nearest. cbv zeta.
  rewrite (halfEven_Z _ _ Hs).
  rewrite inject_Z_mult, pow2_Z by lia. rewrite Ex at 2. rewrite Hk.
  ring.
Qed.

Theorem rn_comp x y : (x == y)%Q -> rn x = rn y.
Proof.
  intros E. apply Qred_complete.
  destruct (rn_cases x) as [[Hx Rx] | [[Hx Rx] | [Hx Rx]]];
    destruct (rn_cases y) as [[Hy Ry] | [[Hy Ry] | [Hy Ry]]];
    unfold rn in Rx, Ry; rewrite Qred_correct in Rx, Ry; rewrite Rx, Ry;
    try reflexivity; try (exfalso; rewrite E in Hx;
      first [ rewrite Hx in Hy; exact (Qlt_irrefl _ Hy)
            | rewrite Hy in Hx; exact (Qlt_irrefl _ Hx)
            | exact (Qlt_irrefl _ (Qlt_trans _ _ _ Hx Hy))
            | exact (Qlt_irrefl _ (Qlt_trans _ _ _ Hy Hx)) ]).
  - apply nearest_comp; assumption.
  - apply Qopp_comp. apply nearest_comp; [apply opp_pos, Hx |].
    rewrite E. reflexivity.
Qed.

Theorem rn_exact m k :
  Z.abs m < 2 ^ 53 -> (rn (inject_Z m * 2 ^ k) == inject_Z m * 2 ^ k)%Q.
Proof.
  intros Hm.
  destruct (rn_cases (inject_Z m * 2 ^ k)) as [[Hx Rx] | [[Hx Rx] | [Hx Rx]]];
    rewrite Rx.
  - symmetry. exact Hx.
  - apply nearest_exact. split; [| lia].
    apply Z.lt_nge. intros H.
    apply (Qlt_irrefl 0). eapply Qlt_le_trans; [exact Hx |].
    rewrite <- (Qmult_0_l (2 ^ k)). apply Qmult_le_r; [apply pow2_pos |].
    change 0%Q with (inject_Z 0). rewrite <- Zle_Qle. lia.
  - assert (Hneg : m < 0).
    { apply Z.lt_nge. intros H.
      apply (Qlt_irrefl 0). eapply Qle_lt_trans; [| exact Hx].
      apply Qmult_le_0_compat; [| apply Qlt_le_weak, pow2_pos].
      change 0%Q with (inject_Z 0). rewrite <- Zle_Qle. exact H. }
    assert (E : (- (inject_Z m * 2 ^ k) == inject_Z (- m) * 2 ^ k)%Q).
    { rewrite inject_Z_opp. ring. }
    rewrite (nearest_comp _ _ (opp_pos _ Hx) E).
    rewrite nearest_exact by lia. rewrite inject_Z_opp. ring.
Qed.

(** A number that is a fraction of 53 bits is left as it is. *)
Corollary rn_dyadic x m k :
  (x == inject_Z m * 2 ^ k)%Q -> Z.abs m < 2 ^ 53 -> (rn x == x)%Q.
Proof.
  intros E H. rewrite (rn_comp _ _ E), rn_exact by exact H. symmetry. exact E.
Qed.

Corollary rn_Z n : Z.abs n < 2 ^ 53 -> (rn (inject_Z n) == inject_Z n)%Q.
Proof.
  intros H. apply (rn_dyadic _ n 0); [| exact H].
  change (2 ^ 0)%Q with 1%Q. ring.
Qed.

End F64Facts.

(** ** The status endpoint: C9 *)

Module StatusRouteFacts.
Import JS Types Effects StatusRoute F64Facts.

Lemma Qgtb_min95 x c :
  (inject_Z c < 95)%Q -> Qgtb (Qmin 95 x) (inject_Z c) = Qgtb x (inject_Z c).
Proof.
  intros Hc. unfold Qgtb, Qmin. f_equal.
  destruct (Qle_bool 95 x) eqn:E; [| reflexivity].
  apply Qle_bool_iff in E.
  transitivity false.
  - apply not_true_is_false. intros H. apply Qle_bool_iff in H.
    apply (Qlt_irrefl 95). eapply Qle_lt_trans; eauto.
  - symmetry. apply not_true_is_false. intros H. apply Qle_bool_iff in H.
    apply (Qlt_irrefl 95). eapply Qle_lt_trans; [| exact Hc].
    eapply Qle_trans; eauto.
Qed.

Lemma Qgtb_true x c : (c < x)%Q -> Qgtb x c = true.
Proof.
  intros H. unfold Qgtb. apply negb_true_iff, not_true_is_false.
  intros L. apply Qle_bool_iff in L. exact (Qlt_irrefl _ (Qlt_le_trans _ _ _ H L)).
Qed.

Lemma Qgtb_false x c : (x <= c)%Q -> Qgtb x c = false.
Proof.
  intros H. unfold Qgtb. apply negb_false_iff, Qle_bool_iff, H.
Qed.

Lemma Qmax_comp a x y : (x == y)%Q -> (Qmax a x == Qmax a y)%Q.
Proof.
  intros E. unfold Qmax. rewrite (Qleb_comp a a (Qeq_refl a) x y E).
  destruct (Qle_bool a y); [exact E | reflexivity].
Qed.

Lemma estimate_at_least_10 x : 10 <= Qceiling (Qmax 10 x).
Proof.
  unfold Qmax. destruct (Qle_bool 10 x) eqn:E.
  - apply Qle_bool_iff in E. apply Qceiling_resp_le in E. exact E.
  - reflexivity.
Qed.

Lemma multiplierOf_table :
  multiplierOf (str "pdf") = Num 3%Q /\ multiplierOf (str "docx") = Num 2%Q
  /\ multiplierOf (str "doc") = Num (5 # 2)%Q
  /\ multiplierOf (str "txt") = Num 1%Q
  /\ multiplierOf (str "rtf") = Num (3 # 2)%Q.
Proof. repeat split; reflexivity. Qed.

Lemma multiplierOf_default fileType :
  existsb (streq fileType)
          [str "pdf"; str "docx"; str "doc"; str "txt"; str "rtf"] = false ->
  existsb (streq fileType) objectPrototypeKeys = false ->
  multiplierOf fileType = Num 2%Q.
Proof.
  cbn [existsb]. rewrite !orb_false_iff.
  intros (H1 & H2 & H3 & H4 & H5 & _) Hkeys.
  unfold multiplierOf, timePerMB. rewrite H1, H2, H3, H4, H5, Hkeys.
  reflexivity.
Qed.

(** A rate is a whole number of halves, six at most. *)
Lemma multiplierOf_halves fileType rate :
  multiplierOf fileType = Num rate ->
  exists h, 0 < h <= 6 /\ (rate == inject_Z h * 2 ^ (-1))%Q.
Proof.
  unfold multiplierOf, timePerMB.
  repeat match goal with
         | |- context [if ?c then _ else _] => destruct c
         end;
    intros H; inversion H; subst rate;
    [exists 6 | exists 4 | exists 5 | exists 2 | exists 3 | exists 4];
    (split; [lia | reflexivity]).
Qed.

(** *** The estimate is computed exactly below [2^50] bytes *)

Lemma sizeInMB_exact size :
  0 <= size < 2 ^ 50 -> (sizeInMB size == inject_Z size * 2 ^ (-20))%Q.
Proof.
  intros Hs. unfold sizeInMB. cbv zeta.
  assert (H1 : (F64.rn (inject_Z size) / inject_Z (1024 * 1024)
                == inject_Z size * 2 ^ (-20))%Q).
  { rewrite rn_Z by lia. reflexivity. }
  apply (rn_dyadic _ size (-20)) in H1; [| lia].
  rewrite H1. rewrite rn_Z by lia. reflexivity.
Qed.

Lemma product_exact size h rate :
  0 <= size < 2 ^ 50 -> 0 < h <= 6 -> (rate == inject_Z h * 2 ^ (-1))%Q ->
  (F64.rn (sizeInMB size * rate)
   == inject_Z size / inject_Z (1024 * 1024) * rate)%Q.
Proof.
  intros Hs Hh Hr.
  assert (H1 : (sizeInMB size * rate == inject_Z (size * h) * 2 ^ (-21))%Q).
  { rewrite (sizeInMB_exact size Hs), Hr, inject_Z_mult.
    change (2 ^ (-21))%Q with (2 ^ (-20) * 2 ^ (-1))%Q. ring. }
  rewrite (rn_dyadic _ _ _ H1) by nia.
  rewrite (sizeInMB_exact size Hs). reflexivity.
Qed.

Lemma estimate_exact size fileType rate :
  0 <= size < 2 ^ 50 -> multiplierOf fileType = Num rate ->
  estimateProcessingTime size fileType
  = Num (Qceiling (Qmax 10 (inject_Z size / inject_Z (1024 * 1024) * rate))).
Proof.
  intros Hs Hr. unfold estimateProcessingTime. rewrite Hr. cbv zeta.
  destruct (multiplierOf_halves _ _ Hr) as (h & Hh & Hrate).
  f_equal. apply Qceiling_comp, Qmax_comp, (product_exact size h rate Hs Hh Hrate).
Qed.

Lemma estimate_bounded size h rate :
  0 <= size < 2 ^ 50 -> 0 < h <= 6 -> (rate == inject_Z h * 2 ^ (-1))%Q ->
  Qceiling (Qmax 10 (inject_Z size / inject_Z (1024 * 1024) * rate)) <= 2 ^ 40.
Proof.
  intros Hs Hh Hr.
  rewrite <- (Qceiling_Z (2 ^ 40)). apply Qceiling_resp_le.
  unfold Qmax. destruct (Qle_bool 10 _); [| discriminate].
  rewrite Hr. change (2 ^ (-1))%Q with (1 # 2)%Q.
  assert (Hp : 0 <= size * h <= 6 * 2 ^ 50) by nia.
  unfold Qle, Qdiv, Qmult, Qinv, inject_Z. cbn [Qnum Qden].
  change (Z.pos (1 * 2)) with 2. cbn. lia.
Qed.

(** *** The thresholds of the stage *)

(** The percentage exceeds the threshold [c] exactly when the elapsed
    seconds exceed [c] percent of the estimate: [lo] is the binary64
    number nearest to [c / 100], which the rounded product with 100 takes
    to [c] at most, and [hi] a binary64 number that it takes above [c],
    below every quotient of whole numbers above [c / 100] whose divisor is
    [2^40] at most. *)
Lemma percentage_threshold (c : Z) (hi : Q) :
  (F64.rn (F64.rn (inject_Z c / 100) * 100) <= inject_Z c)%Q ->
  (F64.rn hi == hi)%Q ->
  (inject_Z c < F64.rn (hi * 100))%Q ->
  (hi <= inject_Z c / 100 + (1 # 109951162777600))%Q ->
  forall elapsed total,
    0 < total <= 2 ^ 40 ->
    Qgtb (F64.rn (F64.rn (inject_Z elapsed / inject_Z total) * 100))
         (inject_Z c)
    = (c * total <? 100 * elapsed).
Proof.
  intros Hlo Hhi Habove Hgap elapsed total Ht.
  assert (Htq : (0 < inject_Z total)%Q).
  { change 0%Q with (inject_Z 0). rewrite <- Zlt_Qlt. lia. }
  destruct (c * total <? 100 * elapsed) eqn:E.
  - apply Z.ltb_lt in E. apply Qgtb_true.
    eapply Qlt_le_trans; [exact Habove |]. apply rn_mono.
    apply Qmult_le_r; [reflexivity |].
    rewrite <- Hhi. apply rn_mono.
    eapply Qle_trans; [exact Hgap |].
    apply Qle_shift_div_l; [exact Htq |].
    destruct total as [| t |]; try lia.
    unfold Qle, Qdiv, Qmult, Qplus, Qinv, inject_Z. cbn [Qnum Qden].
    rewrite ?Pos.mul_1_l, ?Pos.mul_1_r, ?Z.mul_1_l, ?Z.mul_1_r.
    change (Z.pos (109951162777600 * 100)) with (100 * 2 ^ 40 * 100).
    change (Z.pos (100 * 109951162777600)) with (100 * 2 ^ 40 * 100).
    change (Z.pos 109951162777600) with (100 * 2 ^ 40).
    change (Z.pos 100) with 100.
    change (2 ^ 40) with 1099511627776 in *. nia.
  - apply Z.ltb_ge in E. apply Qgtb_false.
    eapply Qle_trans; [| exact Hlo]. apply rn_mono.
    apply Qmult_le_r; [reflexivity |]. apply rn_mono.
    apply Qle_shift_div_r; [exact Htq |].
    destruct total as [| t |]; try lia.
    unfold Qle, Qdiv, Qmult, Qinv, inject_Z. cbn [Qnum Qden].
    nia.
Qed.

Lemma threshold_30 elapsed total :
  0 < total <= 2 ^ 40 ->
  Qgtb (F64.rn (F64.rn (inject_Z elapsed / inject_Z total) * 100)) 30
  = (30 * total <? 100 * elapsed).
Proof.
  apply (percentage_threshold 30
           (5404319552844596 # 18014398509481984));
    vm_compute; solve [reflexivity | discriminate].
Qed.

Lemma threshold_60 elapsed total :
  0 < total <= 2 ^ 40 ->
  Qgtb (F64.rn (F64.rn (inject_Z elapsed / inject_Z total) * 100)) 60
  = (60 * total <? 100 * elapsed).
Proof.
  apply (percentage_threshold 60
           (5404319552844596 # 9007199254740992));
    vm_compute; solve [reflexivity | discriminate].
Qed.

(** *** The elapsed seconds are whole seconds, rounded down *)

Lemma Qfloor_between x k :
  (inject_Z k <= x)%Q -> (x < inject_Z (k + 1))%Q -> Qfloor x = k.
Proof.
  intros L U. apply Z.le_antisymm.
  - assert (Qfloor x < k + 1); [| lia].
    rewrite Zlt_Qlt. eapply Qle_lt_trans; [apply Qfloor_le | exact U].
  - rewrite <- (Qfloor_Z k). apply Qfloor_resp_le, L.
Qed.

Lemma elapsedSeconds_exact now document :
  Z.abs (now - startTimeOf document) < 2 ^ 50 ->
  elapsedSecondsAt now document = (now - startTimeOf document) / 1000.
Proof.
  intros Hms. unfold elapsedSecondsAt. cbv zeta.
  set (ms := now - startTimeOf document) in *.
  set (k := ms / 1000).
  assert (Hk : 1000 * k <= ms < 1000 * k + 1000).
  { unfold k. pose proof (Z.div_mod ms 1000 ltac:(lia)).
    pose proof (Z.mod_pos_bound ms 1000 ltac:(lia)). lia. }
  assert (H1 : (F64.rn (inject_Z now - inject_Z (startTimeOf document)) / 1000
                == inject_Z ms / 1000)%Q).
  { rewrite (rn_comp _ (inject_Z ms))
      by (unfold ms, Qminus; rewrite <- inject_Z_opp, <- inject_Z_plus;
          reflexivity).
    rewrite rn_Z by lia. reflexivity. }
  rewrite (rn_comp _ _ H1).
  apply Qfloor_between.
  - rewrite <- (rn_Z k) by lia. apply rn_mono.
    apply Qle_shift_div_l; [reflexivity |].
    unfold Qle, Qmult, inject_Z. cbn [Qnum Qden]. lia.
  - apply Qle_lt_trans
      with (y := F64.rn (inject_Z ((k + 1) * 1024 - 1) * 2 ^ (-10))).
    + apply rn_mono. apply Qle_shift_div_r; [reflexivity |].
      change (2 ^ (-10))%Q with (1 # 1024)%Q.
      unfold Qle, Qmult, inject_Z. cbn [Qnum Qden].
      rewrite ?Pos.mul_1_l, ?Z.mul_1_r. lia.
    + rewrite rn_exact by lia.
      change (2 ^ (-10))%Q with (1 # 1024)%Q.
      unfold Qlt, Qmult, inject_Z. cbn [Qnum Qden].
      rewrite ?Pos.mul_1_l, ?Z.mul_1_r. lia.
Qed.

(** C9, amended.  For a document in the processing state, of a size below
    [2^50] bytes and of a type with a rate, the estimated total time is
    [max(10, sizeInMB * rate)] rounded up to a whole number of seconds, so
    at least 10, and the stage is [analyzing] when the elapsed seconds
    exceed 60 percent of that estimate, [chunking] when they exceed 30
    percent of it and [extracting] otherwise.  The elapsed seconds are the
    milliseconds since the start in whole seconds, rounded down.  The rate
    is 3 for pdf, 2 for docx, 2.5 for doc, 1 for txt, 1.5 for rtf, and 2
    for any other type that is no name of a property of
    [Object.prototype]. *)
Theorem C9_estimate_is_rounded_up_and_stage_thresholds
    (now : Z) (document : Document) (rate : Q) :
  status document = PROCESSING ->
  multiplierOf (fileType document) = Num rate ->
  0 <= fileSize document < 2 ^ 50 ->
  let total :=
    Qceiling (Qmax 10 (inject_Z (fileSize document) / inject_Z (1024 * 1024)
                       * rate)) in
  let elapsedSeconds := elapsedSecondsAt now document in
  estimateProcessingTime (fileSize document) (fileType document) = Num total
  /\ 10 <= total
  /\ stage (mapDocumentStatusToProgress now document)
     = stageOf elapsedSeconds total
  /\ (Z.abs (now - startTimeOf document) < 2 ^ 50 ->
      elapsedSeconds = (now - startTimeOf document) / 1000)
  /\ (multiplierOf (str "pdf") = Num 3 /\ multiplierOf (str "docx") = Num 2
      /\ multiplierOf (str "doc") = Num (5 # 2)
      /\ multiplierOf (str "txt") = Num 1
      /\ multiplierOf (str "rtf") = Num (3 # 2))%Q
  /\ (forall other,
        existsb (streq other)
                [str "pdf"; str "docx"; str "doc"; str "txt"; str "rtf"]
        = false ->
        existsb (streq other) objectPrototypeKeys = false ->
        multiplierOf other = Num 2%Q).
Proof.
  intros Hs Hrate Hsize total elapsedSeconds.
  pose proof (estimate_exact _ _ _ Hsize Hrate) as He. fold total in He.
  pose proof (estimate_at_least_10
                (inject_Z (fileSize document) / inject_Z (1024 * 1024) * rate))
    as H10.
  fold total in H10.
  destruct (multiplierOf_halves _ _ Hrate) as (h & Hh & Hhalves).
  pose proof (estimate_bounded _ h rate Hsize Hh Hhalves) as Hmax.
  fold total in Hmax.
  split; [exact He |]. split; [exact H10 |].
  split; [| split; [exact (elapsedSeconds_exact now document) |
                    split; [exact multiplierOf_table
                           | exact multiplierOf_default]]].
  unfold mapDocumentStatusToProgress. rewrite Hs. cbv zeta.
  fold elapsedSeconds. rewrite He.
  unfold progressPercentage.
  change 30%Q with (inject_Z 30). change 60%Q with (inject_Z 60).
  rewrite !Qgtb_min95 by reflexivity.
  change (inject_Z 30) with 30%Q. change (inject_Z 60) with 60%Q.
  rewrite threshold_30, threshold_60 by lia.
  unfold stageOf.
  destruct (30 * total <? 100 * elapsedSeconds) eqn:E30;
    destruct (60 * total <? 100 * elapsedSeconds) eqn:E60; reflexivity.
Qed.

(** C9 fails for a PDF of three and a half megabytes: the maximum is ten and
    a half seconds, the estimate is 11. *)
Lemma C9_counterexample_estimate_is_rounded_up :
  let size := 3670016 in
  multiplierOf (str "pdf") = Num 3%Q
  /\ estimateProcessingTime size (str "pdf") = Num 11
  /\ (Qmax 10 (inject_Z size / inject_Z (1024 * 1024) * 3) == 21 # 2)%Q.
Proof. cbv zeta. repeat split; vm_compute; reflexivity. Qed.

(** The estimate and the stage of that PDF after four seconds. *)
Lemma C9_witness_document_in_processing :
  let document := Samples.processingDocument in
  estimateProcessingTime (fileSize document) (fileType document) = Num 11
  /\ elapsedSecondsAt 5000 document = 4
  /\ stage (mapDocumentStatusToProgress 5000 document) = chunking.
Proof.
  cbv zeta.
  destruct (C9_estimate_is_rounded_up_and_stage_thresholds 5000
              Samples.processingDocument 3%Q eq_refl eq_refl)
    as (Htotal & _ & Hstage & Helapsed & _).
  { vm_compute. split; [discriminate | reflexivity]. }
  split; [exact Htotal |].
  split; [apply Helapsed; vm_compute; reflexivity |].
  rewrite Hstage. vm_compute. reflexivity.
Defined.

End StatusRouteFacts.

(** ** Strings: trimming, markers and sentences *)

Module StringFacts.
Import JS Types Chunking Invariants.

(** *** [trim] *)

Lemma trimStart_length s : (List.length (trimStart s) <= List.length s)%nat.
Proof.
  induction s as [| c s IH]; [reflexivity |].
  cbn [trimStart]. destruct (isWhiteSpace c); cbn [List.length]; lia.
Qed.

Lemma rev'_rev {A} (l : list A) : rev' l = rev l.
Proof. unfold rev'. symmetry. apply rev_alt. Qed.

Lemma trim_length s : (List.length (trim s) <= List.length s)%nat.
Proof.
  unfold trim, trimEnd. rewrite !rev'_rev, length_rev.
  etransitivity; [apply trimStart_length |].
  rewrite length_rev. apply trimStart_length.
Qed.

Lemma not_blank_length s : isBlank s = false -> (1 <= List.length s)%nat.
Proof.
  unfold isBlank. destruct s; [cbn; discriminate |]. cbn [List.length]. lia.
Qed.

Lemma not_blank_trim_length s :
  isBlank s = false -> (1 <= List.length (trim s))%nat.
Proof.
  unfold isBlank. destruct (trim s); [discriminate |]. cbn [List.length]. lia.
Qed.

(** *** [startsWith] *)

Lemma startsWith_app p a y :
  startsWith p (a ++ y) = true ->
  startsWith p a = true
  \/ ((List.length a < List.length p)%nat
      /\ startsWith (skipn (List.length a) p) y = true).
Proof.
  revert a. induction p as [| x p IH]; intros a H.
  - left. destruct a; reflexivity.
  - destruct a as [| c a].
    + right. cbn [List.length skipn app] in *. split; [lia | exact H].
    + cbn [app startsWith] in H. apply andb_true_iff in H. destruct H as [Hc H].
      destruct (IH a H) as [K | [K1 K2]].
      * left. cbn [startsWith]. rewrite Hc, K. reflexivity.
      * right. cbn [List.length skipn]. split; [lia | exact K2].
Qed.

Lemma startsWith_prefix p a y :
  startsWith p a = true -> startsWith p (a ++ y) = true.
Proof.
  revert a. induction p as [| x p IH]; intros a H; [reflexivity |].
  destruct a as [| c a]; [discriminate |].
  cbn [app startsWith] in *. apply andb_true_iff in H. destruct H as [Hc H].
  rewrite Hc, (IH a H). reflexivity.
Qed.

Lemma startsWith_split p s :
  startsWith p s = true -> s = p ++ skipn (List.length p) s.
Proof.
  revert s. induction p as [| x p IH]; intros s H; [reflexivity |].
  destruct s as [| c s]; [discriminate |].
  cbn [startsWith] in H. apply andb_true_iff in H. destruct H as [Hc H].
  apply N.eqb_eq in Hc. subst c. cbn [app List.length skipn]. f_equal.
  apply IH. exact H.
Qed.

(** *** Putting the dots back *)

Lemma replaceGo_reDotMarker skip prev s :
  replaceGo reDotMarker skip prev s = restoreGo skip s.
Proof.
  unfold restoreGo. destruct s as [| c s]; [reflexivity |].
  cbn [replaceGo]. destruct skip as [| k]; reflexivity.
Qed.

Lemma restoreGo_nil skip : restoreGo skip [] = [].
Proof. reflexivity. Qed.

Lemma restoreGo_skip c s k : restoreGo (S k) (c :: s) = restoreGo k s.
Proof.
  unfold restoreGo. cbn [replaceGo]. apply replaceGo_reDotMarker.
Qed.

Lemma restore_cons c s :
  restore (c :: s)
  = if startsWith dotMarker (c :: s) then 46%N :: restoreGo 6 s
    else c :: restore s.
Proof.
  unfold restore, restoreGo. cbn [replaceGo]. unfold reDotMarker at 1.
  change (List.length dotMarker) with 7%nat.
  destruct (startsWith dotMarker (c :: s)).
  - cbn [app]. f_equal. apply replaceGo_reDotMarker.
  - f_equal. apply replaceGo_reDotMarker.
Qed.

Lemma restoreGo_drop a b : restoreGo (List.length a) (a ++ b) = restore b.
Proof.
  induction a as [| c a IH]; [reflexivity |].
  cbn [List.length app]. rewrite restoreGo_skip. exact IH.
Qed.

Lemma restoreGo_skipn k s :
  (k <= List.length s)%nat -> restoreGo k s = restore (skipn k s).
Proof.
  intros H. rewrite <- (firstn_skipn k s) at 1.
  rewrite <- (restoreGo_drop (firstn k s) (skipn k s)).
  rewrite length_firstn, Nat.min_l by exact H. reflexivity.
Qed.

Lemma restore_length_le n s :
  (List.length s <= n)%nat -> (List.length (restore s) <= List.length s)%nat.
Proof.
  revert s. induction n as [| n IH]; intros s Hn.
  - destruct s; [reflexivity | cbn in Hn; lia].
  - destruct s as [| c s]; [reflexivity |].
    cbn [List.length] in Hn. rewrite restore_cons.
    destruct (startsWith dotMarker (c :: s)) eqn:E.
    + apply startsWith_split in E.
      change (List.length dotMarker) with 7%nat in E.
      assert (Hl : (7 <= List.length (c :: s))%nat).
      { rewrite E, length_app. change (List.length dotMarker) with 7%nat. lia. }
      cbn [List.length] in Hl.
      rewrite restoreGo_skipn by lia. cbn [List.length].
      specialize (IH (skipn 6 s)). rewrite length_skipn in IH. lia.
    + cbn [List.length]. specialize (IH s). lia.
Qed.

Lemma restore_length s : (List.length (restore s) <= List.length s)%nat.
Proof. apply (restore_length_le (List.length s)). reflexivity. Qed.

Lemma dotMarker_chars : dotMarker = [60; 33; 68; 79; 84; 33; 62]%N.
Proof. reflexivity. Qed.

Lemma startsWith_dotMarker_head c s :
  startsWith dotMarker (c :: s) = true -> c = 60%N.
Proof.
  rewrite dotMarker_chars. cbn [startsWith].
  intros H. apply andb_true_iff in H. destruct H as [H _].
  apply N.eqb_eq in H. symmetry. exact H.
Qed.

(** A text without [<] holds no marker. *)
Lemma restore_pass z b :
  forallb (fun c => negb (N.eqb c 60)) z = true ->
  restore (z ++ b) = z ++ restore b.
Proof.
  induction z as [| c z IH]; intros H; [reflexivity |].
  cbn [forallb] in H. apply andb_true_iff in H. destruct H as [Hc H].
  cbn [app]. rewrite restore_cons.
  destruct (startsWith dotMarker (c :: z ++ b)) eqn:E.
  - apply startsWith_dotMarker_head in E. subst c. discriminate.
  - rewrite (IH H). reflexivity.
Qed.

Lemma Clean_tail a1 a2 y : Clean (a1 ++ a2) y -> Clean a2 y.
Proof.
  intros H b1 b2 -> Hne. apply (H (a1 ++ b1) b2); [| exact Hne].
  rewrite app_assoc. reflexivity.
Qed.

Lemma restore_app_clean_le n a y :
  (List.length a <= n)%nat -> Clean a y ->
  restore (a ++ y) = restore a ++ restore y.
Proof.
  revert a. induction n as [| n IH]; intros a Hn Hc.
  - destruct a; [reflexivity | cbn in Hn; lia].
  - destruct a as [| c a]; [reflexivity |].
    cbn [List.length] in Hn. cbn [app]. rewrite !restore_cons.
    destruct (startsWith dotMarker (c :: a ++ y)) eqn:E.
    + assert (E' : startsWith dotMarker (c :: a) = true).
      { apply (Hc [] (c :: a)); [reflexivity | discriminate | exact E]. }
      rewrite E'. cbn [app]. f_equal.
      pose proof (startsWith_split _ _ E') as Hs.
      change (List.length dotMarker) with 7%nat in Hs.
      assert (Ha : a = firstn 6 a ++ skipn 6 a) by (symmetry; apply firstn_skipn).
      assert (Hl : (7 <= List.length (c :: a))%nat).
      { rewrite Hs, length_app. change (List.length dotMarker) with 7%nat. lia. }
      cbn [List.length] in Hl.
      assert (H6 : List.length (firstn 6 a) = 6%nat)
        by (rewrite length_firstn; lia).
      rewrite Ha at 1. rewrite <- app_assoc.
      rewrite <- H6 at 1. rewrite restoreGo_drop.
      rewrite (restoreGo_skipn 6 a) by lia.
      apply IH.
      * rewrite length_skipn. lia.
      * apply (Clean_tail (c :: firstn 6 a)). cbn [app]. rewrite <- Ha. exact Hc.
    + destruct (startsWith dotMarker (c :: a)) eqn:E'.
      * apply (startsWith_prefix _ _ y) in E'. cbn [app] in E'. congruence.
      * cbn [app]. f_equal. apply IH; [lia |].
        apply (Clean_tail [c]). exact Hc.
Qed.

Lemma restore_app_clean a y :
  Clean a y -> restore (a ++ y) = restore a ++ restore y.
Proof. apply (restore_app_clean_le (List.length a)). reflexivity. Qed.

(** What can follow a proper, non-empty prefix of the marker. *)
Lemma marker_tail_head k c y :
  (1 <= k < 7)%nat -> startsWith (skipn k dotMarker) (c :: y) = true ->
  (k = 1%nat /\ c = 33%N /\ startsWith [68%N] y = true)
  \/ (k = 5%nat /\ c = 33%N /\ startsWith [62%N] y = true)
  \/ (c <> 33%N /\ c <> 46%N /\ c <> 63%N /\ c <> 60%N).
Proof.
  intros Hk.
  destruct k as [| [| [| [| [| [| [| k]]]]]]]; try lia;
    rewrite dotMarker_chars; cbn [skipn startsWith];
    intros H; apply andb_true_iff in H; destruct H as [Hc H];
    apply N.eqb_eq in Hc; subst c.
  - left. split; [reflexivity |]. split; [reflexivity |].
    destruct y as [| d y]; [discriminate |].
    cbn [startsWith] in *. apply andb_true_iff in H. destruct H as [H _].
    rewrite H. reflexivity.
  - right; right. repeat split; discriminate.
  - right; right. repeat split; discriminate.
  - right; right. repeat split; discriminate.
  - right; left. split; [reflexivity |]. split; [reflexivity |].
    destruct y as [| d y]; [discriminate |].
    cbn [startsWith] in *. apply andb_true_iff in H. destruct H as [H _].
    rewrite H. reflexivity.
  - right; right. repeat split; discriminate.
Qed.

Lemma Clean_marker a b : Clean a (dotMarker ++ b).
Proof.
  intros a1 a2 _ Hne H.
  destruct (startsWith_app _ _ _ H) as [K | [K1 K2]]; [exact K |].
  exfalso. change (List.length dotMarker) with 7%nat in K1.
  assert (Hk : (1 <= List.length a2 < 7)%nat).
  { destruct a2; [congruence | cbn [List.length] in *; lia]. }
  change (dotMarker ++ b) with (60%N :: skipn 1 dotMarker ++ b) in K2.
  destruct (marker_tail_head _ _ _ Hk K2)
    as [(_ & K & _) | [(_ & K & _) | (_ & _ & _ & K)]];
    try discriminate K. apply K. reflexivity.
Qed.

(** Putting the dots back undoes one replacement. *)
Lemma restore_marker a b :
  restore (a ++ dotMarker ++ b) = restore a ++ [46%N] ++ restore b.
Proof.
  rewrite restore_app_clean by apply Clean_marker. f_equal.
  change (dotMarker ++ b) with (60%N :: skipn 1 dotMarker ++ b).
  rewrite restore_cons.
  change (60%N :: skipn 1 dotMarker ++ b) with (dotMarker ++ b).
  rewrite (startsWith_prefix dotMarker dotMarker b) by reflexivity.
  cbn [app]. f_equal.
  change (skipn 1 dotMarker ++ b) with (skipn 1 dotMarker ++ b).
  apply (restoreGo_drop (skipn 1 dotMarker) b).
Qed.

(** *** Sentence separators *)

Lemma spanLen_le p s : (spanLen p s <= List.length s)%nat.
Proof.
  induction s as [| c s IH]; [reflexivity |].
  cbn [spanLen List.length]. destruct (p c); lia.
Qed.

Lemma spanLen_forall p s : forallb p (firstn (spanLen p s) s) = true.
Proof.
  induction s as [| c s IH]; [reflexivity |].
  cbn [spanLen]. destruct (p c) eqn:E; [| reflexivity].
  cbn [firstn forallb]. rewrite E, IH. reflexivity.
Qed.

Lemma forallb_weaken {A} (p q : A -> bool) l :
  (forall x, p x = true -> q x = true) ->
  forallb p l = true -> forallb q l = true.
Proof.
  intros H. induction l as [| x l IH]; [reflexivity |].
  cbn [forallb]. intros K. apply andb_true_iff in K. destruct K as [K1 K2].
  rewrite (H _ K1), (IH K2). reflexivity.
Qed.

Lemma sentenceEnd_not_lt c : isSentenceEnd c = true -> negb (N.eqb c 60) = true.
Proof.
  destruct (N.eqb c 60) eqn:E; [| reflexivity].
  apply N.eqb_eq in E. subst c. discriminate.
Qed.

Lemma whiteSpace_not_lt c : isWhiteSpace c = true -> negb (N.eqb c 60) = true.
Proof.
  destruct (N.eqb c 60) eqn:E; [| reflexivity].
  apply N.eqb_eq in E. subst c. discriminate.
Qed.

Lemma firstn_plus {A} (a b : nat) (s : list A) :
  firstn (a + b) s = firstn a s ++ firstn b (skipn a s).
Proof.
  revert s. induction a as [| a IH]; intros s; [reflexivity |].
  destruct s as [| c s]; [destruct b; reflexivity |].
  cbn [Nat.add firstn skipn app]. rewrite IH. reflexivity.
Qed.

Lemma sepSentenceEnd_separator s n :
  sepSentenceEnd s = S n ->
  IsSeparator (firstn (S n) s) /\ (S n <= List.length s)%nat.
Proof.
  unfold sepSentenceEnd.
  set (a := spanLen isSentenceEnd s).
  set (b := spanLen isWhiteSpace (skipn a s)).
  intros H.
  assert (Ha : (1 <= a)%nat) by (destruct a; [discriminate | lia]).
  assert (Hb : (1 <= b)%nat)
    by (destruct a; [discriminate |]; destruct b; [discriminate | lia]).
  assert (Hn : S n = (a + b)%nat)
    by (destruct a; [discriminate |]; destruct b; [discriminate |]; congruence).
  pose proof (spanLen_le isSentenceEnd s) as La. fold a in La.
  pose proof (spanLen_le isWhiteSpace (skipn a s)) as Lb. fold b in Lb.
  rewrite length_skipn in Lb.
  pose proof (spanLen_forall isSentenceEnd s) as Fa. fold a in Fa.
  pose proof (spanLen_forall isWhiteSpace (skipn a s)) as Fb. fold b in Fb.
  split; [| lia].
  assert (Hz : firstn (S n) s = firstn a s ++ firstn b (skipn a s)).
  { rewrite Hn. apply firstn_plus. }
  rewrite Hz.
  destruct (firstn a s) as [| p za] eqn:Ea.
  { apply (f_equal (@List.length N)) in Ea.
    rewrite length_firstn in Ea. cbn in Ea. lia. }
  cbn [forallb] in Fa. apply andb_true_iff in Fa. destruct Fa as [Fp Fa].
  assert (Hall : forallb (fun c => negb (N.eqb c 60))
                   ((p :: za) ++ firstn b (skipn a s)) = true).
  { rewrite forallb_app. apply andb_true_iff. split.
    - cbn [forallb]. rewrite (sentenceEnd_not_lt _ Fp). cbn [andb].
      revert Fa. apply forallb_weaken. apply sentenceEnd_not_lt.
    - revert Fb. apply forallb_weaken. apply whiteSpace_not_lt. }
  destruct za as [| w za].
  - destruct (firstn b (skipn a s)) as [| w zb] eqn:Eb.
    { apply (f_equal (@List.length N)) in Eb.
      rewrite length_firstn, length_skipn in Eb. cbn in Eb. lia. }
    cbn [forallb] in Fb. apply andb_true_iff in Fb. destruct Fb as [Fw Fb].
    exists p, w, zb. cbn [app]. repeat split; try assumption.
    rewrite Fw. apply orb_true_r.
  - cbn [forallb] in Fa. apply andb_true_iff in Fa. destruct Fa as [Fw Fa].
    exists p, w, (za ++ firstn b (skipn a s)). cbn [app].
    repeat split; try assumption. rewrite Fw. reflexivity.
Qed.

Lemma Clean_separator a z b : IsSeparator z -> Clean a (z ++ b).
Proof.
  intros (p & w & z' & -> & Hp & Hw & _) a1 a2 _ Hne H.
  destruct (startsWith_app _ _ _ H) as [K | [K1 K2]]; [exact K |].
  exfalso. change (List.length dotMarker) with 7%nat in K1.
  assert (Hk : (1 <= List.length a2 < 7)%nat).
  { destruct a2; [congruence | cbn [List.length] in *; lia]. }
  cbn [app] in K2.
  destruct (marker_tail_head _ _ _ Hk K2)
    as [(_ & _ & K) | [(_ & _ & K) | (K3 & K4 & K5 & _)]].
  - cbn [startsWith] in K. apply andb_true_iff in K. destruct K as [K _].
    apply N.eqb_eq in K. subst w. discriminate.
  - cbn [startsWith] in K. apply andb_true_iff in K. destruct K as [K _].
    apply N.eqb_eq in K. subst w. discriminate.
  - unfold isSentenceEnd in Hp.
    apply orb_true_iff in Hp. destruct Hp as [Hp | Hp];
      [apply orb_true_iff in Hp; destruct Hp as [Hp | Hp] |];
      apply N.eqb_eq in Hp; congruence.
Qed.

(** Putting the dots back leaves a separator where it is. *)
Lemma restore_separator a z b :
  IsSeparator z -> restore (a ++ z ++ b) = restore a ++ z ++ restore b.
Proof.
  intros Hz. rewrite restore_app_clean by (apply Clean_separator; exact Hz).
  f_equal. apply restore_pass.
  destruct Hz as (p & w & z' & _ & _ & _ & H). exact H.
Qed.

(** *** The length of the sentences of a text *)

Lemma cost_cons q l : cost (q :: l) = (S (List.length q) + cost l)%nat.
Proof. reflexivity. Qed.

Lemma cost_filter f l : (cost (filter f l) <= cost l)%nat.
Proof.
  induction l as [| q l IH]; [reflexivity |].
  cbn [filter]. destruct (f q); rewrite ?cost_cons; lia.
Qed.

Lemma splitGo_skip sep n cur s :
  splitGo sep n cur s = splitGo sep 0 cur (skipn n s).
Proof.
  revert s. induction n as [| n IH]; intros s; [reflexivity |].
  destruct s as [| c s]; [reflexivity |].
  cbn [splitGo skipn]. apply IH.
Qed.

Lemma split_cost_le n s cur :
  (List.length s <= n)%nat ->
  (cost (map restore (splitGo sepSentenceEnd 0 cur s))
   <= S (List.length (restore (rev cur ++ s))))%nat.
Proof.
  revert s cur. induction n as [| n IH]; intros s cur Hn.
  - destruct s; [| cbn in Hn; lia].
    cbn [splitGo map]. rewrite rev'_rev, app_nil_r, cost_cons. cbn. lia.
  - destruct s as [| c s].
    { cbn [splitGo map]. rewrite rev'_rev, app_nil_r, cost_cons. cbn. lia. }
    cbn [List.length] in Hn. cbn [splitGo]. rewrite ?rev'_rev.
    destruct (sepSentenceEnd (c :: s)) as [| k] eqn:E.
    + specialize (IH s (c :: cur)). cbn [rev] in IH.
      rewrite <- app_assoc in IH. cbn [app] in IH. apply IH. lia.
    + destruct (sepSentenceEnd_separator _ _ E) as [Hz Hl].
      cbn [List.length] in Hl.
      rewrite splitGo_skip. cbn [map]. rewrite cost_cons.
      assert (Hs : c :: s = firstn (S k) (c :: s) ++ skipn k s).
      { change (skipn k s) with (skipn (S k) (c :: s)).
        symmetry. apply firstn_skipn. }
      rewrite Hs at 1. rewrite (restore_separator _ _ _ Hz), !length_app.
      specialize (IH (skipn k s) []). cbn [rev app] in IH.
      rewrite length_skipn in IH.
      assert (Hf : List.length (firstn (S k) (c :: s)) = S k).
      { rewrite length_firstn. cbn [List.length]. lia. }
      rewrite Hf. specialize (IH ltac:(lia)). lia.
Qed.

(** *** The abbreviations *)

Lemma matchAbbreviation_split pat s m r :
  matchAbbreviation pat s = Some (m, r) -> s = m ++ r.
Proof.
  revert s m r. induction pat as [| p pat IH]; intros s m r H.
  - cbn in H. inversion H; subst. reflexivity.
  - destruct s as [| c s]; [discriminate |].
    cbn [matchAbbreviation] in H.
    destruct (if N.eqb p 46 then _ else _); [| discriminate].
    destruct (matchAbbreviation pat s) as [[m' r'] |] eqn:E; [| discriminate].
    inversion H; subst. cbn [app]. f_equal. apply IH. exact E.
Qed.

Lemma firstAbbreviation_split alts s n r :
  firstAbbreviation alts s = Some (n, r) ->
  exists abbr rest,
    n = S (List.length abbr) /\ r = abbr ++ dotMarker
    /\ s = abbr ++ 46%N :: rest.
Proof.
  induction alts as [| a alts IH]; intros H; [discriminate |].
  cbn [firstAbbreviation] in H.
  destruct (matchAbbreviation a s) as [[abbr rest] |] eqn:E; [| auto].
  destruct rest as [| d rest]; [auto |].
  destruct (N.eq_dec d 46) as [-> | Hd].
  - inversion H; subst. exists abbr, rest. repeat split.
    apply matchAbbreviation_split in E. exact E.
  - destruct d; try (apply IH; exact H).
    repeat (destruct p as [p | p |]; try (apply IH; exact H)).
    congruence.
Qed.

Lemma restore_cons_le c t :
  (List.length (restore (c :: t)) <= S (List.length (restore t)))%nat.
Proof.
  rewrite restore_cons. destruct (startsWith dotMarker (c :: t)) eqn:E.
  - assert (Ht : exists t', t = [33; 68; 79; 84; 33; 62]%N ++ t').
    { exists (skipn 6 t). pose proof (startsWith_split _ _ E) as Hs.
      change (List.length dotMarker) with 7%nat in Hs.
      change (skipn 7 (c :: t)) with (skipn 6 t) in Hs.
      rewrite dotMarker_chars in Hs. injection Hs as _ Hs. exact Hs. }
    destruct Ht as [t' ->].
    change (restoreGo 6 ([33; 68; 79; 84; 33; 62]%N ++ t'))
      with (restoreGo (List.length [33; 68; 79; 84; 33; 62]%N)
              ([33; 68; 79; 84; 33; 62]%N ++ t')).
    rewrite restoreGo_drop, restore_pass by reflexivity.
    rewrite length_app. cbn [List.length]. lia.
  - cbn [List.length]. lia.
Qed.

Lemma abbreviations_length s skip prev :
  (skip <= List.length s)%nat ->
  (List.length (restore (replaceGo reAbbreviation skip prev s)) + skip
   <= List.length s)%nat.
Proof.
  revert skip prev. induction s as [| c s IH]; intros skip prev Hs.
  - cbn in Hs. assert (skip = 0%nat) by lia. subst. reflexivity.
  - cbn [List.length] in *. cbn [replaceGo].
    destruct skip as [| k].
    + assert (Hdefault :
        (List.length (restore (c :: replaceGo reAbbreviation 0 (Some c) s)) + 0
         <= S (List.length s))%nat).
      { pose proof (restore_cons_le c (replaceGo reAbbreviation 0 (Some c) s)).
        specialize (IH 0%nat (Some c)). lia. }
      destruct (reAbbreviation prev (c :: s)) as [[[| n] r] |] eqn:E;
        try exact Hdefault.
      unfold reAbbreviation in E.
      destruct (xorb _ _); [| discriminate].
      destruct (firstAbbreviation_split _ _ _ _ E)
        as (abbr & rest & Hn & -> & Hcs).
      inversion Hn; subst n.
      assert (Hl : (List.length abbr <= List.length s)%nat).
      { apply (f_equal (@List.length N)) in Hcs.
        rewrite length_app in Hcs. cbn [List.length] in Hcs. lia. }
      rewrite <- app_assoc, restore_marker, !length_app.
      pose proof (restore_length abbr).
      specialize (IH (List.length abbr) (Some c) Hl).
      cbn [List.length]. lia.
    + specialize (IH k (Some c)). lia.
Qed.

(** The sentences of a text, with one character between them, are no
    longer than the text. *)
Lemma splitIntoSentences_cost x :
  (cost (splitIntoSentences x) <= S (List.length x))%nat.
Proof.
  unfold splitIntoSentences. cbv zeta.
  etransitivity; [apply cost_filter |].
  change (replaceAll reDotMarker) with restore.
  unfold split.
  etransitivity; [apply (split_cost_le _ _ [] (Nat.le_refl _)) |].
  cbn [rev app].
  pose proof (abbreviations_length x 0 None (Nat.le_0_l _)) as H.
  unfold replaceAll. lia.
Qed.

Lemma splitIntoSentences_not_blank x s :
  In s (splitIntoSentences x) -> isBlank s = false.
Proof.
  unfold splitIntoSentences. cbv zeta. intros H.
  apply filter_In in H. destruct H as [_ H].
  apply negb_true_iff in H. exact H.
Qed.

End StringFacts.

(** ** The loop of [createChunks]: groups, token counts and overlap *)

Module AssemblyFacts.
Import JS Types Chunking Invariants.

(** *** Token sums *)

Lemma sumTokens_from l a :
  fold_left (fun sum u => sum + SemanticUnit.tokenCount u) l a = a + sumTokens l.
Proof.
  unfold sumTokens. revert a.
  induction l as [| u l IH]; intros a; cbn [fold_left]; [lia |].
  rewrite IH, (IH (0 + _)). lia.
Qed.

Lemma sumTokens_nil : sumTokens [] = 0.
Proof. reflexivity. Qed.

Lemma sumTokens_cons u l :
  sumTokens (u :: l) = SemanticUnit.tokenCount u + sumTokens l.
Proof. unfold sumTokens at 1. cbn [fold_left]. rewrite sumTokens_from. lia. Qed.

Lemma sumTokens_app l1 l2 : sumTokens (l1 ++ l2) = sumTokens l1 + sumTokens l2.
Proof.
  induction l1 as [| u l1 IH]; [reflexivity |].
  cbn [app]. rewrite !sumTokens_cons, IH. lia.
Qed.

Lemma sumTokens_snoc l u :
  sumTokens (l ++ [u]) = sumTokens l + SemanticUnit.tokenCount u.
Proof. rewrite sumTokens_app, sumTokens_cons, sumTokens_nil. lia. Qed.

Lemma nonEmpty_true {A} (l : list A) : nonEmpty l = true <-> l <> [].
Proof. destruct l; cbn; split; congruence. Qed.

(** *** The chunks are built from the groups *)

Lemma buildFrom_app i l1 l2 :
  buildFrom i (l1 ++ l2)
  = buildFrom i l1 ++ buildFrom (i + Z.of_nat (List.length l1)) l2.
Proof.
  revert i. induction l1 as [| g l1 IH]; intros i.
  - cbn. f_equal. lia.
  - cbn [app buildFrom List.length]. rewrite IH.
    replace (i + 1 + Z.of_nat (List.length l1))
      with (i + Z.of_nat (S (List.length l1))) by lia.
    reflexivity.
Qed.

Lemma buildFrom_length i l : List.length (buildFrom i l) = List.length l.
Proof. revert i. induction l; intros; cbn; auto. Qed.

Lemma Sim_close st g next :
  Sim st g -> Sim (closeChunk st next) (groupClose g next).
Proof.
  intros (Hc & Hr & Ht & Hi). unfold Sim, closeChunk, groupClose.
  cbn [chunks currentChunk currentTokenCount chunkIndex closed running].
  rewrite buildFrom_app, Hc, Hr, Hi, length_app.
  cbn [buildFrom List.length]. repeat split; try reflexivity. lia.
Qed.

Lemma Sim_push st g u : Sim st g -> Sim (pushUnit st u) (groupPush g u).
Proof.
  intros (Hc & Hr & Ht & Hi). unfold Sim, pushUnit, groupPush.
  cbn [chunks currentChunk currentTokenCount chunkIndex closed running].
  rewrite sumTokens_snoc, Hc, Hr, Ht, Hi. auto.
Qed.

Lemma Sim_splitUnit options st g p :
  Sim st g -> Sim (addSplitUnit options st p) (groupSplitUnit options g p).
Proof.
  intros H. unfold addSplitUnit, groupSplitUnit.
  destruct H as (Hc & Hr & Ht & Hi). rewrite Ht, Hr.
  destruct (_ && _)%bool; apply Sim_push; [apply Sim_close |];
    repeat split; assumption.
Qed.

Lemma Sim_fold {A} (f : Assembly -> A -> Assembly) (h : Grouping -> A -> Grouping) l :
  (forall st g a, Sim st g -> Sim (f st a) (h g a)) ->
  forall st g, Sim st g -> Sim (fold_left f l st) (fold_left h l g).
Proof.
  intros Hstep. induction l as [| a l IH]; intros st g H; cbn; auto.
Qed.

Lemma Sim_unit options st g u :
  Sim st g -> Sim (addUnit options st u) (groupUnit options g u).
Proof.
  intros H. unfold addUnit, groupUnit.
  pose proof H as (Hc & Hr & Ht & Hi). rewrite Ht, Hr.
  assert (H' : Sim
    (if ((sumTokens (running g) + SemanticUnit.tokenCount u >? maxTokens options)
         && nonEmpty (running g))%bool
     then if overlapTokens options >? 0
          then closeChunk st (createOverlap (running g) (overlapTokens options))
          else closeChunk st []
     else st)
    (if ((sumTokens (running g) + SemanticUnit.tokenCount u >? maxTokens options)
         && nonEmpty (running g))%bool
     then if overlapTokens options >? 0
          then groupClose g (createOverlap (running g) (overlapTokens options))
          else groupClose g []
     else g)).
  { destruct (_ && _)%bool; [| exact H].
    destruct (overlapTokens options >? 0); apply Sim_close; exact H. }
  cbv zeta. destruct (SemanticUnit.tokenCount u >? maxTokens options).
  - apply Sim_fold; [| exact H']. intros; apply Sim_splitUnit; assumption.
  - apply Sim_push; exact H'.
Qed.

Lemma assembleChunks_groups units options :
  assembleChunks units options = buildFrom 0 (assembleGroups units options).
Proof.
  unfold assembleChunks, assembleGroups.
  assert (H : Sim (fold_left (addUnit options) units emptyAssembly)
                  (fold_left (groupUnit options) units
                     {| closed := []; running := [] |})).
  { apply Sim_fold; [intros; apply Sim_unit; assumption |].
    repeat split. }
  destruct H as (Hc & Hr & Ht & Hi). cbv zeta. rewrite Hr, Hc, Hi.
  destruct (nonEmpty _); [| reflexivity].
  rewrite buildFrom_app. reflexivity.
Qed.

(** *** [createOverlap] *)

Lemma createOverlapGo_spec o fromEnd acc tc :
  exists k, createOverlapGo o fromEnd acc tc = rev (firstn k fromEnd) ++ acc.
Proof.
  revert acc tc. induction fromEnd as [| u rest IH]; intros acc tc.
  - exists O. reflexivity.
  - cbn [createOverlapGo]. destruct (tc <? o).
    + destruct (IH (u :: acc) (tc + SemanticUnit.tokenCount u)) as [k Hk].
      exists (S k). rewrite Hk. cbn [firstn rev]. rewrite <- app_assoc. reflexivity.
    + exists O. reflexivity.
Qed.

(** The overlap is a run of trailing units. *)
Lemma createOverlap_suffix units o :
  exists pre, units = pre ++ createOverlap units o.
Proof.
  unfold createOverlap.
  destruct (createOverlapGo_spec o (rev units) [] 0) as [k Hk].
  rewrite Hk, app_nil_r.
  exists (rev (skipn k (rev units))).
  rewrite <- rev_app_distr, firstn_skipn, rev_involutive. reflexivity.
Qed.

Lemma createOverlapGo_bound o m fromEnd acc :
  (forall u, In u fromEnd -> SemanticUnit.tokenCount u <= m) ->
  sumTokens acc <= o - 1 + m ->
  sumTokens (createOverlapGo o fromEnd acc (sumTokens acc)) <= o - 1 + m.
Proof.
  revert acc. induction fromEnd as [| u rest IH]; intros acc Hm Hacc.
  - exact Hacc.
  - cbn [createOverlapGo]. destruct (sumTokens acc <? o) eqn:E; [| exact Hacc].
    apply Z.ltb_lt in E.
    replace (sumTokens acc + SemanticUnit.tokenCount u)
      with (sumTokens (u :: acc)) by (rewrite sumTokens_cons; lia).
    apply IH.
    + intros v Hv. apply Hm. right. exact Hv.
    + rewrite sumTokens_cons. specialize (Hm u (or_introl eq_refl)). lia.
Qed.

(** It carries fewer than [overlapTokens] tokens besides its first unit. *)
Lemma createOverlap_bound units o m :
  0 < o -> 0 <= m ->
  (forall u, In u units -> SemanticUnit.tokenCount u <= m) ->
  sumTokens (createOverlap units o) <= o - 1 + m.
Proof.
  intros Ho Hm Hall. unfold createOverlap.
  apply (createOverlapGo_bound o m (rev units) []).
  - intros u Hu. apply Hall. apply in_rev. exact Hu.
  - rewrite sumTokens_nil. lia.
Qed.

(** It is the shortest run of trailing units that reaches [overlapTokens],
    or all the units when they do not reach it. *)
Lemma createOverlapGo_shortest o fromEnd acc :
  (forall u rest, acc = u :: rest -> sumTokens rest < o) ->
  let r := createOverlapGo o fromEnd acc (sumTokens acc) in
  (forall u rest, r = u :: rest -> sumTokens rest < o)
  /\ (o <= sumTokens r \/ r = rev fromEnd ++ acc).
Proof.
  revert acc. induction fromEnd as [| u rest IH]; intros acc Hacc; cbv zeta.
  - cbn [createOverlapGo rev app]. split; [exact Hacc | right; reflexivity].
  - cbn [createOverlapGo]. destruct (sumTokens acc <? o) eqn:E.
    + apply Z.ltb_lt in E.
      replace (sumTokens acc + SemanticUnit.tokenCount u)
        with (sumTokens (u :: acc)) by (rewrite sumTokens_cons; lia).
      destruct (IH (u :: acc)) as [H1 H2].
      { intros v r Hv. inversion Hv; subst. exact E. }
      split; [exact H1 |].
      destruct H2 as [H2 | H2]; [left; exact H2 | right].
      rewrite H2. cbn [rev]. rewrite <- app_assoc. reflexivity.
    + apply Z.ltb_ge in E. split; [exact Hacc | left; exact E].
Qed.

Lemma createOverlap_shortest units o :
  let r := createOverlap units o in
  (forall u rest, r = u :: rest -> sumTokens rest < o)
  /\ (o <= sumTokens r \/ r = units).
Proof.
  cbv zeta. unfold createOverlap.
  destruct (createOverlapGo_shortest o (rev units) []) as [H1 H2].
  { intros u rest H. discriminate. }
  cbv zeta in H1, H2. rewrite sumTokens_nil in *. split; [exact H1 |].
  destruct H2 as [H2 | H2]; [left; exact H2 | right].
  rewrite H2, rev_involutive, app_nil_r. reflexivity.
Qed.

Lemma Segment_snoc l D d : Segment l D -> Segment l (D ++ [d]).
Proof.
  intros (pre & post & ->). exists pre, (post ++ [d]).
  rewrite <- !app_assoc. reflexivity.
Qed.

Lemma Segment_app l D D' : Segment l D -> Segment l (D ++ D').
Proof.
  intros (pre & post & ->). exists pre, (post ++ D').
  rewrite <- !app_assoc. reflexivity.
Qed.

Lemma GSeg_push D g u : GSeg D g -> GSeg (D ++ [u]) (groupPush g u).
Proof.
  intros [(pre & ->) Hc]. split.
  - exists pre. cbn [groupPush running]. rewrite app_assoc. reflexivity.
  - cbn [groupPush closed]. eapply Forall_impl; [| exact Hc].
    intros grp [Hne Hs]. split; [exact Hne | apply Segment_snoc; exact Hs].
Qed.

Lemma GSeg_close D g next :
  GSeg D g -> running g <> [] -> Suffix next (running g) ->
  GSeg D (groupClose g next).
Proof.
  intros [(pre & ->) Hc] Hne (pre' & Hpre'). split.
  - cbn [groupClose running]. exists (pre ++ pre').
    rewrite Hpre', app_assoc. reflexivity.
  - cbn [groupClose closed]. apply Forall_app. split; [exact Hc |].
    constructor; [| constructor]. split; [exact Hne |].
    exists pre, []. rewrite app_nil_r. reflexivity.
Qed.

Lemma Suffix_nil l : Suffix [] l.
Proof. exists l. rewrite app_nil_r. reflexivity. Qed.

Lemma GSeg_splitUnit options D g p :
  GSeg D g -> GSeg (D ++ [p]) (groupSplitUnit options g p).
Proof.
  intros H. unfold groupSplitUnit.
  destruct (_ >? _) eqn:E1; cbn [andb]; [| apply GSeg_push; exact H].
  destruct (nonEmpty (running g)) eqn:E2; [| apply GSeg_push; exact H].
  apply GSeg_push, GSeg_close; [exact H | | apply Suffix_nil].
  apply nonEmpty_true. exact E2.
Qed.

Lemma GSeg_pieces options pieces D g :
  GSeg D g -> GSeg (D ++ pieces) (fold_left (groupSplitUnit options) pieces g).
Proof.
  revert D g. induction pieces as [| p pieces IH]; intros D g H.
  - rewrite app_nil_r. exact H.
  - cbn [fold_left].
    replace (D ++ p :: pieces) with ((D ++ [p]) ++ pieces)
      by (rewrite <- app_assoc; reflexivity).
    apply IH, GSeg_splitUnit, H.
Qed.

Lemma GSeg_unit options D g u :
  GSeg D g -> GSeg (D ++ expand options u) (groupUnit options g u).
Proof.
  intros H. unfold groupUnit, expand. cbv zeta.
  match goal with
  | |- context [if ?c then (if ?d then groupClose g ?o else groupClose g [])
                else g] =>
      assert (H' : GSeg D (if c then (if d then groupClose g o
                                      else groupClose g []) else g))
  end.
  { destruct (_ >? _) eqn:E1; cbn [andb]; [| exact H].
    destruct (nonEmpty (running g)) eqn:E2; [| exact H].
    apply nonEmpty_true in E2.
    destruct (overlapTokens options >? 0).
    - apply GSeg_close; [exact H | exact E2 | apply createOverlap_suffix].
    - apply GSeg_close; [exact H | exact E2 | apply Suffix_nil]. }
  destruct (SemanticUnit.tokenCount u >? maxTokens options).
  - apply GSeg_pieces. exact H'.
  - apply GSeg_push. exact H'.
Qed.

Lemma GSeg_units options units D g :
  GSeg D g ->
  GSeg (D ++ flat_map (expand options) units)
       (fold_left (groupUnit options) units g).
Proof.
  revert D g. induction units as [| u units IH]; intros D g H.
  - cbn. rewrite app_nil_r. exact H.
  - cbn [fold_left flat_map]. rewrite app_assoc. apply IH, GSeg_unit, H.
Qed.

Lemma pushedUnits_expand units options :
  pushedUnits units options = flat_map (expand options) units.
Proof. reflexivity. Qed.

(** Every array given to [buildChunk] is a non-empty run of consecutive
    pushed units. *)
Lemma assembleGroups_segments units options :
  Forall (fun grp => grp <> [] /\ Segment grp (pushedUnits units options))
         (assembleGroups units options).
Proof.
  unfold assembleGroups. cbv zeta.
  pose proof (GSeg_units options units [] {| closed := []; running := [] |})
    as H.
  cbn [app] in H. rewrite <- pushedUnits_expand in H.
  destruct H as [Hs Hc].
  { split; [apply Suffix_nil | constructor]. }
  destruct (nonEmpty _) eqn:E; [| exact Hc].
  apply Forall_app. split; [exact Hc |]. constructor; [| constructor].
  split; [apply nonEmpty_true; exact E |].
  destruct Hs as (pre & Hpre). exists pre, []. rewrite app_nil_r. exact Hpre.
Qed.

(** *** The token count of a group *)

Section Bound.
Context (options : ChunkingOptions) (m : Z).
Hypothesis m_nonneg : 0 <= m.

Lemma budget_ge_m : m <= budget options m.
Proof. unfold budget. lia. Qed.

Lemma Small_suffix l D : Suffix l D -> Small m D -> Small m l.
Proof.
  intros (pre & ->) H. apply Forall_app in H. apply H.
Qed.

Lemma GBound_closed g next :
  GBound options m g -> Forall (fun grp => sumTokens grp <= budget options m)
                (closed (groupClose g next)).
Proof.
  intros (Hs & Hr & Hc). cbn [groupClose closed].
  apply Forall_app. split; [exact Hc |]. constructor; [exact Hr | constructor].
Qed.

Lemma GBound_fresh g u :
  GBound options m g -> SemanticUnit.tokenCount u <= m ->
  GBound options m (groupPush (groupClose g []) u).
Proof.
  intros H Hu. split; [| split].
  - cbn. constructor; [exact Hu | constructor].
  - cbn [groupPush groupClose running app].
    rewrite sumTokens_cons, sumTokens_nil. pose proof budget_ge_m. lia.
  - apply GBound_closed. exact H.
Qed.

(** A unit pushed without closing the running chunk. *)
Lemma GBound_push g u :
  GBound options m g -> SemanticUnit.tokenCount u <= m ->
  ((sumTokens (running g) + SemanticUnit.tokenCount u >? maxTokens options)
   && nonEmpty (running g))%bool = false ->
  GBound options m (groupPush g u).
Proof.
  intros (Hs & Hr & Hc) Hu E. split; [| split].
  - cbn [groupPush running]. apply Forall_app. split; [exact Hs |].
    constructor; [exact Hu | constructor].
  - cbn [groupPush running]. rewrite sumTokens_snoc.
    apply andb_false_iff in E. destruct E as [E | E].
    + rewrite Z.gtb_ltb in E; apply Z.ltb_ge in E. unfold budget. lia.
    + destruct (running g); [| discriminate].
      rewrite sumTokens_nil. pose proof budget_ge_m. lia.
  - exact Hc.
Qed.

Lemma GBound_splitUnit g p :
  GBound options m g -> SemanticUnit.tokenCount p <= m ->
  GBound options m (groupSplitUnit options g p).
Proof.
  intros H Hp. unfold groupSplitUnit.
  destruct (_ && _)%bool eqn:E.
  - apply GBound_fresh; assumption.
  - apply GBound_push; assumption.
Qed.

Lemma GBound_pieces pieces g :
  GBound options m g -> Small m pieces ->
  GBound options m (fold_left (groupSplitUnit options) pieces g).
Proof.
  revert g. induction pieces as [| p pieces IH]; intros g H Hs; [exact H |].
  cbn [fold_left]. inversion Hs; subst.
  apply IH; [apply GBound_splitUnit |]; assumption.
Qed.

Lemma GBound_overlap g :
  GBound options m g -> 0 < overlapTokens options ->
  GBound options m (groupClose g (createOverlap (running g) (overlapTokens options))).
Proof.
  intros H Ho. pose proof H as (Hs & Hr & Hc). split; [| split].
  - cbn [groupClose running].
    eapply Small_suffix; [apply createOverlap_suffix | exact Hs].
  - cbn [groupClose running].
    pose proof (createOverlap_bound (running g) (overlapTokens options) m Ho
                  m_nonneg) as K.
    unfold budget. etransitivity; [apply K |]; [| lia].
    intros u Hu. unfold Small in Hs. rewrite Forall_forall in Hs. auto.
  - apply GBound_closed. exact H.
Qed.

Lemma GBound_unit g u :
  GBound options m g -> Small m (expand options u) -> GBound options m (groupUnit options g u).
Proof.
  intros H Hu. unfold groupUnit, expand in *. cbv zeta.
  destruct (SemanticUnit.tokenCount u >? maxTokens options) eqn:Ebig.
  - (* the pieces of a large unit *)
    apply GBound_pieces; [| exact Hu].
    destruct (_ && _)%bool; [| exact H].
    destruct (overlapTokens options >? 0) eqn:Eo.
    + apply GBound_overlap; [exact H | lia].
    + pose proof H as (Hs & Hr & Hc). split; [| split].
      * constructor.
      * cbn. unfold budget. lia.
      * apply GBound_closed. exact H.
  - (* a unit pushed whole *)
    inversion Hu as [| ? ? Hm _]; subst.
    rewrite Z.gtb_ltb in Ebig; apply Z.ltb_ge in Ebig.
    destruct (_ && _)%bool eqn:E; [| apply GBound_push; assumption].
    destruct (overlapTokens options >? 0) eqn:Eo.
    + assert (Ho : 0 < overlapTokens options) by lia.
      pose proof (GBound_overlap g H Ho) as (Hs' & Hr' & Hc').
      split; [| split].
      * cbn [groupPush running]. apply Forall_app. split; [exact Hs' |].
        constructor; [exact Hm | constructor].
      * cbn [groupPush groupClose running] in *. rewrite sumTokens_snoc.
        pose proof H as (Hs & _).
        pose proof (createOverlap_bound (running g) (overlapTokens options) m
                      Ho m_nonneg) as K.
        unfold budget. 
        assert (sumTokens (createOverlap (running g) (overlapTokens options))
                <= overlapTokens options - 1 + m).
        { apply K. intros v Hv. unfold Small in Hs.
          rewrite Forall_forall in Hs. auto. }
        lia.
      * exact Hc'.
    + apply GBound_fresh; assumption.
Qed.

Lemma GBound_units units g :
  GBound options m g -> Small m (flat_map (expand options) units) ->
  GBound options m (fold_left (groupUnit options) units g).
Proof.
  revert g. induction units as [| u units IH]; intros g H Hs; [exact H |].
  cbn [fold_left flat_map] in *. apply Forall_app in Hs. destruct Hs as [Hu Hs].
  apply IH; [apply GBound_unit |]; assumption.
Qed.

(** No array given to [buildChunk] carries more than the budget options m. *)
Lemma assembleGroups_bound units :
  Small m (pushedUnits units options) ->
  Forall (fun grp => sumTokens grp <= budget options m) (assembleGroups units options).
Proof.
  intros Hs. unfold assembleGroups. cbv zeta.
  destruct (GBound_units units {| closed := []; running := [] |})
    as (_ & Hr & Hc).
  { split; [constructor | split; [| constructor]].
    cbn. unfold budget. lia. }
  { exact Hs. }
  destruct (nonEmpty _); [| exact Hc].
  apply Forall_app. split; [exact Hc |]. constructor; [exact Hr | constructor].
Qed.

End Bound.

(** *** The overlap between consecutive groups *)

Section Overlap.
Context (options : ChunkingOptions).

Lemma Chained_grow l r u :
  r <> [] -> Chained options (l ++ [r]) -> Chained options (l ++ [r ++ [u]]).
Proof.
  intros Hr. induction l as [| g l IH]; intros H.
  - constructor.
  - destruct l as [| g' l].
    + cbn in *. inversion H; subst. constructor; [| constructor].
      destruct H2 as (rest & Hne & ->). exists (rest ++ [u]). split.
      * destruct rest; discriminate.
      * rewrite app_assoc. reflexivity.
    + cbn [app] in *. inversion H; subst. constructor; [assumption |].
      apply IH. assumption.
Qed.

Lemma Chained_first l u : Chained options (l ++ [[]]) -> l = [] -> Chained options (l ++ [[u]]).
Proof. intros _ ->. constructor. Qed.

Lemma Chained_close l r u :
  Chained options (l ++ [r]) ->
  Chained options ((l ++ [r]) ++ [createOverlap r (overlapTokens options) ++ [u]]).
Proof.
  induction l as [| g l IH]; intros H.
  - cbn. constructor; [| constructor]. exists [u]. split; [discriminate | reflexivity].
  - destruct l as [| g' l].
    + cbn in *. inversion H; subst. constructor; [assumption |].
      apply (IH (Chained_one r)).
    + cbn [app] in *. inversion H; subst. constructor; [assumption |].
      apply IH. assumption.
Qed.

Lemma Chained_init l g : Chained options (l ++ [g]) -> Chained options l.
Proof.
  induction l as [| a l IH]; intros H; [constructor |].
  destruct l as [| b l]; [constructor |].
  cbn [app] in *. inversion H; subst. constructor; [assumption |].
  apply IH. assumption.
Qed.

Lemma Chained_nth l i a b :
  Chained options l -> nth_error l i = Some a -> nth_error l (S i) = Some b ->
  Overlapped options a b.
Proof.
  intros H. revert i. induction H as [| g | g g' l Ho H IH]; intros i Ha Hb.
  - destruct i; discriminate.
  - destruct i; cbn in Hb; [discriminate |]. destruct i; discriminate.
  - destruct i as [| i].
    + cbn in Ha, Hb. inversion Ha; inversion Hb; subst. exact Ho.
    + cbn [nth_error] in Ha, Hb. apply (IH i); assumption.
Qed.

Lemma GChain_unit g u :
  0 < overlapTokens options ->
  SemanticUnit.tokenCount u <= maxTokens options ->
  GChain options g -> GChain options (groupUnit options g u).
Proof.
  intros Ho Hu [Hc He]. unfold groupUnit. cbv zeta.
  replace (SemanticUnit.tokenCount u >? maxTokens options) with false
    by (symmetry; rewrite Z.gtb_ltb; apply Z.ltb_ge; exact Hu).
  replace (overlapTokens options >? 0) with true
    by (symmetry; rewrite Z.gtb_ltb; apply Z.ltb_lt; exact Ho).
  destruct (_ >? _); cbn [andb].
  - destruct (running g) as [| r0 r] eqn:Er; cbn [nonEmpty].
    + split.
      * cbn [groupPush closed running]. rewrite Er, (He eq_refl). constructor.
      * cbn [groupPush running]. intros K.
        apply app_eq_nil in K. destruct K; discriminate.
    + split.
      * cbn [groupPush groupClose closed running]. rewrite <- Er in *.
        apply Chained_close. exact Hc.
      * cbn [groupPush groupClose running]. intros K.
        apply app_eq_nil in K. destruct K; discriminate.
  - destruct (running g) as [| r0 r] eqn:Er.
    + split.
      * cbn [groupPush closed running]. rewrite Er, (He eq_refl). constructor.
      * cbn [groupPush running]. intros K.
        apply app_eq_nil in K. destruct K; discriminate.
    + split.
      * cbn [groupPush closed running]. rewrite <- Er in *.
        apply Chained_grow; [rewrite Er; discriminate | exact Hc].
      * cbn [groupPush running]. intros K.
        apply app_eq_nil in K. destruct K; discriminate.
Qed.

Lemma GChain_units units g :
  0 < overlapTokens options ->
  Forall (fun u => SemanticUnit.tokenCount u <= maxTokens options) units ->
  GChain options g -> GChain options (fold_left (groupUnit options) units g).
Proof.
  intros Ho. revert g. induction units as [| u units IH]; intros g Hs H;
    [exact H |].
  inversion Hs; subst. cbn [fold_left].
  apply IH; [assumption |]. apply GChain_unit; assumption.
Qed.

(** When no unit exceeds [maxTokens], every array given to [buildChunk]
    after the first starts with the overlap of the one before it. *)
Lemma assembleGroups_chained units :
  0 < overlapTokens options ->
  Forall (fun u => SemanticUnit.tokenCount u <= maxTokens options) units ->
  Chained options (assembleGroups units options).
Proof.
  intros Ho Hs. unfold assembleGroups. cbv zeta.
  destruct (GChain_units units {| closed := []; running := [] |} Ho Hs)
    as [Hc He].
  { split; [constructor | reflexivity]. }
  destruct (nonEmpty _); [exact Hc |].
  eapply Chained_init. exact Hc.
Qed.

End Overlap.

End AssemblyFacts.

(** ** Texts that are not blank *)

Module InkFacts.
Import JS Types Chunking Invariants StringFacts AssemblyFacts.

Lemma hasInk_app a b : hasInk (a ++ b) = (hasInk a || hasInk b)%bool.
Proof. unfold hasInk. apply existsb_app. Qed.

Lemma hasInk_rev s : hasInk (rev s) = hasInk s.
Proof.
  induction s as [| c s IH]; [reflexivity |].
  cbn [rev]. rewrite hasInk_app, IH. cbn [hasInk existsb].
  rewrite orb_false_r. apply orb_comm.
Qed.

Lemma EndsInk_hasInk s : EndsInk s -> hasInk s = true.
Proof.
  intros (s' & c & -> & Hc). rewrite hasInk_app. cbn [hasInk existsb].
  rewrite Hc. cbn. apply orb_true_r.
Qed.

Lemma EndsInk_app a b : EndsInk b -> EndsInk (a ++ b).
Proof.
  intros (s' & c & -> & Hc). exists (a ++ s'), c.
  rewrite app_assoc. split; [reflexivity | exact Hc].
Qed.

Lemma EndsInk_cons c s : s <> [] -> EndsInk s -> EndsInk (c :: s).
Proof. intros _ H. apply (EndsInk_app [c] s H). Qed.

Lemma EndsInk_tail c s : s <> [] -> EndsInk (c :: s) -> EndsInk s.
Proof.
  intros Hs (s' & d & E & Hd). destruct s' as [| x s'].
  - cbn in E. inversion E. subst. congruence.
  - cbn in E. inversion E. subst. exists s', d. split; [reflexivity | exact Hd].
Qed.

Lemma EndsInk_skipn n s :
  (n < List.length s)%nat -> EndsInk s -> EndsInk (skipn n s).
Proof.
  revert s. induction n as [| n IH]; intros s Hn H; [exact H |].
  destruct s as [| c s]; [cbn in Hn; lia |].
  cbn [skipn]. cbn [List.length] in Hn. apply IH; [lia |].
  apply (EndsInk_tail c); [| exact H]. destruct s; [cbn in Hn; lia | discriminate].
Qed.

Lemma EndsInk_last_blank s :
  EndsInk s -> forallb isWhiteSpace s = true -> False.
Proof.
  intros (s' & c & -> & Hc) H. rewrite forallb_app in H.
  apply andb_true_iff in H. destruct H as [_ H]. cbn in H.
  rewrite Hc in H. discriminate.
Qed.

(** *** [trim] *)

Lemma trimStart_blank s : hasInk s = false -> trimStart s = [].
Proof.
  induction s as [| c s IH]; [reflexivity |].
  cbn [hasInk existsb trimStart]. intros H. apply orb_false_iff in H.
  destruct H as [Hc H]. apply negb_false_iff in Hc. rewrite Hc. apply IH, H.
Qed.

Lemma trimStart_ink s :
  hasInk s = true ->
  exists c r, trimStart s = c :: r /\ isWhiteSpace c = false
              /\ hasInk (c :: r) = true.
Proof.
  induction s as [| c s IH]; [discriminate |].
  cbn [hasInk existsb trimStart]. intros H.
  destruct (isWhiteSpace c) eqn:Hc.
  - cbn in H. apply IH, H.
  - exists c, s. split; [reflexivity |]. split; [exact Hc |].
    cbn [hasInk existsb]. rewrite Hc. reflexivity.
Qed.

Lemma trimStart_hasInk s : hasInk (trimStart s) = hasInk s.
Proof.
  induction s as [| c s IH]; [reflexivity |].
  cbn [trimStart]. destruct (isWhiteSpace c) eqn:Hc; [| reflexivity].
  rewrite IH. cbn [hasInk existsb]. rewrite Hc. reflexivity.
Qed.

Lemma trim_hasInk s : hasInk (trim s) = hasInk s.
Proof.
  unfold trim, trimEnd. rewrite !rev'_rev, hasInk_rev, trimStart_hasInk,
    hasInk_rev. apply trimStart_hasInk.
Qed.

Lemma isBlank_hasInk s : isBlank s = negb (hasInk s).
Proof.
  unfold isBlank. rewrite <- (trim_hasInk s). unfold trim, trimEnd.
  rewrite !rev'_rev.
  destruct (hasInk (rev (trimStart s))) eqn:E.
  - destruct (trimStart_ink _ E) as (c & r & -> & Hc & Hi).
    rewrite hasInk_rev, Hi. cbn [rev]. destruct (rev r); reflexivity.
  - rewrite (trimStart_blank _ E). reflexivity.
Qed.

Lemma trim_EndsInk s : hasInk s = true -> EndsInk (trim s).
Proof.
  intros H. unfold trim, trimEnd. rewrite !rev'_rev.
  assert (E : hasInk (rev (trimStart s)) = true)
    by (rewrite hasInk_rev, trimStart_hasInk; exact H).
  destruct (trimStart_ink _ E) as (c & r & -> & Hc & _).
  cbn [rev]. exists (rev r), c. split; [reflexivity | exact Hc].
Qed.

Lemma trimStart_snoc l c :
  isWhiteSpace c = false -> trimStart (l ++ [c]) = trimStart l ++ [c].
Proof.
  intros Hc. induction l as [| x l IH]; cbn [app trimStart].
  - rewrite Hc. reflexivity.
  - destruct (isWhiteSpace x); [exact IH | reflexivity].
Qed.

Lemma trim_StartsInk s : hasInk s = true -> StartsInk (trim s).
Proof.
  intros H. unfold trim, trimEnd. rewrite !rev'_rev.
  destruct (trimStart_ink s H) as (c & r & -> & Hc & _).
  cbn [rev]. rewrite (trimStart_snoc _ _ Hc), rev_app_distr. cbn [rev app].
  exists c, (rev (trimStart (rev r))). split; [reflexivity | exact Hc].
Qed.

Lemma trim_Trimmed s : hasInk s = true -> Trimmed (trim s).
Proof. intros H. split; [apply trim_StartsInk | apply trim_EndsInk]; exact H. Qed.

(** [trim] leaves a trimmed text as it is. *)
Lemma trim_id s : Trimmed s -> trim s = s.
Proof.
  intros [(c & r & -> & Hc) (s' & d & E & Hd)].
  unfold trim, trimEnd. rewrite !rev'_rev. cbn [trimStart]. rewrite Hc.
  rewrite E, rev_app_distr. cbn [rev app trimStart]. rewrite Hd.
  change (d :: rev s') with (rev [d] ++ rev s').
  rewrite <- rev_app_distr. apply rev_involutive.
Qed.

Lemma len_trim_hasInk s : (len (trim s) =? 0) = negb (hasInk s).
Proof.
  rewrite <- isBlank_hasInk. unfold isBlank, len.
  destruct (trim s); reflexivity.
Qed.

(** *** Replacement *)

Lemma replaceGo_past m n prev s :
  (List.length s <= n)%nat -> replaceGo m n prev s = [].
Proof.
  revert n prev. induction s as [| c s IH]; intros n prev H; [reflexivity |].
  destruct n as [| n]; [cbn in H; lia |].
  cbn [replaceGo]. apply IH. cbn in H. lia.
Qed.

Lemma replaceGo_skipn m n prev s :
  (n < List.length s)%nat ->
  exists prev', replaceGo m n prev s = replaceGo m 0 prev' (skipn n s).
Proof.
  revert n prev. induction s as [| c s IH]; intros n prev H; [cbn in H; lia |].
  destruct n as [| n]; [exists prev; reflexivity |].
  cbn [replaceGo skipn]. apply IH. cbn in H. lia.
Qed.

(** A replacement that writes ink leaves ink at the end of a text that
    ends with ink. *)
Lemma replaceGo_EndsInk m :
  WritesInk m ->
  forall k s prev, (List.length s <= k)%nat -> EndsInk s ->
    EndsInk (replaceGo m 0 prev s).
Proof.
  intros Hm. induction k as [| k IH]; intros s prev Hk Hs.
  - destruct s; [| cbn in Hk; lia].
    destruct Hs as (s' & c & E & _). destruct s'; discriminate.
  - destruct s as [| c s].
    { destruct Hs as (s' & d & E & _). destruct s'; discriminate. }
    cbn [List.length] in Hk. cbn [replaceGo].
    assert (Hcopy : EndsInk (c :: replaceGo m 0 (Some c) s)).
    { destruct s as [| d s].
      - cbn [replaceGo]. exact Hs.
      - apply (EndsInk_app [c]). apply IH; [cbn [List.length] in *; lia |].
        apply (EndsInk_tail c); [discriminate | exact Hs]. }
    destruct (m prev (c :: s)) as [[[| n] r] |] eqn:E; try exact Hcopy.
    pose proof (Hm _ _ _ _ E) as Hr.
    destruct (Nat.le_gt_cases (List.length s) n) as [Hn | Hn].
    + rewrite (replaceGo_past m n _ s Hn), app_nil_r. exact Hr.
    + destruct (replaceGo_skipn m n (Some c) s Hn) as [prev' ->].
      apply EndsInk_app. apply IH.
      * rewrite length_skipn. lia.
      * apply EndsInk_skipn; [exact Hn |].
        apply (EndsInk_tail c); [| exact Hs]. destruct s; [cbn in Hn; lia | discriminate].
Qed.

Lemma replaceAll_EndsInk m s :
  WritesInk m -> EndsInk s -> EndsInk (replaceAll m s).
Proof.
  intros Hm Hs. apply (replaceGo_EndsInk m Hm (List.length s)); [lia | exact Hs].
Qed.

(** A replacement of white space by anything keeps the ink of the text. *)
Lemma replaceGo_hasInk m :
  MatchesBlanks m ->
  forall s n prev,
    forallb isWhiteSpace (firstn n s) = true -> hasInk s = true ->
    hasInk (replaceGo m n prev s) = true.
Proof.
  intros Hm. induction s as [| c s IH]; intros n prev Hn Hs; [discriminate |].
  destruct n as [| n].
  - cbn [replaceGo].
    assert (Hcopy : hasInk (c :: replaceGo m 0 (Some c) s) = true).
    { cbn [hasInk existsb] in *. destruct (isWhiteSpace c); [| reflexivity].
      cbn in *. apply IH; [reflexivity | exact Hs]. }
    destruct (m prev (c :: s)) as [[[| k] r] |] eqn:E; try exact Hcopy.
    pose proof (Hm _ _ _ _ E) as Hb. cbn [firstn forallb] in Hb.
    apply andb_true_iff in Hb. destruct Hb as [Hc Hb].
    rewrite hasInk_app. apply orb_true_iff. right.
    apply IH; [exact Hb |].
    cbn [hasInk existsb] in Hs. rewrite Hc in Hs. exact Hs.
  - cbn [replaceGo]. cbn [firstn forallb] in Hn.
    apply andb_true_iff in Hn. destruct Hn as [Hc Hn].
    apply IH; [exact Hn |].
    cbn [hasInk existsb] in Hs. rewrite Hc in Hs. exact Hs.
Qed.

Lemma replaceAll_hasInk m s :
  MatchesBlanks m -> hasInk s = true -> hasInk (replaceAll m s) = true.
Proof. intros Hm Hs. apply replaceGo_hasInk; [exact Hm | reflexivity | exact Hs]. Qed.

(** *** The patterns of [normalizeText] *)

Lemma spanLen_firstn p s : forallb p (firstn (spanLen p s) s) = true.
Proof.
  induction s as [| c s IH]; [reflexivity |].
  cbn [spanLen]. destruct (p c) eqn:E; [| reflexivity].
  cbn [firstn forallb]. rewrite E, IH. reflexivity.
Qed.

Lemma reCrLf_blanks : MatchesBlanks reCrLf.
Proof.
  intros prev s n r. unfold reCrLf.
  destruct s as [| a [| b s]]; cbn [startsWith]; try discriminate.
  - destruct (N.eqb 13 a); discriminate.
  - destruct (N.eqb 13 a) eqn:Ea; [| discriminate].
    destruct (N.eqb 10 b) eqn:Eb; [| discriminate].
    cbn. intros H. inversion H; subst.
    apply N.eqb_eq in Ea, Eb. subst. reflexivity.
Qed.

Lemma reCr_blanks : MatchesBlanks reCr.
Proof.
  intros prev s n r. unfold reCr.
  destruct s as [| a s]; cbn [startsWith]; try discriminate.
  destruct (N.eqb 13 a) eqn:Ea; [| discriminate].
  cbn. intros H. inversion H; subst.
  apply N.eqb_eq in Ea. subst. reflexivity.
Qed.

Lemma reNewlines3_blanks : MatchesBlanks reNewlines3.
Proof.
  intros prev s n r. unfold reNewlines3. cbv zeta.
  destruct (Nat.leb 3 _); [| discriminate].
  intros H. inversion H; subst.
  eapply forallb_weaken; [| apply spanLen_firstn].
  intros c Hc. apply N.eqb_eq in Hc. subst. reflexivity.
Qed.

Lemma reSpacesTabs_blanks : MatchesBlanks reSpacesTabs.
Proof.
  intros prev s n r. unfold reSpacesTabs. cbv zeta.
  destruct (Nat.leb 1 _); [| discriminate].
  intros H. inversion H; subst.
  eapply forallb_weaken; [| apply spanLen_firstn].
  intros c Hc. unfold isSpaceOrTab in Hc. apply orb_true_iff in Hc.
  destruct Hc as [Hc | Hc]; apply N.eqb_eq in Hc; subst; reflexivity.
Qed.

(** A text that is not blank is not blank once normalized, and ends with a
    character that is no white space. *)
Lemma normalizeText_EndsInk text :
  hasInk text = true -> EndsInk (normalizeText text).
Proof.
  intros H. unfold normalizeText. apply trim_EndsInk.
  apply replaceAll_hasInk; [exact reSpacesTabs_blanks |].
  apply replaceAll_hasInk; [exact reNewlines3_blanks |].
  apply replaceAll_hasInk; [exact reCr_blanks |].
  apply replaceAll_hasInk; [exact reCrLf_blanks | exact H].
Qed.

(** *** The patterns of [splitIntoSentences] *)

Lemma dotMarker_EndsInk : EndsInk dotMarker.
Proof. exists (str "<!DOT!"), 62%N. split; reflexivity. Qed.

Lemma reAbbreviation_ink : WritesInk reAbbreviation.
Proof.
  intros prev s n r. unfold reAbbreviation.
  destruct (xorb _ _); [| discriminate].
  generalize abbreviations. intros alts.
  induction alts as [| a alts IH]; cbn [firstAbbreviation]; [discriminate |].
  destruct (matchAbbreviation a s) as [[abbr [| d rest]] |]; try exact IH.
  destruct (N.eqb_spec d 46) as [-> | Hd].
  - intros H. inversion H; subst. apply EndsInk_app, dotMarker_EndsInk.
  - destruct d as [| p]; try exact IH.
    repeat (destruct p as [p | p |]; try exact IH). congruence.
Qed.

Lemma reDotMarker_ink : WritesInk reDotMarker.
Proof.
  intros prev s n r. unfold reDotMarker.
  destruct (startsWith dotMarker s); [| discriminate].
  intros H. inversion H; subst. exists [], 46%N. split; reflexivity.
Qed.

(** *** Pieces *)

(** The last character of a sentence separator is white space. *)
Lemma sepSentenceEnd_ends_blank s k :
  sepSentenceEnd s = S k ->
  (S k <= List.length s)%nat
  /\ exists c, nth_error s k = Some c /\ isWhiteSpace c = true.
Proof.
  unfold sepSentenceEnd. cbv zeta.
  destruct (spanLen isSentenceEnd s) as [| n] eqn:En; [discriminate |].
  destruct (spanLen isWhiteSpace (skipn (S n) s)) as [| w'] eqn:Ew;
    [discriminate |].
  intros H. assert (Hk : k = (S n + w')%nat) by lia. subst k. clear H.
  assert (Hn : (S n <= List.length s)%nat).
  { rewrite <- En. apply spanLen_le. }
  assert (Hw : (S w' <= List.length (skipn (S n) s))%nat).
  { rewrite <- Ew. apply spanLen_le. }
  rewrite length_skipn in Hw.
  split; [lia |].
  assert (Hb : forallb isWhiteSpace (firstn (S w') (skipn (S n) s)) = true).
  { rewrite <- Ew. apply spanLen_firstn. }
  rewrite <- nth_error_skipn.
  destruct (nth_error (skipn (S n) s) w') as [c |] eqn:Ec.
  - exists c. split; [reflexivity |].
    rewrite forallb_forall in Hb. apply Hb.
    rewrite <- (firstn_skipn (S w') (skipn (S n) s)) in Ec.
    rewrite nth_error_app1 in Ec by (rewrite length_firstn, length_skipn; lia).
    eapply nth_error_In. exact Ec.
  - apply nth_error_None in Ec. rewrite length_skipn in Ec. lia.
Qed.

Lemma EndsInk_nth s :
  EndsInk s ->
  exists c, nth_error s (pred (List.length s)) = Some c
            /\ isWhiteSpace c = false.
Proof.
  intros (s' & c & -> & Hc). exists c. split; [| exact Hc].
  rewrite length_app. cbn [List.length].
  replace (pred (List.length s' + 1)) with (List.length s') by lia.
  rewrite nth_error_app2 by lia. rewrite Nat.sub_diag. reflexivity.
Qed.

Lemma splitGo_not_nil sep skip cur s : splitGo sep skip cur s <> [].
Proof.
  revert skip cur. induction s as [| c s IH]; intros skip cur;
    cbn [splitGo]; [discriminate |].
  destruct skip; [| apply IH].
  destruct (sep (c :: s)); [apply IH | discriminate].
Qed.

Lemma EndsInk_suffix a b : b <> [] -> EndsInk (a ++ b) -> EndsInk b.
Proof.
  intros Hb. induction a as [| x a IH]; intros H; [exact H |].
  apply IH. apply (EndsInk_tail x); [| exact H].
  destruct a; [exact Hb | discriminate].
Qed.

(** The last sentence of a text that ends with ink ends with ink. *)
Lemma splitGo_last_EndsInk k :
  forall s cur, (List.length s <= k)%nat ->
    EndsInk (rev cur ++ s) ->
    EndsInk (last (splitGo sepSentenceEnd 0 cur s) []).
Proof.
  induction k as [| k IH]; intros s cur Hk H.
  - destruct s; [| cbn in Hk; lia].
    cbn [splitGo last]. rewrite rev'_rev. rewrite app_nil_r in H. exact H.
  - destruct s as [| c s].
    { cbn [splitGo last]. rewrite rev'_rev. rewrite app_nil_r in H. exact H. }
    cbn [List.length] in Hk. cbn [splitGo].
    destruct (sepSentenceEnd (c :: s)) as [| n] eqn:E.
    + apply IH; [lia |]. cbn [rev]. rewrite <- app_assoc. exact H.
    + destruct (sepSentenceEnd_ends_blank _ _ E) as (Hl & d & Hd & Hw).
      cbn [List.length] in Hl.
      assert (Hs : EndsInk (c :: s))
        by (apply (EndsInk_suffix (rev cur)); [discriminate | exact H]).
      assert (Hn : (n < List.length s)%nat).
      { destruct (Nat.eq_dec n (List.length s)) as [-> | Hne]; [| lia].
        exfalso. destruct (EndsInk_nth _ Hs) as (x & Hx & Hxi).
        cbn [List.length pred] in Hx. congruence. }
      rewrite splitGo_skip.
      pose proof (splitGo_not_nil sepSentenceEnd 0 [] (skipn n s)) as Hne.
      destruct (splitGo sepSentenceEnd 0 [] (skipn n s)) as [| q ql] eqn:Eq;
        [congruence |].
      change (last (rev' cur :: q :: ql) []) with (last (q :: ql) []).
      rewrite <- Eq. apply IH; [rewrite length_skipn; lia |].
      cbn [rev app]. apply EndsInk_skipn; [exact Hn |].
      apply (EndsInk_tail c); [| exact Hs].
      destruct s; [cbn in Hn; lia | discriminate].
Qed.

Lemma splitIntoSentences_not_nil text :
  EndsInk text -> splitIntoSentences text <> [].
Proof.
  intros H. unfold splitIntoSentences. cbv zeta.
  set (processed := replaceAll reAbbreviation text).
  assert (Hp : EndsInk processed)
    by (apply replaceAll_EndsInk; [exact reAbbreviation_ink | exact H]).
  pose proof (splitGo_last_EndsInk (List.length processed) processed []
                (Nat.le_refl _) Hp) as Hlast.
  fold (split sepSentenceEnd processed) in Hlast.
  destruct (split sepSentenceEnd processed) as [| q ql] eqn:Eq.
  { destruct Hlast as (s' & c & E & _). destruct s'; discriminate. }
  assert (Hin : In (last (q :: ql) []) (q :: ql)).
  { destruct (exists_last (l := q :: ql)) as (l' & a & ->); [discriminate |].
    rewrite last_last. apply in_or_app. right. left. reflexivity. }
  set (z := last (q :: ql) []) in *.
  assert (Hz : In (replaceAll reDotMarker z)
                  (filter (fun sentence => negb (isBlank sentence))
                     (map (replaceAll reDotMarker) (q :: ql)))).
  { apply filter_In. split; [apply in_map, Hin |].
    rewrite isBlank_hasInk, negb_involutive. apply EndsInk_hasInk.
    apply replaceAll_EndsInk; [exact reDotMarker_ink | exact Hlast]. }
  intros E. rewrite E in Hz. destruct Hz.
Qed.

(** *** Paragraphs *)

Lemma sepParagraph_blanks s n :
  sepParagraph s = n -> forallb isWhiteSpace (firstn n s) = true.
Proof.
  unfold sepParagraph. cbv zeta. destruct (Nat.leb 2 _).
  - intros <-. eapply forallb_weaken; [| apply spanLen_firstn].
    intros c Hc. apply N.eqb_eq in Hc. subst. reflexivity.
  - intros <-. reflexivity.
Qed.

(** Some paragraph of a text with ink has ink. *)
Lemma splitGo_hasInk s :
  forall skip cur,
    forallb isWhiteSpace (firstn skip s) = true ->
    (hasInk cur || hasInk s)%bool = true ->
    existsb hasInk (splitGo sepParagraph skip cur s) = true.
Proof.
  induction s as [| c s IH]; intros skip cur Hskip H.
  - cbn [splitGo existsb]. rewrite rev'_rev, hasInk_rev.
    cbn [hasInk existsb] in H. rewrite orb_false_r in H. rewrite H. reflexivity.
  - cbn [splitGo]. destruct skip as [| skip].
    + destruct (sepParagraph (c :: s)) as [| n] eqn:E.
      * apply IH; [reflexivity |].
        change (hasInk (c :: cur))
          with (negb (isWhiteSpace c) || hasInk cur)%bool.
        change (hasInk (c :: s))
          with (negb (isWhiteSpace c) || hasInk s)%bool in H.
        destruct (negb (isWhiteSpace c)), (hasInk cur), (hasInk s);
          try reflexivity; discriminate H.
      * cbn [existsb]. rewrite rev'_rev, hasInk_rev.
        destruct (hasInk cur); [reflexivity |]. cbn [orb] in *.
        pose proof (sepParagraph_blanks _ _ E) as Hb.
        cbn [firstn forallb] in Hb. apply andb_true_iff in Hb.
        destruct Hb as [Hc Hb].
        apply IH; [exact Hb |].
        cbn [hasInk existsb] in H. rewrite Hc in H. exact H.
    + cbn [firstn forallb] in Hskip. apply andb_true_iff in Hskip.
      destruct Hskip as [Hc Hskip].
      apply IH; [exact Hskip |].
      cbn [hasInk existsb] in H. rewrite Hc in H. exact H.
Qed.

(** *** The loop of [splitIntoSemanticUnits] *)

Lemma pushSentence_grows acc sentence :
  exists new,
    fst (pushSentence acc sentence) = fst acc ++ new
    /\ Inked new
    /\ (isBlank sentence = false -> new <> []).
Proof.
  destruct acc as [units position]. unfold pushSentence.
  destruct (isBlank sentence) eqn:E.
  - exists []. cbn [fst]. rewrite app_nil_r.
    split; [reflexivity |]. split; [constructor | discriminate].
  - eexists. cbn [fst]. split; [reflexivity |]. split; [| discriminate].
    constructor; [| constructor]. cbn [SemanticUnit.content].
    apply trim_Trimmed. rewrite isBlank_hasInk in E.
    apply negb_false_iff in E. exact E.
Qed.

Lemma pushSentences_grow sentences :
  forall acc,
    exists new,
      fst (fold_left pushSentence sentences acc) = fst acc ++ new
      /\ Inked new
      /\ (existsb (fun q => negb (isBlank q)) sentences = true -> new <> []).
Proof.
  induction sentences as [| q l IH]; intros acc.
  - exists []. cbn [fold_left]. rewrite app_nil_r.
    split; [reflexivity |]. split; [constructor | discriminate].
  - cbn [fold_left].
    destruct (pushSentence_grows acc q) as (n1 & E1 & I1 & N1).
    destruct (IH (pushSentence acc q)) as (n2 & E2 & I2 & N2).
    exists (n1 ++ n2). rewrite E2, E1, app_assoc.
    split; [reflexivity |]. split; [apply Forall_app; split; assumption |].
    cbn [existsb]. intros H. apply orb_true_iff in H. destruct H as [H | H].
    + apply negb_true_iff in H. specialize (N1 H).
      destruct n1; [congruence | discriminate].
    + specialize (N2 H). destruct n1; [exact N2 | discriminate].
Qed.

Lemma splitIntoSentences_some_ink text :
  EndsInk text ->
  existsb (fun q => negb (isBlank q)) (splitIntoSentences text) = true.
Proof.
  intros H. pose proof (splitIntoSentences_not_nil text H) as Hne.
  destruct (splitIntoSentences text) as [| q l] eqn:E; [congruence |].
  assert (Hq : In q (splitIntoSentences text)) by (rewrite E; left; reflexivity).
  unfold splitIntoSentences in Hq. cbv zeta in Hq.
  apply filter_In in Hq. destruct Hq as [_ Hq].
  cbn [existsb]. rewrite Hq. reflexivity.
Qed.

Lemma pushParagraph_grows this acc p :
  exists new,
    fst (pushParagraph this acc p) = fst acc ++ new
    /\ Inked new
    /\ (hasInk p = true -> new <> []).
Proof.
  destruct acc as [units position]. unfold pushParagraph.
  rewrite isBlank_hasInk. destruct (hasInk p) eqn:E; cbn [negb].
  - cbv zeta. destruct (_ && _)%bool.
    + destruct (pushSentences_grow (splitIntoSentences (trim p))
                  (units, position)) as (new & E1 & I1 & N1).
      exists new. split; [exact E1 |]. split; [exact I1 |].
      intros _. apply N1. apply splitIntoSentences_some_ink.
      apply trim_EndsInk, E.
    + eexists. cbn [fst]. split; [reflexivity |]. split; [| discriminate].
      constructor; [| constructor]. cbn [SemanticUnit.content].
      apply trim_Trimmed, E.
  - exists []. cbn [fst]. rewrite app_nil_r.
    split; [reflexivity |]. split; [constructor | discriminate].
Qed.

Lemma pushParagraphs_grow this paragraphs :
  forall acc,
    exists new,
      fst (fold_left (pushParagraph this) paragraphs acc) = fst acc ++ new
      /\ Inked new
      /\ (existsb hasInk paragraphs = true -> new <> []).
Proof.
  induction paragraphs as [| p l IH]; intros acc.
  - exists []. cbn [fold_left]. rewrite app_nil_r.
    split; [reflexivity |]. split; [constructor | discriminate].
  - cbn [fold_left].
    destruct (pushParagraph_grows this acc p) as (n1 & E1 & I1 & N1).
    destruct (IH (pushParagraph this acc p)) as (n2 & E2 & I2 & N2).
    exists (n1 ++ n2). rewrite E2, E1, app_assoc.
    split; [reflexivity |]. split; [apply Forall_app; split; assumption |].
    cbn [existsb]. intros H. apply orb_true_iff in H. destruct H as [H | H].
    + specialize (N1 H). destruct n1; [congruence | discriminate].
    + specialize (N2 H). destruct n1; [exact N2 | discriminate].
Qed.

(** A text that is not blank has a semantic unit, and the content of every
    unit ends with ink. *)
Lemma semanticUnitsOf_inked this text :
  hasInk text = true ->
  semanticUnitsOf this text <> [] /\ Inked (semanticUnitsOf this text).
Proof.
  intros H. unfold semanticUnitsOf, splitIntoSemanticUnits.
  destruct (pushParagraphs_grow this (split sepParagraph (normalizeText text))
              ([], 0)) as (new & E & I & N).
  rewrite E. cbn [fst app]. split; [| exact I].
  apply N. unfold split. apply splitGo_hasInk; [reflexivity |].
  cbn [hasInk existsb orb]. apply EndsInk_hasInk, normalizeText_EndsInk, H.
Qed.

(** *** The loop of [createChunks] *)

Lemma splitStep_content unit maxTokens st sentence :
  sentence <> [] ->
  currentContent (splitStep unit maxTokens st sentence) <> [].
Proof.
  intros Hs. unfold splitStep. cbv zeta.
  destruct (_ && _)%bool; cbn [currentContent]; [exact Hs |].
  destruct (currentContent st); [| discriminate].
  cbn [nonEmpty app]. exact Hs.
Qed.

Lemma splitLargeUnit_not_nil unit maxTokens :
  EndsInk (SemanticUnit.content unit) -> splitLargeUnit unit maxTokens <> [].
Proof.
  intros H. unfold splitLargeUnit. cbv zeta.
  pose proof (splitIntoSentences_not_nil _ H) as Hne.
  assert (Hall : Forall (fun q => q <> []) (splitIntoSentences
                                             (SemanticUnit.content unit))).
  { apply Forall_forall. intros q Hq. unfold splitIntoSentences in Hq.
    cbv zeta in Hq. apply filter_In in Hq. destruct Hq as [_ Hq].
    intros ->. discriminate Hq. }
  destruct (exists_last Hne) as (l & q & E). rewrite E in *.
  rewrite fold_left_app. cbn [fold_left].
  apply Forall_app in Hall. destruct Hall as [_ Hq]. inversion Hq; subst.
  match goal with
  | |- context [splitStep unit maxTokens ?st q] =>
      pose proof (splitStep_content unit maxTokens st q H2) as Hc;
      destruct (currentContent (splitStep unit maxTokens st q)) eqn:Ec;
      [congruence |]
  end.
  cbn [nonEmpty]. destruct (splitUnits _); discriminate.
Qed.

Lemma snoc_not_nil {A} (l : list A) (x : A) : l ++ [x] <> [].
Proof. destruct l; discriminate. Qed.

Lemma groupSplitUnit_running options g p :
  running (groupSplitUnit options g p) <> [].
Proof.
  unfold groupSplitUnit. cbv zeta. unfold groupPush. cbn [running].
  apply snoc_not_nil.
Qed.

Lemma groupUnit_running options g u :
  EndsInk (SemanticUnit.content u) -> running (groupUnit options g u) <> [].
Proof.
  intros H. unfold groupUnit. cbv zeta.
  destruct (SemanticUnit.tokenCount u >? maxTokens options).
  - pose proof (splitLargeUnit_not_nil u (maxTokens options) H) as Hne.
    destruct (exists_last Hne) as (l & p & ->).
    rewrite fold_left_app. cbn [fold_left]. apply groupSplitUnit_running.
  - unfold groupPush. cbn [running]. apply snoc_not_nil.
Qed.

(** Units whose contents end with ink fill at least one chunk. *)
Lemma assembleGroups_not_nil units options :
  units <> [] -> Inked units -> assembleGroups units options <> [].
Proof.
  intros Hne Hi. unfold assembleGroups. cbv zeta.
  destruct (exists_last Hne) as (l & u & ->).
  apply Forall_app in Hi. destruct Hi as [_ Hu]. inversion Hu; subst.
  rewrite fold_left_app. cbn [fold_left].
  match goal with
  | |- context [groupUnit options ?g u] =>
      pose proof (groupUnit_running options g u (proj2 H1)) as Hr;
      destruct (running (groupUnit options g u)) eqn:Er; [congruence |]
  end.
  cbn [nonEmpty]. destruct (closed _); discriminate.
Qed.

Lemma assembleChunks_not_nil this text options :
  hasInk text = true ->
  assembleChunks (semanticUnitsOf this text) options <> [].
Proof.
  intros H. destruct (semanticUnitsOf_inked this text H) as [Hne Hi].
  rewrite assembleChunks_groups.
  pose proof (assembleGroups_not_nil _ options Hne Hi) as Hg.
  destruct (assembleGroups _ _); [congruence | discriminate].
Qed.

(** *** The content of a chunk *)

Lemma startsWith_prefix_app a b : startsWith a (a ++ b) = true.
Proof.
  induction a as [| x a IH]; [reflexivity |].
  cbn [app startsWith]. rewrite N.eqb_refl, IH. reflexivity.
Qed.

Lemma endsWith_suffix_app a b : endsWith b (a ++ b) = true.
Proof.
  unfold endsWith. rewrite !rev'_rev, rev_app_distr.
  apply startsWith_prefix_app.
Qed.

Lemma join_cons sep x l :
  l <> [] -> join sep (x :: l) = x ++ sep ++ join sep l.
Proof. destruct l; [congruence | reflexivity]. Qed.

Lemma join_app sep a b :
  a <> [] -> b <> [] -> join sep (a ++ b) = join sep a ++ sep ++ join sep b.
Proof.
  intros Ha Hb. induction a as [| x a IH]; [congruence |].
  destruct a as [| y a].
  - cbn [app]. rewrite (join_cons sep x b Hb). reflexivity.
  - change ((x :: y :: a) ++ b) with (x :: ((y :: a) ++ b)).
    rewrite join_cons by discriminate.
    rewrite IH by discriminate.
    rewrite (join_cons sep x (y :: a)) by discriminate.
    rewrite <- !app_assoc. reflexivity.
Qed.

Lemma StartsInk_app a b : StartsInk a -> StartsInk (a ++ b).
Proof. intros (c & r & -> & Hc). exists c, (r ++ b). split; [reflexivity | exact Hc]. Qed.

(** The contents of units that are trimmed, joined, are trimmed. *)
Lemma join_Trimmed sep l :
  l <> [] -> Forall Trimmed l -> Trimmed (join sep l).
Proof.
  intros Hne H. induction H as [| x l Hx Hl IH]; [congruence |].
  destruct l as [| y l]; [exact Hx |].
  rewrite join_cons by discriminate.
  destruct (IH ltac:(discriminate)) as [_ He].
  split.
  - apply StartsInk_app, Hx.
  - apply EndsInk_app, EndsInk_app, He.
Qed.

Lemma Inked_contents units :
  Inked units -> Forall Trimmed (map SemanticUnit.content units).
Proof. intros H. apply Forall_map. exact H. Qed.

(** The content of a chunk made of trimmed units is the contents joined. *)
Lemma buildChunk_content units i :
  units <> [] -> Inked units ->
  DocumentChunk.content (buildChunk units i)
  = join [10; 10]%N (map SemanticUnit.content units).
Proof.
  intros Hne Hi. unfold buildChunk. cbv zeta. cbn [DocumentChunk.content].
  apply trim_id.
  apply (join_Trimmed (str (String "010" (String "010" EmptyString)))).
  - destruct units; [congruence | discriminate].
  - apply Inked_contents, Hi.
Qed.

Lemma createOverlap_not_nil units o :
  units <> [] -> 0 < o -> createOverlap units o <> [].
Proof.
  intros Hne Ho. unfold createOverlap.
  destruct (exists_last Hne) as (l & u & ->).
  rewrite rev_app_distr. cbn [rev app createOverlapGo].
  replace (0 <? o) with true by (symmetry; apply Z.ltb_lt; exact Ho).
  destruct (createOverlapGo_spec o (rev l) [u] (0 + SemanticUnit.tokenCount u))
    as [k ->].
  apply snoc_not_nil.
Qed.

(** The content of a chunk that starts with the overlap of another starts
    with the content of the overlap, and the other ends with it. *)
Lemma overlap_in_contents g g' o i j :
  0 < o -> g <> [] -> Inked g -> Inked g' ->
  (exists rest, rest <> [] /\ g' = createOverlap g o ++ rest) ->
  let carried := DocumentChunk.content (buildChunk (createOverlap g o) 0) in
  carried <> []
  /\ endsWith carried (DocumentChunk.content (buildChunk g i)) = true
  /\ startsWith carried (DocumentChunk.content (buildChunk g' j)) = true.
Proof.
  intros Ho Hne Hg Hg' (rest & Hrest & E) carried.
  pose proof (createOverlap_not_nil g o Hne Ho) as Hov.
  destruct (createOverlap_suffix g o) as [pre Hpre].
  assert (Hio : Inked (createOverlap g o)).
  { unfold Inked in *. rewrite Hpre in Hg. apply Forall_app in Hg. apply Hg. }
  assert (Hc : carried = join [10; 10]%N
                           (map SemanticUnit.content (createOverlap g o)))
    by (apply buildChunk_content; assumption).
  split; [| split].
  - rewrite Hc.
    destruct (join_Trimmed [10; 10]%N
                (map SemanticUnit.content (createOverlap g o)))
      as [(c & r & -> & _) _]; [| apply Inked_contents, Hio | discriminate].
    destruct (createOverlap g o); [congruence | discriminate].
  - rewrite (buildChunk_content g i Hne Hg), Hc.
    rewrite Hpre at 2. rewrite map_app.
    destruct pre as [| p pre]; [apply (endsWith_suffix_app []) |].
    rewrite join_app.
    + rewrite app_assoc. apply endsWith_suffix_app.
    + discriminate.
    + destruct (createOverlap g o); [congruence | discriminate].
  - assert (Hne' : g' <> []).
    { rewrite E. destruct (createOverlap g o); [congruence | discriminate]. }
    rewrite (buildChunk_content g' j Hne' Hg'), Hc, E, map_app.
    rewrite join_app.
    + apply startsWith_prefix_app.
    + destruct (createOverlap g o); [congruence | discriminate].
    + destruct rest; [congruence | discriminate].
Qed.

(** When no unit is cut, the units pushed are the semantic units. *)
Lemma pushedUnits_whole units options :
  Forall (fun u => SemanticUnit.tokenCount u <= maxTokens options) units ->
  pushedUnits units options = units.
Proof.
  intros H. unfold pushedUnits. induction H as [| u l Hu Hl IH]; [reflexivity |].
  cbn [flat_map]. rewrite IH.
  replace (SemanticUnit.tokenCount u >? maxTokens options) with false;
    [reflexivity |].
  symmetry. rewrite Z.gtb_ltb. apply Z.ltb_ge. exact Hu.
Qed.

Lemma Inked_segment grp D : Segment grp D -> Inked D -> Inked grp.
Proof.
  intros (pre & post & ->) H. unfold Inked in *.
  apply Forall_app in H. destruct H as [_ H].
  apply Forall_app in H. apply H.
Qed.

End InkFacts.

(** ** Positions of units and chunks *)

Module PositionFacts.
Import JS Types Chunking StringFacts AssemblyFacts Invariants.

Lemma Laid_bounds lo l hi : Laid lo l hi -> lo <= hi.
Proof.
  revert lo. induction l as [| d l IH]; intros lo H; [exact H |].
  destruct H as (H1 & _ & H3 & _). lia.
Qed.

Lemma Laid_weaken lo l hi lo' hi' :
  Laid lo l hi -> lo' <= lo -> hi <= hi' -> Laid lo' l hi'.
Proof.
  revert lo lo'. induction l as [| d l IH]; intros lo lo' H Hlo Hhi.
  - cbn in *. lia.
  - destruct H as (H1 & H2 & H3 & H4). cbn [Laid].
    repeat split; try lia. apply (IH _ _ H4); lia.
Qed.

Lemma Laid_app lo l1 mid l2 hi :
  Laid lo l1 mid -> Laid mid l2 hi -> Laid lo (l1 ++ l2) hi.
Proof.
  revert lo. induction l1 as [| d l1 IH]; intros lo H1 H2.
  - cbn in H1. cbn [app]. apply (Laid_weaken _ _ _ _ _ H2); lia.
  - destruct H1 as (K1 & K2 & K3 & K4). cbn [app Laid].
    pose proof (Laid_bounds _ _ _ H2). repeat split; try lia.
    apply IH; assumption.
Qed.

Lemma Laid_drop lo pre l hi :
  Laid lo (pre ++ l) hi -> exists lo', Laid lo' l hi.
Proof.
  revert lo. induction pre as [| d pre IH]; intros lo H.
  - exists lo. exact H.
  - destruct H as (_ & _ & _ & H). apply (IH _ H).
Qed.

Lemma Laid_take lo l post hi : Laid lo (l ++ post) hi -> Laid lo l hi.
Proof.
  revert lo. induction l as [| d l IH]; intros lo H.
  - cbn. apply (Laid_bounds _ _ _ H).
  - destruct H as (H1 & H2 & H3 & H4). cbn [Laid].
    repeat split; try assumption. apply IH. exact H4.
Qed.

Lemma Laid_segment lo D hi l :
  Laid lo D hi -> Segment l D -> exists lo', Laid lo' l hi.
Proof.
  intros H (pre & post & ->).
  destruct (Laid_drop _ _ _ _ H) as [lo' H'].
  exists lo'. apply (Laid_take _ _ _ _ H').
Qed.

Lemma Laid_last lo l d hi :
  Laid lo (l ++ [d]) hi ->
  lo <= SemanticUnit.startPosition d
  /\ SemanticUnit.startPosition d < SemanticUnit.endPosition d.
Proof.
  revert lo. induction l as [| c l IH]; intros lo H.
  - destruct H as (H1 & H2 & _). split; assumption.
  - destruct H as (H1 & _ & _ & H4). destruct (IH _ H4). split; [lia | assumption].
Qed.

(** A chunk built from such units ends after it starts. *)
Lemma buildChunk_positions lo l hi index :
  l <> [] -> Laid lo l hi ->
  DocumentChunk.startPosition (buildChunk l index)
  < DocumentChunk.endPosition (buildChunk l index).
Proof.
  intros Hne H. unfold buildChunk.
  cbn [DocumentChunk.startPosition DocumentChunk.endPosition].
  destruct (exists_last Hne) as (l' & d & ->).
  rewrite rev_app_distr. cbn [rev app].
  destruct (Laid_last _ _ _ _ H) as [H1 H2].
  destruct l' as [| c l']; cbn [app]; [exact H2 |].
  destruct H as (_ & _ & _ & H). destruct (Laid_last _ _ _ _ H). lia.
Qed.

Lemma Placed_bounds lo units hi : Placed lo units hi -> lo <= hi.
Proof.
  revert lo. induction units as [| u units IH]; intros lo H; [exact H |].
  destruct H as (H1 & H2 & _ & H4). apply IH in H4. lia.
Qed.

Lemma Placed_snoc lo units pos u hi :
  Placed lo units pos ->
  pos <= SemanticUnit.startPosition u ->
  SemanticUnit.startPosition u < SemanticUnit.endPosition u ->
  SemanticUnit.startPosition u + len (SemanticUnit.content u)
    <= SemanticUnit.endPosition u ->
  SemanticUnit.endPosition u <= hi ->
  Placed lo (units ++ [u]) hi.
Proof.
  revert lo. induction units as [| v units IH]; intros lo H H1 H2 H3 H4.
  - cbn in H. cbn [app Placed]. repeat split; lia.
  - destruct H as (K1 & K2 & K3 & K4). cbn [app Placed].
    repeat split; try assumption. apply IH; assumption.
Qed.

(** *** The pieces of a large unit *)

Lemma len_nonneg s : 0 <= len s.
Proof. unfold len. lia. Qed.

Lemma len_app a b : len (a ++ b) = len a + len b.
Proof. unfold len. rewrite length_app. lia. Qed.

Section Pieces.
Context (whole : SemanticUnit.t) (maxTokens : Z).

Lemma PiecesInv_step st sentence rest :
  sentence <> [] ->
  PiecesInv whole st (sentence :: rest) ->
  PiecesInv whole (splitStep whole maxTokens st sentence) rest.
Proof.
  intros Hne (HL & HQ & HE). rewrite cost_cons in HQ. unfold splitStep.
  pose proof (len_nonneg (currentContent st)) as Hcc.
  destruct (_ >? _); cbn [andb].
  - destruct (currentContent st) as [| c0 cc] eqn:Ecc; cbn [nonEmpty].
    + (* the first sentence *)
      destruct (HE eq_refl) as [Hp Hs]. split; [| split].
      * cbn [splitUnits startPos]. exact HL.
      * cbn [splitUnits startPos currentContent app nonEmpty].
        unfold len in *. cbn [List.length] in *. lia.
      * cbn [currentContent app nonEmpty]. intros K. congruence.
    + (* the running piece is closed *)
      assert (Hpos : 1 <= len (c0 :: cc)) by (unfold len; cbn [List.length]; lia).
      split; [| split].
      * cbn [splitUnits startPos]. eapply Laid_app; [exact HL |].
        cbn [Laid pieceOf SemanticUnit.startPosition SemanticUnit.endPosition
             startPos currentContent].
        rewrite Ecc. repeat split; lia.
      * cbn [splitUnits startPos currentContent].
        unfold len in *. cbn [List.length] in *. lia.
      * cbn [currentContent]. intros K. congruence.
  - split; [| split].
    + cbn [splitUnits startPos]. exact HL.
    + cbn [splitUnits startPos currentContent]. rewrite !len_app.
      destruct (nonEmpty (currentContent st));
        unfold len in *; cbn [List.length]; lia.
    + cbn [currentContent]. intros K.
      apply app_eq_nil in K. destruct K as [_ K].
      apply app_eq_nil in K. destruct K as [_ K]. congruence.
Qed.

Lemma PiecesInv_fold sentences st :
  Forall (fun s => s <> []) sentences ->
  PiecesInv whole st sentences ->
  PiecesInv whole (fold_left (splitStep whole maxTokens) sentences st) [].
Proof.
  revert st. induction sentences as [| s sentences IH]; intros st Hs H;
    [exact H |].
  inversion Hs; subst. cbn [fold_left].
  apply IH; [assumption |]. apply PiecesInv_step; assumption.
Qed.

(** The pieces start inside the whole they come from. *)
Lemma splitLargeUnit_laid :
  Laid (SemanticUnit.startPosition whole) (splitLargeUnit whole maxTokens)
       (SemanticUnit.startPosition whole + len (SemanticUnit.content whole)).
Proof.
  unfold splitLargeUnit. cbv zeta.
  set (sentences := splitIntoSentences (SemanticUnit.content whole)).
  set (st0 := {| splitUnits := []; currentContent := []; currentTokens := 0;
                 startPos := SemanticUnit.startPosition whole |}).
  assert (H0 : PiecesInv whole st0 sentences).
  { split; [| split].
    - cbn. lia.
    - cbn [startPos currentContent st0].
      pose proof (splitIntoSentences_cost (SemanticUnit.content whole)).
      fold sentences in H. unfold len. cbn [List.length]. lia.
    - intros _. split; reflexivity. }
  assert (Hs : Forall (fun s => s <> []) sentences).
  { apply Forall_forall. intros s Hin.
    apply splitIntoSentences_not_blank in Hin. intros ->. discriminate. }
  destruct (PiecesInv_fold sentences st0 Hs H0) as (HL & HQ & HE).
  set (st := fold_left (splitStep whole maxTokens) sentences st0) in *.
  pose proof (len_nonneg (SemanticUnit.content whole)) as Hc.
  cbn [cost map list_sum] in HQ.
  destruct (currentContent st) as [| c0 cc] eqn:Ecc; cbn [nonEmpty].
  - destruct (HE eq_refl) as [-> _]. cbn. lia.
  - assert (Hpos : 1 <= len (c0 :: cc)) by (unfold len; cbn [List.length]; lia).
    eapply Laid_app; [exact HL |].
    cbn [Laid pieceOf SemanticUnit.startPosition SemanticUnit.endPosition].
    rewrite Ecc. repeat split; lia.
Qed.

End Pieces.

(** *** The units of a text *)

Lemma Placed_pushSentence units position sentence :
  Placed 0 units position ->
  Placed 0 (fst (pushSentence (units, position) sentence))
           (snd (pushSentence (units, position) sentence)).
Proof.
  intros H. unfold pushSentence.
  destruct (isBlank sentence) eqn:E; [exact H |].
  cbn [fst snd].
  pose proof (not_blank_length _ E). pose proof (trim_length sentence).
  eapply Placed_snoc; [exact H | | | |];
    cbn [SemanticUnit.startPosition SemanticUnit.endPosition
         SemanticUnit.content]; unfold len; lia.
Qed.

Lemma Placed_sentences sentences acc :
  Placed 0 (fst acc) (snd acc) ->
  Placed 0 (fst (fold_left pushSentence sentences acc))
           (snd (fold_left pushSentence sentences acc)).
Proof.
  revert acc. induction sentences as [| s sentences IH]; intros acc H;
    [exact H |].
  cbn [fold_left]. apply IH. destruct acc as [units position].
  apply Placed_pushSentence. exact H.
Qed.

Lemma Placed_pushParagraph this acc paragraph_ :
  Placed 0 (fst acc) (snd acc) ->
  Placed 0 (fst (pushParagraph this acc paragraph_))
           (snd (pushParagraph this acc paragraph_)).
Proof.
  intros H. unfold pushParagraph. destruct acc as [units position].
  destruct (isBlank paragraph_) eqn:E; [exact H |].
  cbv zeta. destruct (_ && _)%bool.
  - apply Placed_sentences. exact H.
  - cbn [fst snd] in *. pose proof (not_blank_trim_length _ E).
    eapply Placed_snoc; [exact H | | | |];
      cbn [SemanticUnit.startPosition SemanticUnit.endPosition
           SemanticUnit.content]; unfold len; lia.
Qed.

Lemma splitIntoSemanticUnits_placed this text :
  exists hi, Placed 0 (splitIntoSemanticUnits this text) hi.
Proof.
  unfold splitIntoSemanticUnits.
  assert (H : forall paragraphs acc,
             Placed 0 (fst acc) (snd acc) ->
             Placed 0 (fst (fold_left (pushParagraph this) paragraphs acc))
                      (snd (fold_left (pushParagraph this) paragraphs acc))).
  { induction paragraphs as [| p paragraphs IH]; intros acc H; [exact H |].
    cbn [fold_left]. apply IH, Placed_pushParagraph, H. }
  eexists. apply H. cbn. lia.
Qed.

(** The pushed units of placed units start one after the other. *)
Lemma pushedUnits_laid options lo units hi :
  Placed lo units hi -> Laid lo (pushedUnits units options) hi.
Proof.
  unfold pushedUnits. revert lo.
  induction units as [| u units IH]; intros lo H; [exact H |].
  destruct H as (H1 & H2 & H3 & H4). cbn [flat_map].
  apply (Laid_app _ _ (SemanticUnit.endPosition u)); [| apply IH; exact H4].
  destruct (_ >? _).
  - eapply Laid_weaken; [apply splitLargeUnit_laid | lia | lia].
  - cbn [Laid]. repeat split; lia.
Qed.

(** Every chunk assembled from a text ends after it starts. *)
Lemma assembleChunks_positions this text options :
  Forall (fun c => DocumentChunk.startPosition c < DocumentChunk.endPosition c)
         (assembleChunks (semanticUnitsOf this text) options).
Proof.
  rewrite assembleChunks_groups.
  destruct (splitIntoSemanticUnits_placed this (normalizeText text)) as [hi H].
  apply (pushedUnits_laid options) in H. fold (semanticUnitsOf this text) in H.
  pose proof (assembleGroups_segments (semanticUnitsOf this text) options) as Hs.
  generalize 0.
  induction Hs as [| grp groups [Hne Hseg] _ IH]; intros i; [constructor |].
  cbn [buildFrom]. constructor; [| apply IH].
  destruct (Laid_segment _ _ _ _ H Hseg) as [lo' Hl].
  apply (buildChunk_positions lo' grp hi); assumption.
Qed.

End PositionFacts.

(** ** The chunking service: C5, C6, C7, C8 and C10 *)

Module ChunkingTheorems.
Import JS Types Chunking StringFacts AssemblyFacts InkFacts PositionFacts
  Invariants.

Lemma chunkDocument_not_blank this text options :
  (len (trim text) =? 0) = false ->
  chunkDocument this text options
  = Ret (createChunks (semanticUnitsOf this text) (spread this options)).
Proof.
  intros H. unfold chunkDocument. cbv zeta.
  destruct (_ || _)%bool eqn:E; [| reflexivity].
  apply orb_true_iff in E. destruct E as [E | E]; [| congruence].
  destruct text; [discriminate H | discriminate E].
Qed.

Lemma Forall_leb {A} (f : A -> Z) (m : Z) (l : list A) :
  forallb (fun x => f x <=? m) l = true -> Forall (fun x => f x <= m) l.
Proof.
  intros H. apply Forall_forall. intros x Hx.
  rewrite forallb_forall in H. apply Z.leb_le, H, Hx.
Qed.

Lemma filter_all {A} (f : A -> bool) (l : list A) :
  Forall (fun x => f x = true) l -> filter f l = l.
Proof.
  induction 1 as [| x l Hx _ IH]; [reflexivity |].
  cbn [filter]. rewrite Hx, IH. reflexivity.
Qed.

Lemma chunkDocument_Ret this text options chunks :
  chunkDocument this text options = Ret chunks ->
  chunks = createChunks (semanticUnitsOf this text) (spread this options).
Proof.
  unfold chunkDocument. cbv zeta.
  destruct (_ || _)%bool; [discriminate |].
  intros H. inversion H. reflexivity.
Qed.

Lemma createChunks_filter units options :
  createChunks units options
  = filter (kept options (assembleChunks units options))
           (assembleChunks units options).
Proof. reflexivity. Qed.

Lemma buildFrom_In i groups c :
  In c (buildFrom i groups) ->
  exists g k, In g groups /\ c = buildChunk g k /\ i <= k.
Proof.
  revert i. induction groups as [| g groups IH]; intros i H; [destruct H |].
  cbn [buildFrom] in H. destruct H as [<- | H].
  - exists g, i. split; [left; reflexivity |]. split; [reflexivity | lia].
  - destruct (IH _ H) as (g' & k & Hg & Hc & Hk).
    exists g', k. split; [right; exact Hg |]. split; [exact Hc | lia].
Qed.

Lemma buildFrom_nth_error i groups n g :
  nth_error groups n = Some g ->
  nth_error (buildFrom i groups) n = Some (buildChunk g (i + Z.of_nat n)).
Proof.
  revert i n. induction groups as [| x groups IH]; intros i n H.
  - destruct n; discriminate.
  - destruct n as [| n]; cbn [buildFrom nth_error] in *.
    + inversion H; subst. do 2 f_equal. lia.
    + rewrite (IH _ _ H). do 2 f_equal. lia.
Qed.

Lemma buildFrom_nth i groups n c :
  nth_error (buildFrom i groups) n = Some c ->
  DocumentChunk.index c = i + Z.of_nat n.
Proof.
  revert i n. induction groups as [| g groups IH]; intros i n H.
  - destruct n; discriminate.
  - destruct n as [| n]; cbn [buildFrom nth_error] in H.
    + inversion H; subst. cbn. lia.
    + rewrite (IH _ _ H). lia.
Qed.

Lemma buildFrom_sorted i groups : StronglySorted byIndex (buildFrom i groups).
Proof.
  revert i. induction groups as [| g groups IH]; intros i; [constructor |].
  cbn [buildFrom]. constructor; [apply IH |].
  apply Forall_forall. intros c Hc.
  destruct (buildFrom_In _ _ _ Hc) as (g' & k & _ & -> & Hk).
  unfold byIndex. cbn. lia.
Qed.

Lemma StronglySorted_filter {A} (R : A -> A -> Prop) f l :
  StronglySorted R l -> StronglySorted R (filter f l).
Proof.
  induction 1 as [| a l Hs IH Ha]; [constructor |].
  cbn [filter]. destruct (f a); [| exact IH].
  constructor; [exact IH |].
  apply Forall_forall. intros x Hx. apply filter_In in Hx.
  rewrite Forall_forall in Ha. apply Ha. apply Hx.
Qed.

Lemma StronglySorted_nth {A} (R : A -> A -> Prop) l i j a b :
  StronglySorted R l -> (i < j)%nat ->
  nth_error l i = Some a -> nth_error l j = Some b -> R a b.
Proof.
  intros H. revert i j. induction H as [| x l Hs IH Hx]; intros i j Hij Ha Hb.
  - destruct i; discriminate.
  - destruct j as [| j]; [lia |]. cbn [nth_error] in Hb.
    destruct i as [| i].
    + cbn in Ha. inversion Ha; subst. rewrite Forall_forall in Hx.
      apply Hx. eapply nth_error_In. exact Hb.
    + cbn [nth_error] in Ha. apply (IH i j); [lia | assumption | assumption].
Qed.

Lemma sorted_index_lower l lo i c :
  StronglySorted byIndex l ->
  Forall (fun x => lo <= DocumentChunk.index x) l ->
  nth_error l i = Some c -> lo + Z.of_nat i <= DocumentChunk.index c.
Proof.
  intros H. revert lo i. induction H as [| x l Hs IH Hx]; intros lo i Hlo Hc.
  - destruct i; discriminate.
  - inversion Hlo; subst. destruct i as [| i].
    + cbn in Hc. inversion Hc; subst. lia.
    + cbn [nth_error] in Hc.
      assert (K : lo + 1 + Z.of_nat i <= DocumentChunk.index c).
      { apply IH; [| exact Hc]. apply Forall_forall. intros y Hy.
        rewrite Forall_forall in Hx. specialize (Hx y Hy). unfold byIndex in Hx.
        lia. }
      lia.
Qed.

Lemma buildChunk_tokenCount g i :
  DocumentChunk.tokenCount (buildChunk g i) = sumTokens g.
Proof. reflexivity. Qed.

Lemma chunkDocument_Ret_ink this text options chunks :
  chunkDocument this text options = Ret chunks -> hasInk text = true.
Proof.
  unfold chunkDocument. cbv zeta.
  destruct (_ || _)%bool eqn:E; [discriminate |]. intros _.
  apply orb_false_iff in E. destruct E as [_ E].
  rewrite len_trim_hasInk in E. apply negb_false_iff in E. exact E.
Qed.

(** C5, amended.  For a text that is not blank, [chunkDocument] assembles at
    least one chunk and returns the assembled chunks without those below
    [minChunkSize], except that a chunk assembled alone is returned
    whatever its size: a chunk is dropped only when its token count is
    below [minChunkSize] and more than one chunk was assembled.  So at
    least one chunk is returned exactly when one chunk was assembled or
    some assembled chunk reaches [minChunkSize]. *)
Theorem C5_small_chunks_are_dropped_unless_alone
    (this : ChunkingOptions) (text : jsstring)
    (options : option PartialChunkingOptions) (chunks : list DocumentChunk.t) :
  chunkDocument this text options = Ret chunks ->
  let opts := spread this options in
  let assembled := assembleChunks (semanticUnitsOf this text) opts in
  assembled <> []
  /\ (List.length assembled = 1%nat -> chunks = assembled)
  /\ (List.length assembled <> 1%nat ->
      chunks = filter (fun c => DocumentChunk.tokenCount c >=? minChunkSize opts)
                      assembled)
  /\ (forall c, In c assembled -> ~ In c chunks ->
      DocumentChunk.tokenCount c < minChunkSize opts
      /\ (1 < List.length assembled)%nat)
  /\ (chunks <> [] <->
      List.length assembled = 1%nat
      \/ exists c, In c assembled
                   /\ minChunkSize opts <= DocumentChunk.tokenCount c).
Proof.
  intros H opts assembled.
  split; [apply assembleChunks_not_nil, (chunkDocument_Ret_ink _ _ _ _ H) |].
  apply chunkDocument_Ret in H.
  fold opts in H. rewrite createChunks_filter in H. fold assembled in H.
  assert (Hone : List.length assembled = 1%nat -> chunks = assembled).
  { intros E. rewrite H. unfold kept. rewrite E. cbn [Nat.eqb].
    clear. induction assembled as [| c l IH]; [reflexivity |].
    cbn [filter]. rewrite orb_true_r. f_equal. exact IH. }
  assert (Hmany : List.length assembled <> 1%nat ->
            chunks = filter (fun c => DocumentChunk.tokenCount c
                                      >=? minChunkSize opts) assembled).
  { intros E. rewrite H. unfold kept.
    apply Nat.eqb_neq in E. rewrite E. apply filter_ext.
    intros c. apply orb_false_r. }
  split; [exact Hone |]. split; [exact Hmany |]. split.
  - intros c Hin Hout.
    destruct (Nat.eq_dec (List.length assembled) 1) as [E | E].
    { rewrite (Hone E) in Hout. contradiction. }
    assert (Hc : (DocumentChunk.tokenCount c >=? minChunkSize opts) = false).
    { destruct (_ >=? _) eqn:K; [| reflexivity]. exfalso. apply Hout.
      rewrite (Hmany E). apply filter_In. split; assumption. }
    rewrite Z.geb_leb in Hc. apply Z.leb_gt in Hc. split; [exact Hc |].
    clear - Hin E.
    destruct assembled as [| ? [| ? ?]]; cbn [List.length] in *;
      [destruct Hin | exfalso; apply E; reflexivity | lia].
  - split.
    + intros Hne.
      destruct (Nat.eq_dec (List.length assembled) 1) as [E | E]; [left; exact E |].
      right. rewrite (Hmany E) in Hne.
      remember (filter (fun c => DocumentChunk.tokenCount c
                                 >=? minChunkSize opts) assembled) as big eqn:Ef.
      destruct big as [| c l]; [exfalso; apply Hne; reflexivity |].
      assert (Hin : In c (filter (fun c => DocumentChunk.tokenCount c
                                           >=? minChunkSize opts) assembled))
        by (rewrite <- Ef; left; reflexivity).
      apply filter_In in Hin. destruct Hin as [Hin Hc].
      exists c. split; [exact Hin |]. rewrite Z.geb_leb in Hc.
      apply Z.leb_le. exact Hc.
    + intros [E | (c & Hin & Hc)].
      * rewrite (Hone E). destruct assembled; [discriminate | discriminate].
      * assert (Hk : In c chunks).
        { rewrite H. apply filter_In. split; [exact Hin |]. unfold kept.
          apply orb_true_iff. left. rewrite Z.geb_leb. apply Z.leb_le. exact Hc. }
        intros ->. destruct Hk.
Qed.

(** C6, amended.  The chunks are numbered as they are assembled, the i-th
    assembled chunk having index i, and the small ones are dropped after
    that without renumbering.  So in the list [chunkDocument] returns the
    indices ascend strictly and the index of the i-th chunk is at least i;
    it is i when no assembled chunk is below [minChunkSize].  Every chunk
    has [startPosition < endPosition]. *)
Theorem C6_indices_ascend_and_chunks_have_extent
    (this : ChunkingOptions) (text : jsstring)
    (options : option PartialChunkingOptions) (chunks : list DocumentChunk.t) :
  chunkDocument this text options = Ret chunks ->
  let opts := spread this options in
  let assembled := assembleChunks (semanticUnitsOf this text) opts in
  (forall i c, nth_error assembled i = Some c ->
               DocumentChunk.index c = Z.of_nat i)
  /\ (forall i j a b, (i < j)%nat ->
        nth_error chunks i = Some a -> nth_error chunks j = Some b ->
        DocumentChunk.index a < DocumentChunk.index b)
  /\ (forall i c, nth_error chunks i = Some c ->
                  Z.of_nat i <= DocumentChunk.index c)
  /\ (Forall (fun c => minChunkSize opts <= DocumentChunk.tokenCount c)
             assembled ->
      forall i c, nth_error chunks i = Some c ->
                  DocumentChunk.index c = Z.of_nat i)
  /\ (forall c, In c chunks ->
        DocumentChunk.startPosition c < DocumentChunk.endPosition c).
Proof.
  intros H opts assembled. apply chunkDocument_Ret in H.
  fold opts in H. rewrite createChunks_filter in H. fold assembled in H.
  assert (Hs : StronglySorted byIndex chunks).
  { rewrite H. apply StronglySorted_filter. unfold assembled.
    rewrite assembleChunks_groups. apply buildFrom_sorted. }
  assert (Hi : forall i c, nth_error assembled i = Some c ->
                           DocumentChunk.index c = Z.of_nat i).
  { intros i c Hc. unfold assembled in Hc.
    rewrite assembleChunks_groups in Hc. apply buildFrom_nth in Hc. lia. }
  split; [exact Hi |]. split; [| split; [| split]].
  - intros i j a b Hij Ha Hb.
    apply (StronglySorted_nth byIndex chunks i j a b Hs Hij Ha Hb).
  - intros i c Hc.
    apply (sorted_index_lower chunks 0 i c Hs); [| exact Hc].
    apply Forall_forall. intros x Hx. rewrite H in Hx.
    apply filter_In in Hx. destruct Hx as [Hx _]. unfold assembled in Hx.
    rewrite assembleChunks_groups in Hx.
    destruct (buildFrom_In _ _ _ Hx) as (g & k & _ & -> & Hk). cbn. lia.
  - intros Hbig i c Hc. apply Hi. rewrite <- Hc, H. f_equal. symmetry.
    apply filter_all. revert Hbig. apply Forall_impl. intros x Hx.
    unfold kept. apply orb_true_iff. left.
    rewrite Z.geb_leb. apply Z.leb_le. exact Hx.
  - intros c Hc. rewrite H in Hc. apply filter_In in Hc. destruct Hc as [Hc _].
    pose proof (assembleChunks_positions this text opts) as Hp.
    rewrite Forall_forall in Hp. apply Hp. exact Hc.
Qed.

(** C7, amended.  The overlap is made of whole units, and a unit is added to
    it as long as the overlap is below [overlapTokens], so that the overlap
    can exceed [overlapTokens] by almost a unit.  When no unit pushed on a
    chunk has more than [m] tokens, every chunk [chunkDocument] returns,
    the last one included, has
    [tokenCount <= maxTokens + overlapTokens + m]. *)
Theorem C7_chunk_tokens_within_budget_plus_largest_unit
    (this : ChunkingOptions) (text : jsstring)
    (options : option PartialChunkingOptions) (chunks : list DocumentChunk.t)
    (m : Z) :
  chunkDocument this text options = Ret chunks ->
  let opts := spread this options in
  0 <= m ->
  Forall (fun u => SemanticUnit.tokenCount u <= m)
         (pushedUnits (semanticUnitsOf this text) opts) ->
  forall c, In c chunks ->
    DocumentChunk.tokenCount c
    <= Z.max 0 (maxTokens opts) + Z.max 0 (overlapTokens opts) + m.
Proof.
  intros H opts Hm Hsmall c Hc. apply chunkDocument_Ret in H.
  fold opts in H. rewrite createChunks_filter in H.
  rewrite H in Hc. apply filter_In in Hc. destruct Hc as [Hc _].
  rewrite assembleChunks_groups in Hc.
  destruct (buildFrom_In _ _ _ Hc) as (g & k & Hg & -> & _).
  rewrite buildChunk_tokenCount.
  pose proof (assembleGroups_bound opts m Hm (semanticUnitsOf this text) Hsmall)
    as Hb.
  rewrite Forall_forall in Hb. apply (Hb g Hg).
Qed.

(** C8, amended.  When [overlapTokens > 0] and no semantic unit of the text
    exceeds [maxTokens], each chunk assembled after the first begins with
    the overlap of the one before it, which is followed by at least one
    new unit: the array of units it is built from begins with the units of
    the overlap, and its content begins with their content, with which the
    content of the chunk before ends.  The overlap is the shortest run of
    whole units at the end of the closed chunk whose token counts add up
    to [overlapTokens] or more, or the whole chunk when it has fewer.  (A
    unit above [maxTokens] is cut into pieces, and a chunk closed between
    two pieces hands nothing over.) *)
Theorem C8_overlap_is_carried_forward_between_whole_units
    (this : ChunkingOptions) (text : jsstring)
    (options : option PartialChunkingOptions) (chunks : list DocumentChunk.t) :
  chunkDocument this text options = Ret chunks ->
  let opts := spread this options in
  let groups := assembleGroups (semanticUnitsOf this text) opts in
  let assembled := assembleChunks (semanticUnitsOf this text) opts in
  0 < overlapTokens opts ->
  Forall (fun u => SemanticUnit.tokenCount u <= maxTokens opts)
         (semanticUnitsOf this text) ->
  chunks = filter (kept opts assembled) assembled
  /\ forall i g g',
       nth_error groups i = Some g -> nth_error groups (S i) = Some g' ->
       let overlap := createOverlap g (overlapTokens opts) in
       let carried := DocumentChunk.content (buildChunk overlap 0) in
       let chunk := buildChunk g (Z.of_nat i) in
       let next := buildChunk g' (Z.of_nat (S i)) in
       nth_error assembled i = Some chunk
       /\ nth_error assembled (S i) = Some next
       /\ (exists rest, rest <> [] /\ g' = overlap ++ rest)
       /\ (exists pre, g = pre ++ overlap)
       /\ (overlapTokens opts <= sumTokens overlap \/ overlap = g)
       /\ (forall u rest, overlap = u :: rest ->
                          sumTokens rest < overlapTokens opts)
       /\ carried <> []
       /\ endsWith carried (DocumentChunk.content chunk) = true
       /\ startsWith carried (DocumentChunk.content next) = true.
Proof.
  intros H opts groups assembled Ho Hsmall.
  pose proof (chunkDocument_Ret_ink _ _ _ _ H) as Hink.
  apply chunkDocument_Ret in H.
  fold opts in H. rewrite createChunks_filter in H.
  split; [exact H |].
  intros i g g' Hg Hg' overlap carried chunk next.
  pose proof (assembleGroups_chained opts (semanticUnitsOf this text) Ho Hsmall)
    as Hc.
  pose proof (Chained_nth opts _ i g g' Hc Hg Hg') as Hov.
  unfold assembled. rewrite assembleChunks_groups.
  split; [apply (buildFrom_nth_error 0 _ _ _ Hg) |].
  split; [apply (buildFrom_nth_error 0 _ _ _ Hg') |].
  split; [exact Hov |].
  split; [apply createOverlap_suffix |].
  destruct (createOverlap_shortest g (overlapTokens opts)) as [H1 H2].
  split; [exact H2 |]. split; [exact H1 |].
  destruct (semanticUnitsOf_inked this text Hink) as [_ Hunits].
  pose proof (assembleGroups_segments (semanticUnitsOf this text) opts) as Hseg.
  rewrite (pushedUnits_whole _ _ Hsmall) in Hseg.
  rewrite Forall_forall in Hseg.
  destruct (Hseg g (nth_error_In _ _ Hg)) as [Hne Hsg].
  destruct (Hseg g' (nth_error_In _ _ Hg')) as [_ Hsg'].
  apply overlap_in_contents;
    [exact Ho | exact Hne | exact (Inked_segment _ _ Hsg Hunits)
    | exact (Inked_segment _ _ Hsg' Hunits) | exact Hov].
Qed.

(** C10.  For a text whose trimmed length is zero [chunkDocument] returns no
    list, empty or not: it throws a processing error with the code
    [EMPTY_TEXT] that is not retryable. *)
Theorem C10_blank_text_raises_EMPTY_TEXT
    (this : ChunkingOptions) (text : jsstring)
    (options : option PartialChunkingOptions) :
  len (trim text) = 0 ->
  exists e,
    chunkDocument this text options = Throw (ThrownProcessingError e)
    /\ code e = str "EMPTY_TEXT"
    /\ retryable e = false.
Proof.
  intros H. unfold chunkDocument. rewrite H, Z.eqb_refl, orb_true_r. simpl.
  eexists; repeat split; reflexivity.
Qed.

(** *** The statements on concrete texts *)

(** Every conjunct by evaluation. *)
Ltac evaluate :=
  repeat match goal with |- _ /\ _ => split end; vm_compute; reflexivity.

(** C5 fails for three sentences of 6, 11 and 2 tokens cut at 5 tokens with
    the default minimum of 100: three chunks are assembled, all are
    dropped.  With the default options it fails for the text
    [exclamations]: the paragraph is closed as a chunk of 3 tokens, the
    second chunk has its overlap and the 4 tokens left of the list item,
    and both are dropped. *)
Lemma C5_counterexample_every_chunk_below_the_minimum :
  (len (trim Samples.threeSentences) =? 0) = false
  /\ chunkDocument DEFAULT_CHUNKING_OPTIONS Samples.threeSentences
       (Samples.tight 5 150 100)
     = Ret []
  /\ map DocumentChunk.tokenCount
       (assembleChunks
          (semanticUnitsOf DEFAULT_CHUNKING_OPTIONS Samples.threeSentences)
          (spread DEFAULT_CHUNKING_OPTIONS (Samples.tight 5 150 100)))
     = [6; 11; 2]
  /\ chunkDocument DEFAULT_CHUNKING_OPTIONS Samples.exclamations None = Ret []
  /\ map DocumentChunk.tokenCount
       (assembleChunks
          (semanticUnitsOf DEFAULT_CHUNKING_OPTIONS Samples.exclamations)
          DEFAULT_CHUNKING_OPTIONS)
     = [3; 7].
Proof. evaluate. Qed.

(** C6 fails for the same sentences with a minimum of 10: the one chunk
    returned is the second one assembled, and its index is 1.  With the
    default options it fails for a heading of 6 tokens followed by a
    paragraph of 1496: the heading is closed as a chunk of its own, which
    is dropped, and the chunk returned has index 1. *)
Lemma C6_counterexample_first_returned_chunk_has_index_1 :
  exists chunk chunk',
    chunkDocument DEFAULT_CHUNKING_OPTIONS Samples.threeSentences
      (Samples.tight 5 150 10)
    = Ret [chunk]
    /\ DocumentChunk.index chunk = 1
    /\ chunkDocument DEFAULT_CHUNKING_OPTIONS Samples.headedText None
       = Ret [chunk']
    /\ DocumentChunk.index chunk' = 1.
Proof. eexists _, _. evaluate. Qed.

(** C7 fails for three paragraphs of 8 tokens with [maxTokens = 10] and
    [overlapTokens = 2]: the overlap is the whole paragraph before, and the
    second chunk of three has 16 tokens.  With the default options it fails
    for three paragraphs of 1301 tokens: the second chunk of three has
    2602. *)
Lemma C7_counterexample_middle_chunk_over_budget :
  exists c0 c1 c2 d0 d1 d2,
    chunkDocument DEFAULT_CHUNKING_OPTIONS Samples.threeParagraphs
      (Samples.tight 10 2 0)
    = Ret [c0; c1; c2]
    /\ DocumentChunk.tokenCount c1 = 16
    /\ 10 + 2 < 16
    /\ chunkDocument DEFAULT_CHUNKING_OPTIONS Samples.threeLongParagraphs None
       = Ret [d0; d1; d2]
    /\ DocumentChunk.tokenCount d1 = 2602
    /\ maxTokens DEFAULT_CHUNKING_OPTIONS
       + overlapTokens DEFAULT_CHUNKING_OPTIONS < 2602.
Proof. eexists _, _, _, _, _, _. evaluate. Qed.

(** C8 fails for the three sentences cut at 5 tokens with
    [overlapTokens = 2]: the paragraph exceeds [maxTokens] and is cut into
    its sentences, each a piece of its own, and the chunks closed between
    the pieces hand nothing over.  The overlap of the first chunk would be
    its one unit; the second chunk does not begin with it.  With the
    default options it fails for a list of 400 items: the list is one unit
    of 2800 tokens, cut into two pieces, and the second chunk begins where
    the first ends. *)
Lemma C8_counterexample_split_units_carry_no_overlap :
  let options := Samples.tight 5 2 0 in
  let groups :=
    assembleGroups
      (semanticUnitsOf DEFAULT_CHUNKING_OPTIONS Samples.threeSentences)
      (spread DEFAULT_CHUNKING_OPTIONS options) in
  let groups' :=
    assembleGroups
      (semanticUnitsOf DEFAULT_CHUNKING_OPTIONS Samples.bulletList)
      DEFAULT_CHUNKING_OPTIONS in
  (exists u0 u1 u2,
     groups = [[u0]; [u1]; [u2]]
     /\ chunkDocument DEFAULT_CHUNKING_OPTIONS Samples.threeSentences options
        = Ret (buildFrom 0 groups)
     /\ map DocumentChunk.content (buildFrom 0 groups)
        = [str "Alpha beta gamma delta";
           str "Epsilon zeta eta theta iota kappa lambda mu";
           str "Nu."]
     /\ createOverlap [u0] 2 = [u0]
     /\ startsWith
          (DocumentChunk.content (buildChunk (createOverlap [u0] 2) 0))
          (DocumentChunk.content (buildChunk [u1] 1))
        = false)
  /\ (exists p0 p1,
        groups' = [[p0]; [p1]]
        /\ chunkDocument DEFAULT_CHUNKING_OPTIONS Samples.bulletList None
           = Ret (buildFrom 0 groups')
        /\ map SemanticUnit.tokenCount [p0; p1] = [1498; 1302]
        /\ createOverlap [p0] 150 = [p0]
        /\ SemanticUnit.endPosition p0 = SemanticUnit.startPosition p1
        /\ startsWith
             (DocumentChunk.content (buildChunk (createOverlap [p0] 150) 0))
             (DocumentChunk.content (buildChunk [p1] 1))
           = false).
Proof.
  cbv zeta. split.
  - eexists _, _, _. evaluate.
  - eexists _, _. evaluate.
Qed.

(** A short document: one chunk of 3 tokens, returned. *)
Lemma C5_witness_short_document :
  let text := str "Hello world." in
  let assembled :=
    assembleChunks (semanticUnitsOf DEFAULT_CHUNKING_OPTIONS text)
                   DEFAULT_CHUNKING_OPTIONS in
  let chunks := createChunks (semanticUnitsOf DEFAULT_CHUNKING_OPTIONS text)
                             DEFAULT_CHUNKING_OPTIONS in
  map DocumentChunk.tokenCount assembled = [3]
  /\ (List.length assembled = 1%nat -> chunks = assembled)
  /\ (chunks <> [] <->
      List.length assembled = 1%nat
      \/ exists c,
           In c assembled
           /\ minChunkSize DEFAULT_CHUNKING_OPTIONS <= DocumentChunk.tokenCount c).
Proof.
  cbv zeta. split; [vm_compute; reflexivity |].
  pose proof (C5_small_chunks_are_dropped_unless_alone
                DEFAULT_CHUNKING_OPTIONS (str "Hello world.") None _
                (chunkDocument_not_blank DEFAULT_CHUNKING_OPTIONS
                   (str "Hello world.") None eq_refl))
    as (_ & Hone & _ & _ & Hsome).
  split; [exact Hone | exact Hsome].
Defined.

(** The three sentences with a minimum of 10. *)
Lemma C6_witness_three_sentences :
  let chunks :=
    createChunks
      (semanticUnitsOf DEFAULT_CHUNKING_OPTIONS Samples.threeSentences)
      (spread DEFAULT_CHUNKING_OPTIONS (Samples.tight 5 150 10)) in
  map DocumentChunk.index chunks = [1]
  /\ (forall i c, nth_error chunks i = Some c ->
                  Z.of_nat i <= DocumentChunk.index c)
  /\ (forall c, In c chunks ->
        DocumentChunk.startPosition c < DocumentChunk.endPosition c).
Proof.
  cbv zeta. split; [vm_compute; reflexivity |].
  pose proof (C6_indices_ascend_and_chunks_have_extent
                DEFAULT_CHUNKING_OPTIONS Samples.threeSentences
                (Samples.tight 5 150 10) _
                (chunkDocument_not_blank DEFAULT_CHUNKING_OPTIONS
                   Samples.threeSentences (Samples.tight 5 150 10) eq_refl))
    as (_ & _ & Hlow & _ & Hextent).
  split; [exact Hlow | exact Hextent].
Defined.

(** The three paragraphs: no unit above 8 tokens, no chunk above 20. *)
Lemma C7_witness_three_paragraphs :
  let options := Samples.tight 10 2 0 in
  let chunks :=
    createChunks
      (semanticUnitsOf DEFAULT_CHUNKING_OPTIONS Samples.threeParagraphs)
      (spread DEFAULT_CHUNKING_OPTIONS options) in
  map DocumentChunk.tokenCount chunks = [8; 16; 16]
  /\ forall c, In c chunks -> DocumentChunk.tokenCount c <= 10 + 2 + 8.
Proof.
  cbv zeta. split; [vm_compute; reflexivity |].
  apply (C7_chunk_tokens_within_budget_plus_largest_unit
           DEFAULT_CHUNKING_OPTIONS Samples.threeParagraphs
           (Samples.tight 10 2 0) _ 8).
  - apply chunkDocument_not_blank. reflexivity.
  - lia.
  - apply Forall_leb. vm_compute. reflexivity.
Defined.

(** A body estimated at 4000 tokens with the default options: three chunks,
    the second and the third beginning with the last 160 tokens of the one
    before. *)
Lemma C8_witness_body_of_4000_tokens :
  let text := Samples.longBody in
  let groups :=
    assembleGroups (semanticUnitsOf DEFAULT_CHUNKING_OPTIONS text)
                   DEFAULT_CHUNKING_OPTIONS in
  estimateTokenCount text = 4000
  /\ (exists g1 g2 g3,
        groups = [g1; g2; g3]
        /\ chunkDocument DEFAULT_CHUNKING_OPTIONS text None
           = Ret [buildChunk g1 0; buildChunk g2 1; buildChunk g3 2]
        /\ map (fun g => sumTokens (createOverlap g 150)) [g1; g2] = [160; 160])
  /\ (forall i g g',
        nth_error groups i = Some g -> nth_error groups (S i) = Some g' ->
        let carried :=
          DocumentChunk.content (buildChunk (createOverlap g 150) 0) in
        (exists rest, rest <> [] /\ g' = createOverlap g 150 ++ rest)
        /\ carried <> []
        /\ endsWith carried
             (DocumentChunk.content (buildChunk g (Z.of_nat i))) = true
        /\ startsWith carried
             (DocumentChunk.content (buildChunk g' (Z.of_nat (S i)))) = true).
Proof.
  cbv zeta. split; [vm_compute; reflexivity |]. split.
  - eexists _, _, _. split; [vm_compute; reflexivity |].
    split; vm_compute; reflexivity.
  - intros i g g' Hg Hg'.
    assert (Hrun : chunkDocument DEFAULT_CHUNKING_OPTIONS Samples.longBody None
                   = Ret (createChunks
                            (semanticUnitsOf DEFAULT_CHUNKING_OPTIONS
                               Samples.longBody)
                            DEFAULT_CHUNKING_OPTIONS)).
    { apply chunkDocument_not_blank. vm_compute. reflexivity. }
    assert (Hsmall : Forall
                       (fun u => SemanticUnit.tokenCount u
                                 <= maxTokens DEFAULT_CHUNKING_OPTIONS)
                       (semanticUnitsOf DEFAULT_CHUNKING_OPTIONS
                          Samples.longBody)).
    { apply Forall_leb. vm_compute. reflexivity. }
    destruct (C8_overlap_is_carried_forward_between_whole_units
                DEFAULT_CHUNKING_OPTIONS Samples.longBody None _ Hrun
                eq_refl Hsmall) as [_ Hall].
    destruct (Hall i g g' Hg Hg')
      as (_ & _ & Hrest & _ & _ & _ & Hcarried & Hends & Hstarts).
    split; [exact Hrest |]. split; [exact Hcarried |].
    split; [exact Hends | exact Hstarts].
Defined.

(** The text made of blanks and a line feed. *)
Lemma C10_witness_spaces_and_newline :
  exists e,
    chunkDocument DEFAULT_CHUNKING_OPTIONS (str "   " ++ [10]%N) None
    = Throw (ThrownProcessingError e)
    /\ code e = str "EMPTY_TEXT"
    /\ retryable e = false.
Proof.
  apply C10_blank_text_raises_EMPTY_TEXT. reflexivity.
Defined.

End ChunkingTheorems.

(** * Further properties of the code

    What follows states properties of parts of the sources that the
    statements above leave aside: the rest of the upload validator, the
    extraction service and the orchestrator, the monotonicity of the status
    endpoint, and the units, pieces and chunks of the chunker. *)

(** ** The upload validator *)

Module ValidatorProperties.
Import JS Types FileValidation Invariants StringFacts AssemblyFacts.

(** *** Splitting at dots *)






(** *** Lower case *)















(** *** The verdict of [validateFile] *)

Lemma streq_eq a : forall b, streq a b = true -> a = b.
Proof.
  induction a as [| x a IH]; intros [| y b] H; try discriminate; [reflexivity |].
  cbn in H. apply andb_prop in H. destruct H as [Hx Hr].
  apply N.eqb_eq in Hx. subst. f_equal. apply IH. exact Hr.
Qed.

Lemma typeOfExtension_name t ext :
  streq (fileTypeName t) ext = true -> Extraction.typeOfExtension ext = Some t.
Proof. intros H. apply streq_eq in H. subst ext. destruct t; reflexivity. Qed.

Lemma allowed_is_supported allowed ext :
  existsb (fun t => streq (fileTypeName t) ext) allowed = true ->
  exists t, In t allowed /\ Extraction.typeOfExtension ext = Some t.
Proof.
  intros H. apply existsb_exists in H. destruct H as (t & Hin & Ht).
  exists t. split; [exact Hin | apply typeOfExtension_name; exact Ht].
Qed.

Lemma negb_nonEmpty {A} (l : list A) : negb (nonEmpty l) = true -> l = [].
Proof. destruct l; [reflexivity | discriminate]. Qed.

Section WithLibraries.
Context (fileTypeFromBuffer : Buffer -> Outcome (option jsstring))
        (decodeUtf8 : Buffer -> jsstring).

(** What a valid verdict says of every step of [validateFile]. *)
Lemma validateFile_valid_inv file filename options r :
  validateFile fileTypeFromBuffer decodeUtf8 file filename options = Ret r ->
  valid r = true ->
  let buffer := bufferOf file in
  let name := nameOf file filename in
  errors r = []
  /\ (byteLength buffer =? 0) = false
  /\ (byteLength buffer >? maxSizeOf options) = false
  /\ exists ext,
       getFileExtension name = Some ext
       /\ existsb (fun t => streq (fileTypeName t) ext) (allowedTypesOf options)
          = true
       /\ (allowExecutablesOf options = false ->
           fst (checkFileSecurity decodeUtf8 buffer name) = [])
       /\ fst (validateFileContent buffer ext) = [].
Proof.
  unfold validateFile. cbv zeta.
  destruct (checkMimeType _ _ _ _) as [[me mw] | x].
  2:{ destruct (messageOrUnknown x); intros E; inversion E; subst r.
      discriminate. }
  intros E. inversion E; subst r. clear E. cbn [valid errors].
  intros H. apply negb_nonEmpty in H.
  split; [exact H |].
  apply app_eq_nil in H. destruct H as [H3 Hc].
  rewrite H3 in Hc.
  apply app_eq_nil in H3. destruct H3 as [H2 Hs].
  apply app_eq_nil in H2. destruct H2 as [H1 _].
  apply app_eq_nil in H1. destruct H1 as [H0 He].
  apply app_eq_nil in H0. destruct H0 as [Ha Hb].
  destruct (byteLength (bufferOf file) =? 0); [discriminate |].
  destruct (byteLength (bufferOf file) >? maxSizeOf options); [discriminate |].
  split; [reflexivity |]. split; [reflexivity |].
  destruct (getFileExtension (nameOf file filename)) as [ext |]; [| discriminate].
  exists ext. split; [reflexivity |].
  destruct (existsb _ (allowedTypesOf options)); [| discriminate].
  split; [reflexivity |]. split; [| exact Hc].
  intros Hx. rewrite Hx in Hs. exact Hs.
Qed.

Ltac empty_buffer Hb :=
  unfold validateFile, checkMimeType, checkFileSecurity;
  rewrite Hb; change (byteLength []) with 0;
  change (0 =? 0) with true; change (0 <? 0) with false;
  change (4 <=? 0) with false; cbv beta iota zeta;
  destruct (getFileExtension _); rewrite ?andb_false_r.

Lemma validateFile_empty file filename options :
  bufferOf file = [] ->
  exists r,
    validateFile fileTypeFromBuffer decodeUtf8 file filename options = Ret r
    /\ valid r = false
    /\ (exists rest, errors r = FileIsEmpty :: rest)
    /\ warnings r = [].
Proof.
  intros Hb. empty_buffer Hb;
    destruct (allowExecutablesOf options);
    cbn [fst snd app]; eexists; (split; [reflexivity |]);
    cbn [valid errors warnings nonEmpty negb app];
    (split; [reflexivity |]); (split; [eexists; reflexivity | reflexivity]).
Qed.

Lemma validateFile_empty_independent file filename options :
  bufferOf file = [] ->
  forall sniff decode,
    validateFile sniff decode file filename options
    = validateFile fileTypeFromBuffer decodeUtf8 file filename options.
Proof.
  intros Hb sniff decode. empty_buffer Hb; reflexivity.
Qed.

(** X2.  An empty file is never valid: [validateFile] returns a verdict
    whose first error is "File is empty" and that has no warning, and
    neither the content sniffer nor the decoder is consulted, so the
    verdict is the same whatever those libraries would answer. *)
Theorem X2_empty_file_is_rejected_without_reading_it
    (file : FileArg) (filename : option jsstring)
    (options : option ValidationOptions) :
  bufferOf file = [] ->
  exists r,
    validateFile fileTypeFromBuffer decodeUtf8 file filename options = Ret r
    /\ valid r = false
    /\ (exists rest, errors r = FileIsEmpty :: rest)
    /\ warnings r = []
    /\ forall sniff decode,
         validateFile sniff decode file filename options = Ret r.
Proof.
  intros Hb.
  destruct (validateFile_empty file filename options Hb)
    as (r & Hr & Hv & He & Hw).
  exists r. split; [exact Hr |]. split; [exact Hv |].
  split; [exact He |]. split; [exact Hw |].
  intros sniff decode.
  rewrite (validateFile_empty_independent file filename options Hb).
  exact Hr.
Qed.

(** X3.  What [validateFile] finds valid passes the two quick checks of the
    same class: the size is accepted by [isValidFileSize] and the name by
    [isValidFileType], for the size limit and the allowed types of the
    options; and it has no error.  In particular no option makes a name
    without an extension, or with one outside the allowed types, valid. *)
Theorem X3_valid_files_pass_the_quick_checks
    (file : FileArg) (filename : option jsstring)
    (options : option ValidationOptions) (r : FileValidationResult) :
  validateFile fileTypeFromBuffer decodeUtf8 file filename options = Ret r ->
  valid r = true ->
  errors r = []
  /\ isValidFileSize (byteLength (bufferOf file)) (Some (maxSizeOf options))
     = true
  /\ isValidFileType (nameOf file filename) (Some (allowedTypesOf options))
     = true.
Proof.
  intros Hr Hv. destruct (validateFile_valid_inv file filename options r Hr Hv)
    as (He & H0 & Hmax & ext & Hext & Hallowed & _).
  split; [exact He |]. split.
  - unfold isValidFileSize. cbn [orElse].
    apply Z.eqb_neq in H0.
    assert (0 <= byteLength (bufferOf file)) by (unfold byteLength; lia).
    apply andb_true_intro. split.
    + apply Z.gtb_lt. lia.
    + apply Z.leb_le. rewrite Z.gtb_ltb in Hmax. apply Z.ltb_ge in Hmax. exact Hmax.
  - unfold isValidFileType. rewrite Hext. cbn [orElse]. exact Hallowed.
Qed.

(** X4.  Unless the options allow executables, a buffer of four bytes or
    more that begins with one of the executable signatures (PE, ELF or
    Mach-O) is never valid, whatever its name and its sniffed type; when
    validation did not end in its [catch] clause (the result then has no
    metadata), the errors name the executable format. *)
Theorem X4_executable_signatures_are_rejected
    (file : FileArg) (filename : option jsstring)
    (options : option ValidationOptions) (r : FileValidationResult) :
  allowExecutablesOf options = false ->
  4 <= byteLength (bufferOf file) ->
  existsb (fun sg => matchesSignature (subarray (bufferOf file) 4) (fst sg))
          executableSignatures = true ->
  validateFile fileTypeFromBuffer decodeUtf8 file filename options = Ret r ->
  valid r = false
  /\ (metadata r <> None ->
      exists format, In (ContainsExecutableCode format) (errors r)).
Proof.
  intros Hx Hlen Hsig Hr.
  assert (Hfirst : exists format,
             firstSignature (subarray (bufferOf file) 4)
             = [ContainsExecutableCode format]).
  { unfold firstSignature.
    destruct (filter _ executableSignatures) as [| sg l] eqn:Ef.
    - apply existsb_exists in Hsig. destruct Hsig as (sg & Hin & Hm).
      assert (Hin' : In sg (filter
                (fun sg => matchesSignature (subarray (bufferOf file) 4) (fst sg))
                executableSignatures))
        by (apply filter_In; split; assumption).
      rewrite Ef in Hin'. destruct Hin'.
    - eexists. reflexivity. }
  destruct Hfirst as (format & Hfirst).
  assert (Hsec : In (ContainsExecutableCode format)
                   (fst (checkFileSecurity decodeUtf8 (bufferOf file)
                           (nameOf file filename)))).
  { unfold checkFileSecurity. cbv zeta. cbn [fst].
    apply Z.leb_le in Hlen. rewrite Hlen, Hfirst.
    apply in_or_app. right. left. reflexivity. }
  split.
  - destruct (valid r) eqn:Hv; [| reflexivity].
    destruct (validateFile_valid_inv file filename options r Hr Hv)
      as (_ & _ & _ & ext & _ & _ & Hs & _).
    rewrite (Hs Hx) in Hsec. destruct Hsec.
  - revert Hr. unfold validateFile. cbv zeta.
    destruct (checkMimeType _ _ _ _) as [[me mw] | x].
    2:{ destruct (messageOrUnknown x); intros E; inversion E; subst r.
        cbn [metadata]. congruence. }
    intros E. inversion E; subst r. clear E. cbn [errors metadata]. intros _.
    exists format. rewrite Hx.
    apply in_or_app. left. apply in_or_app. right. exact Hsec.
Qed.

(** X5.  A file that [validateFile] finds valid has an extension of an
    allowed type and begins with the header of that type: [%PDF] for a PDF
    document, [{\rtf] for an RTF document, and for a Word document of four
    bytes or more one of the two ZIP signatures or the OLE signature (a
    Word document shorter than four bytes is not looked at).  A text file
    needs no header. *)
Theorem X5_valid_files_begin_with_the_header_of_their_type
    (file : FileArg) (filename : option jsstring)
    (options : option ValidationOptions) (r : FileValidationResult) :
  let buffer := bufferOf file in
  validateFile fileTypeFromBuffer decodeUtf8 file filename options = Ret r ->
  valid r = true ->
  exists ext t,
    getFileExtension (nameOf file filename) = Some ext
    /\ ext = fileTypeName t
    /\ In t (allowedTypesOf options)
    /\ match t with
       | pdf => bufferEquals (subarray buffer 4) (bytes "%PDF") = true
       | docx | doc =>
           byteLength buffer < 4
           \/ bufferEquals (subarray buffer 4) [x50; x4b; x03; x04] = true
           \/ bufferEquals (subarray buffer 4) [x50; x4b; x07; x08] = true
           \/ bufferEquals (subarray buffer 8)
                [xd0; xcf; x11; xe0; xa1; xb1; x1a; xe1] = true
       | txt => True
       | rtf =>
           startsWith (str "{\rtf") (decodeAscii (subarray buffer 10)) = true
       end.
Proof.
  intros buffer Hr Hv.
  destruct (validateFile_valid_inv file filename options r Hr Hv)
    as (_ & _ & _ & ext & Hext & Hallowed & _ & Hc).
  apply existsb_exists in Hallowed. destruct Hallowed as (t & Hin & Ht).
  apply streq_eq in Ht. exists ext, t.
  split; [exact Hext |]. split; [symmetry; exact Ht |]. split; [exact Hin |].
  subst ext. fold buffer in Hc. unfold validateFileContent in Hc.
  destruct t; cbn [Extraction.typeOfExtension] in Hc.
  - change (Extraction.typeOfExtension (fileTypeName pdf)) with (Some pdf) in Hc.
    cbv iota in Hc. unfold validatePDFContent in Hc. cbv zeta in Hc.
    destruct (bufferEquals (subarray buffer 4) (bytes "%PDF"));
      [reflexivity | discriminate].
  - change (Extraction.typeOfExtension (fileTypeName docx)) with (Some docx) in Hc.
    cbv iota in Hc. unfold validateWordContent in Hc. cbv zeta in Hc.
    destruct (4 <=? byteLength buffer) eqn:E4;
      [| left; apply Z.leb_gt; exact E4].
    right.
    destruct (bufferEquals (subarray buffer 4) [x50; x4b; x03; x04]);
      [left; reflexivity |].
    destruct (bufferEquals (subarray buffer 4) [x50; x4b; x07; x08]);
      [right; left; reflexivity |].
    right; right. cbn [negb andb existsb] in Hc.
    destruct (bufferEquals (subarray buffer 8) _); [reflexivity | discriminate].
  - change (Extraction.typeOfExtension (fileTypeName doc)) with (Some doc) in Hc.
    cbv iota in Hc. unfold validateWordContent in Hc. cbv zeta in Hc.
    destruct (4 <=? byteLength buffer) eqn:E4;
      [| left; apply Z.leb_gt; exact E4].
    right.
    destruct (bufferEquals (subarray buffer 4) [x50; x4b; x03; x04]);
      [left; reflexivity |].
    destruct (bufferEquals (subarray buffer 4) [x50; x4b; x07; x08]);
      [right; left; reflexivity |].
    right; right. cbn [negb andb existsb] in Hc.
    destruct (bufferEquals (subarray buffer 8) _); [reflexivity | discriminate].
  - exact I.
  - change (Extraction.typeOfExtension (fileTypeName rtf)) with (Some rtf) in Hc.
    cbv iota in Hc. unfold validateRTFContent in Hc. cbv zeta in Hc.
    destruct (startsWith (str "{\rtf") _); [reflexivity | discriminate].
Qed.

Lemma validateEach_inv files options :
  forall results,
    validateEach fileTypeFromBuffer decodeUtf8 files options = Ret results ->
    Forall2 (fun file r =>
               validateFile fileTypeFromBuffer decodeUtf8
                 (OfFile (fst file) (snd file)) None options = Ret r)
            files results.
Proof.
  induction files as [| file files IH]; intros results H; cbn [validateEach] in H.
  - inversion H. constructor.
  - destruct (validateFile fileTypeFromBuffer decodeUtf8
                (OfFile (fst file) (snd file)) None options)
      as [r | x] eqn:Er; [| discriminate].
    destruct (validateEach _ _ files options) as [rs | x]; [| discriminate].
    inversion H. constructor; [exact Er | apply IH; reflexivity].
Qed.

(** X6.  When [validateMultipleFiles] returns, it has one verdict for every
    file, in order, each the verdict [validateFile] gives for that file, and
    its [hasErrors] is true exactly when one of the verdicts is not valid;
    one empty file, or one file whose name has no extension, is enough. *)
Theorem X6_a_batch_has_errors_exactly_when_a_file_is_invalid
    (files : list (jsstring * Buffer)) (options : option ValidationOptions)
    (batch : BatchValidation) :
  validateMultipleFiles fileTypeFromBuffer decodeUtf8 files options
  = Ret batch ->
  Forall2 (fun file r =>
             validateFile fileTypeFromBuffer decodeUtf8
               (OfFile (fst file) (snd file)) None options = Ret r)
          files (results batch)
  /\ (hasErrors batch = true <->
      exists r, In r (results batch) /\ valid r = false)
  /\ (forall name, In (name, []) files -> hasErrors batch = true)
  /\ (forall name contents,
        In (name, contents) files -> getFileExtension name = None ->
        hasErrors batch = true).
Proof.
  unfold validateMultipleFiles.
  destruct (validateEach _ _ files options) as [rs | x] eqn:Ers;
    [| discriminate].
  intros H. inversion H; subst batch. clear H. cbn [results hasErrors].
  pose proof (validateEach_inv files options rs Ers) as Hall.
  assert (Hiff : existsb (fun result => negb (valid result)) rs = true <->
                 exists r, In r rs /\ valid r = false).
  { rewrite existsb_exists. split; intros (r & Hin & Hr); exists r;
      (split; [exact Hin |]); apply negb_true_iff; exact Hr. }
  assert (Hfind : forall file, In file files ->
            exists r, In r rs
                      /\ validateFile fileTypeFromBuffer decodeUtf8
                           (OfFile (fst file) (snd file)) None options
                         = Ret r).
  { clear Hiff Ers. induction Hall as [| f r fs rs' Hr Hrest IH];
      intros file Hin; [destruct Hin |].
    destruct Hin as [-> | Hin].
    - exists r. split; [left; reflexivity | exact Hr].
    - destruct (IH file Hin) as (r' & Hin' & Hr'). exists r'.
      split; [right; exact Hin' | exact Hr']. }
  split; [exact Hall |]. split; [exact Hiff |]. split.
  - intros name Hin. apply Hiff.
    destruct (Hfind _ Hin) as (r & Hr & Er). exists r. split; [exact Hr |].
    destruct (validateFile_empty (OfFile name []) None options eq_refl)
      as (r' & Er' & Hv & _).
    cbn [fst snd] in Er. rewrite Er in Er'. inversion Er'. subst r'. exact Hv.
  - intros name contents Hin Hext. apply Hiff.
    destruct (Hfind _ Hin) as (r & Hr & Er). exists r. split; [exact Hr |].
    destruct (valid r) eqn:Hv; [| reflexivity].
    destruct (validateFile_valid_inv _ _ _ _ Er Hv) as (_ & _ & _ & ext & He & _).
    cbn [nameOf fst snd] in He. congruence.
Qed.

End WithLibraries.

Lemma X2_witness_empty_text_file :
  exists r,
    validateFile Samples.sniff Samples.decodeUtf8
      (OfBuffer []) (Some (str "empty.txt")) None = Ret r
    /\ valid r = false
    /\ (exists rest, errors r = FileIsEmpty :: rest)
    /\ warnings r = []
    /\ forall sniff decode,
         validateFile sniff decode (OfBuffer []) (Some (str "empty.txt")) None
         = Ret r.
Proof.
  exact (X2_empty_file_is_rejected_without_reading_it
           Samples.sniff Samples.decodeUtf8
           (OfBuffer []) (Some (str "empty.txt")) None eq_refl).
Defined.

Lemma X3_witness_plain_text_file :
  isValidFileSize 5 (Some MAX_FILE_SIZE) = true
  /\ isValidFileType (str "a.txt") (Some SUPPORTED_FILE_TYPES) = true.
Proof.
  exact (proj2 (X3_valid_files_pass_the_quick_checks
                  Samples.sniff Samples.decodeUtf8
                  (OfBuffer (bytes "hello")) (Some (str "a.txt")) None _
                  eq_refl eq_refl)).
Defined.

Lemma X4_witness_windows_executable_named_pdf :
  exists r,
    validateFile Samples.sniff Samples.decodeUtf8
      (OfBuffer [x4d; x5a; x90; x00]) (Some (str "setup.pdf")) None = Ret r
    /\ valid r = false
    /\ (metadata r <> None ->
        exists format, In (ContainsExecutableCode format) (errors r)).
Proof.
  eexists. split; [reflexivity |].
  apply (X4_executable_signatures_are_rejected
           Samples.sniff Samples.decodeUtf8
           (OfBuffer [x4d; x5a; x90; x00]) (Some (str "setup.pdf")) None);
    [reflexivity | cbn; lia | reflexivity | reflexivity].
Defined.

Lemma X5_witness_pdf_document :
  let file := OfBuffer (bytes "%PDF-1.4 body") in
  exists ext t,
    getFileExtension (nameOf file (Some (str "paper.pdf"))) = Some ext
    /\ ext = fileTypeName t
    /\ In t (allowedTypesOf None)
    /\ match t with
       | pdf => bufferEquals (subarray (bufferOf file) 4) (bytes "%PDF") = true
       | docx | doc =>
           byteLength (bufferOf file) < 4
           \/ bufferEquals (subarray (bufferOf file) 4) [x50; x4b; x03; x04]
              = true
           \/ bufferEquals (subarray (bufferOf file) 4) [x50; x4b; x07; x08]
              = true
           \/ bufferEquals (subarray (bufferOf file) 8)
                [xd0; xcf; x11; xe0; xa1; xb1; x1a; xe1] = true
       | txt => True
       | rtf =>
           startsWith (str "{\rtf") (decodeAscii (subarray (bufferOf file) 10))
           = true
       end.
Proof.
  exact (X5_valid_files_begin_with_the_header_of_their_type
           Samples.sniff Samples.decodeUtf8
           (OfBuffer (bytes "%PDF-1.4 body")) (Some (str "paper.pdf")) None _
           eq_refl eq_refl).
Defined.

Lemma X6_witness_batch_with_an_empty_file :
  exists batch,
    validateMultipleFiles Samples.sniff Samples.decodeUtf8
      [(str "a.txt", bytes "hello"); (str "b.txt", [])] None = Ret batch
    /\ hasErrors batch = true.
Proof.
  eexists. split; [reflexivity |].
  destruct (X6_a_batch_has_errors_exactly_when_a_file_is_invalid
              Samples.sniff Samples.decodeUtf8
              [(str "a.txt", bytes "hello"); (str "b.txt", [])] None _ eq_refl)
    as (_ & _ & H & _).
  apply (H (str "b.txt")). right. left. reflexivity.
Defined.

End ValidatorProperties.

(** ** The extraction service *)

Module ExtractionProperties.
Import JS Types Effects Extraction EffectsFacts ExtractionFacts Invariants.
Import StringFacts InkFacts.

Section WithEnv.
Context (env : Env).
Hypothesis Hthrown : DescribableThrows env.



(** Once the type is known, [extractText] is its extractor. *)
Lemma extractText_of_type buffer filename t :
  detectFileType env buffer filename = ([], Ret t) ->
  extractText env buffer filename
  = ([EvExtractText buffer filename], outcome (extractorOf env t buffer)).
Proof.
  intros H. unfold extractText. rewrite H. eff.
  pose proof (extractor_events env buffer t) as E.
  pose proof (extractor_throws env Hthrown buffer t) as O.
  unfold throwsOnlyProcessingErrors in O.
  change (match t with
          | pdf => extractFromPDF env buffer
          | docx | doc => extractFromWord env buffer
          | txt => extractFromText env buffer
          | rtf => extractFromRTF buffer
          end) with (extractorOf env t buffer).
  rewrite (M_eta (extractorOf env t buffer)), E.
  destruct (outcome (extractorOf env t buffer)) as [a | x]; eff;
    [reflexivity |].
  destruct O as [e ->]. reflexivity.
Qed.

(** What an extractor throws. *)
Lemma extractorOf_throws buffer t x :
  outcome (extractorOf env t buffer) = Throw x ->
  exists e,
    x = ThrownProcessingError e /\ retryable e = false
    /\ In (code e) extractionCodes.
Proof.
  destruct Hthrown as (_ & Hpdf & Hword).
  destruct t; cbn [extractorOf].
  - unfold extractFromPDF. destruct (pdfParse env buffer) as [d | y] eqn:E; eff;
      [discriminate |].
    destruct (Hpdf buffer y E) as [msg Hm]. rewrite Hm. eff.
    intros H; inversion H; subst.
    eexists. split; [reflexivity |]. split; [reflexivity |].
    right; left; reflexivity.
  - unfold extractFromWord.
    destruct (extractRawText env buffer) as [d | y] eqn:E; eff; [discriminate |].
    destruct (Hword buffer y E) as [msg Hm]. rewrite Hm. eff.
    intros H; inversion H; subst.
    eexists. split; [reflexivity |]. split; [reflexivity |].
    right; right; left; reflexivity.
  - unfold extractFromWord.
    destruct (extractRawText env buffer) as [d | y] eqn:E; eff; [discriminate |].
    destruct (Hword buffer y E) as [msg Hm]. rewrite Hm. eff.
    intros H; inversion H; subst.
    eexists. split; [reflexivity |]. split; [reflexivity |].
    right; right; left; reflexivity.
  - unfold extractFromText. destruct (decodeUtf8 env buffer); eff;
      [| discriminate].
    cbn [messageOf ThrownError]. eff.
    intros H; inversion H; subst.
    eexists. split; [reflexivity |]. split; [reflexivity |].
    right; right; right; left; reflexivity.
  - unfold extractFromRTF. cbn. discriminate.
Qed.


(** The outcome of [extractText]: the one of the extractor of the detected
    type, or the error of the detection. *)
Lemma extractText_outcome buffer filename :
  (exists t, detectFileType env buffer filename = ([], Ret t)
             /\ extractText env buffer filename
                = ([EvExtractText buffer filename],
                   outcome (extractorOf env t buffer)))
  \/ (exists e, extractText env buffer filename
                = ([EvExtractText buffer filename],
                   Throw (ThrownProcessingError e))
                /\ detectFileType env buffer filename
                   = ([], Throw (ThrownProcessingError e))
                /\ code e = str "FILE_TYPE_DETECTION_FAILED"
                /\ retryable e = false).
Proof.
  destruct (detectFileType_cases env buffer filename
              (proj1 Hthrown buffer)) as [[t H] | [msg H]].
  - left. exists t. split; [exact H | apply extractText_of_type; exact H].
  - right. eexists. split; [| split; [exact H | split; reflexivity]].
    unfold extractText. rewrite H. eff. reflexivity.
Qed.

(** X7.  When what the libraries throw can be described, what
    [extractText] throws is a processing error that is not retryable and
    whose code is one of [FILE_TYPE_DETECTION_FAILED],
    [PDF_EXTRACTION_FAILED], [WORD_EXTRACTION_FAILED] and
    [TEXT_EXTRACTION_FAILED].  The codes [EXTRACTION_FAILED],
    [UNSUPPORTED_FILE_TYPE], [UNKNOWN_FILE_TYPE] and [RTF_EXTRACTION_FAILED]
    of the source never leave it. *)
Theorem X7_extraction_errors_have_one_of_four_codes
    (buffer : Buffer) (filename : jsstring) :
  match outcome (extractText env buffer filename) with
  | Ret _ => True
  | Throw x =>
      exists e,
        x = ThrownProcessingError e
        /\ retryable e = false
        /\ In (code e) extractionCodes
  end.
Proof.
  destruct (extractText_outcome buffer filename)
    as [(t & _ & H) | (e & H & _ & Hc & Hr)]; rewrite H; cbn [outcome snd].
  - destruct (outcome (extractorOf env t buffer)) as [a | x] eqn:E;
      [exact I |].
    exact (extractorOf_throws buffer t x E).
  - exists e. split; [reflexivity |]. split; [exact Hr |].
    left. symmetry. exact Hc.
Qed.

(** The verdict of [validateFile], case by case. *)
Lemma validateFile_verdict buffer filename :
  exists l v,
    validateFile env buffer filename = (l, Ret v)
    /\ (valid v = true <-> errors v = [])
    /\ (valid v = true ->
        l = [EvExtractText buffer filename]
        /\ 0 < byteLength buffer <= 100 * 1024 * 1024
        /\ exists x, extractText env buffer filename
                     = ([EvExtractText buffer filename], Ret x))
    /\ (0 < byteLength buffer <= 100 * 1024 * 1024 ->
        (exists x, outcome (extractText env buffer filename) = Ret x) ->
        valid v = true).
Proof.
  assert (Hlen : 0 <= byteLength buffer) by (unfold byteLength; lia).
  unfold validateFile.
  destruct (extractText_outcome buffer filename)
    as [(t & Hd & H) | (e & H & Hd & _)]; rewrite Hd; eff.
  - destruct (byteLength buffer =? 0) eqn:E0;
      destruct (byteLength buffer >? 100 * 1024 * 1024) eqn:E1;
      cbn [app]; eff;
      try (eexists _, _; split; [reflexivity |]; cbn [valid errors nonEmpty negb];
           split; [split; discriminate |];
           split; [discriminate |];
           intros Hs _; apply Z.eqb_eq in E0 || (rewrite Z.gtb_ltb in E1; apply Z.ltb_lt in E1); lia).
    rewrite H.
    pose proof (extractor_throws env Hthrown buffer t) as O.
    unfold throwsOnlyProcessingErrors in O.
    destruct (outcome (extractorOf env t buffer)) as [a | y]; eff.
    + eexists _, _. split; [reflexivity |]. cbn [valid errors nonEmpty negb].
      split; [split; reflexivity |]. split; [| reflexivity].
      intros _. split; [reflexivity |]. split.
      * apply Z.eqb_neq in E0. rewrite Z.gtb_ltb in E1. apply Z.ltb_ge in E1. lia.
      * exists a. reflexivity.
    + destruct O as [e ->]. cbn [messageOf]. eff.
      eexists _, _. split; [reflexivity |]. cbn [valid errors nonEmpty negb app].
      split; [split; discriminate |]. split; [discriminate |].
      intros _ (x & Hx). discriminate Hx.
  - cbn [messageOf]. eff.
    eexists _, _. split; [reflexivity |]. cbn [valid errors].
    split; [split; discriminate |]. split; [discriminate |].
    intros _ (x & Hx). rewrite H in Hx. discriminate Hx.
Qed.

(** X8.  When what the libraries throw can be described, [validateFile] of
    the extraction service does not throw, and it finds a file valid
    exactly when the buffer has between 1 byte and 100 MB and [extractText]
    returns on it: the validation is a full extraction whose text is thrown
    away.  Valid is the same as having no error. *)
Theorem X8_validation_passes_exactly_when_extraction_does
    (buffer : Buffer) (filename : jsstring) :
  exists v,
    outcome (validateFile env buffer filename) = Ret v
    /\ (valid v = true <-> errors v = [])
    /\ (valid v = true <->
        0 < byteLength buffer <= 100 * 1024 * 1024
        /\ exists x, outcome (extractText env buffer filename) = Ret x).
Proof.
  destruct (validateFile_verdict buffer filename)
    as (l & v & H & Hiff & Hvalid & Hconv).
  exists v. rewrite H. split; [reflexivity |]. split; [exact Hiff |]. split.
  - intros Hv. destruct (Hvalid Hv) as (_ & Hs & x & Hx).
    split; [exact Hs |]. exists x. rewrite Hx. reflexivity.
  - intros (Hs & Hx). exact (Hconv Hs Hx).
Qed.


End WithEnv.

Lemma X7_witness_one_byte_named_pdf :
  exists e,
    outcome (extractText Samples.env (bytes "x") (str "a.pdf"))
    = Throw (ThrownProcessingError e)
    /\ retryable e = false
    /\ In (code e) extractionCodes.
Proof.
  pose proof (X7_extraction_errors_have_one_of_four_codes Samples.env
                ProcessorFacts.samples_described (bytes "x") (str "a.pdf"))
    as H.
  destruct (outcome (extractText Samples.env (bytes "x") (str "a.pdf")))
    as [a | x] eqn:E; [discriminate E |].
  destruct H as (e & -> & Hr & Hc). exists e. auto.
Defined.

Lemma X8_witness_plain_text_file :
  exists v,
    outcome (validateFile Samples.env (bytes "hello") (str "notes.txt")) = Ret v
    /\ valid v = true.
Proof.
  destruct (X8_validation_passes_exactly_when_extraction_does Samples.env
              ProcessorFacts.samples_described (bytes "hello") (str "notes.txt"))
    as (v & Hv & _ & Hiff).
  exists v. split; [exact Hv |]. apply Hiff.
  split; [cbn; lia | eexists; reflexivity].
Defined.


(** *** The text of an RTF document *)

(** What a replacement leaves has the property [P] of the text and of what
    the pattern writes. *)
Lemma replaceGo_Forall (P : N -> Prop) m :
  (forall prev s n r, m prev s = Some (n, r) -> Forall P r) ->
  forall s k prev, Forall P s -> Forall P (replaceGo m k prev s).
Proof.
  intros Hm. induction s as [| c s IH]; intros k prev Hs; [constructor |].
  inversion Hs as [| ? ? Hc Hs']; subst.
  cbn [replaceGo]. destruct k as [| k]; [| apply IH; exact Hs'].
  destruct (m prev (c :: s)) as [[[| n] r] |] eqn:E;
    try (constructor; [exact Hc | apply IH; exact Hs']).
  apply Forall_app. split; [exact (Hm _ _ _ _ E) | apply IH; exact Hs'].
Qed.

(** What a pattern that matches every character outside [P] leaves. *)
Lemma replaceGo_removes (P : N -> Prop) m :
  (forall prev s n r, m prev s = Some (n, r) -> Forall P r) ->
  (forall prev c s, m prev (c :: s) = None \/
                    (exists r, m prev (c :: s) = Some (O, r)) -> P c) ->
  forall s k prev, Forall P (replaceGo m k prev s).
Proof.
  intros Hm Hc. induction s as [| c s IH]; intros k prev; [constructor |].
  cbn [replaceGo]. destruct k as [| k]; [| apply IH].
  destruct (m prev (c :: s)) as [[[| n] r] |] eqn:E.
  - constructor; [apply (Hc prev c s); right; eauto | apply IH].
  - apply Forall_app. split; [exact (Hm _ _ _ _ E) | apply IH].
  - constructor; [apply (Hc prev c s); left; exact E | apply IH].
Qed.

Lemma Forall_trimStart (P : N -> Prop) s : Forall P s -> Forall P (trimStart s).
Proof.
  induction s as [| c s IH]; intros H; [constructor |].
  cbn [trimStart]. destruct (isWhiteSpace c); [| exact H].
  inversion H; subst. apply IH. assumption.
Qed.

Lemma Forall_trim (P : N -> Prop) s : Forall P s -> Forall P (trim s).
Proof.
  intros H. unfold trim, trimEnd. rewrite !rev'_rev.
  apply Forall_rev, Forall_trimStart, Forall_rev, Forall_trimStart. exact H.
Qed.

Lemma trim_nil_or_Trimmed s : trim s = [] \/ Trimmed (trim s).
Proof.
  destruct (hasInk s) eqn:E; [right; apply trim_Trimmed; exact E | left].
  pose proof (isBlank_hasInk s) as H. rewrite E in H. unfold Chunking.isBlank in H.
  destruct (trim s); [reflexivity | discriminate].
Qed.

Lemma reBrace_removes :
  forall s k prev, Forall notBrace (replaceGo reBrace k prev s).
Proof.
  apply replaceGo_removes.
  - intros prev s n r H. unfold reBrace in H. destruct s as [| c s]; [discriminate |].
    destruct (_ || _)%bool; inversion H; subst. constructor.
  - intros prev c s H. unfold reBrace in H.
    destruct (N.eqb_spec c 123) as [-> | H1];
      [cbn in H; destruct H as [H | [r H]]; discriminate |].
    destruct (N.eqb_spec c 125) as [-> | H2];
      [cbn in H; destruct H as [H | [r H]]; discriminate |].
    split; assumption.
Qed.

Lemma spanLen_zero p c s : spanLen p (c :: s) = O -> p c = false.
Proof. cbn. destruct (p c); [discriminate | reflexivity]. Qed.

Lemma reWhiteSpace_normalizes :
  forall s k prev, Forall plainBlank (replaceGo reWhiteSpace k prev s).
Proof.
  apply replaceGo_removes.
  - intros prev s n r H. unfold reWhiteSpace in H.
    destruct (Nat.leb 1 _); inversion H; subst.
    constructor; [intros _; reflexivity | constructor].
  - intros prev c s H. unfold reWhiteSpace in H.
    destruct (spanLen isWhiteSpace (c :: s)) as [| n] eqn:E.
    + apply spanLen_zero in E. intros Hc. congruence.
    + cbn in H. destruct H as [H | [r H]]; discriminate.
Qed.

(** X10.  [extractFromRTF] never throws and leaves no event, and the text
    it returns holds no brace, no white space other than the plain space,
    and no white space at its start or at its end (it is empty, or
    begins and ends with a character that is no white space). *)
Theorem X10_rtf_text_has_no_brace_and_only_plain_spaces (buffer : Buffer) :
  exists text,
    extractFromRTF buffer
    = ([], Ret {| text := text; metadata := noMetadata |})
    /\ Forall (fun c => c <> 123%N /\ c <> 125%N
                        /\ (isWhiteSpace c = true -> c = 32%N)) text
    /\ (text = [] \/ Trimmed text).
Proof.
  unfold extractFromRTF. cbv zeta. eexists. split; [reflexivity |]. split.
  - apply Forall_trim.
    match goal with
    | |- Forall _ (replaceAll reWhiteSpace ?s) =>
        assert (Hb : Forall notBrace (replaceAll reWhiteSpace s));
        [| pose proof (reWhiteSpace_normalizes s O None) as Hw;
           fold (replaceAll reWhiteSpace s) in Hw;
           rewrite Forall_forall in *; intros c Hc;
           destruct (Hb c Hc); pose proof (Hw c Hc); auto]
    end.
    assert (Hwrite : forall (m : option N -> jsstring -> option (nat * jsstring)),
               (forall prev s n r, m prev s = Some (n, r) ->
                                   r = [92%N] \/ r = [39%N] \/ r = [32%N]) ->
               forall s, Forall notBrace s -> Forall notBrace (replaceAll m s)).
    { intros m Hm s Hs. apply replaceGo_Forall; [| exact Hs].
      intros prev s' n r H. destruct (Hm _ _ _ _ H) as [-> | [-> | ->]];
        (constructor; [split; discriminate | constructor]). }
    apply Hwrite.
    { intros prev s n r H. unfold reWhiteSpace in H.
      destruct (Nat.leb 1 _); inversion H; auto. }
    apply Hwrite.
    { intros prev s n r H. unfold reEscapedQuote in H.
      destruct (startsWith _ _); inversion H; auto. }
    apply Hwrite.
    { intros prev s n r H. unfold reBackslashes in H.
      destruct (startsWith _ _); inversion H; auto. }
    apply reBrace_removes.
  - apply trim_nil_or_Trimmed.
Qed.

End ExtractionProperties.

(** ** The orchestrator *)

Module ProcessorProperties.
Import JS Types Effects Processor EffectsFacts ExtractionFacts Invariants.
Import ProcessorFacts InkFacts ChunkingTheorems ExtractionProperties.



Section WithEnv.
Context (env : Extraction.Env).
Hypothesis Hthrown : DescribableThrows env.





Lemma bind_after {A B} l (a : A) (f : A -> M B) :
  bind (l, Ret a) f = after l (f a).
Proof. apply bind_Ret. Qed.

Lemma after_pair {A} l l' (o : Outcome A) : after l (l', o) = (l ++ l', o).
Proof. reflexivity. Qed.

Lemma after_after {A} l l' (m : M A) : after l (after l' m) = after (l ++ l') m.
Proof. unfold after. cbn [events outcome fst snd]. rewrite app_assoc. reflexivity. Qed.

Lemma tryCatch_after {A} l x (h : Thrown -> M A) :
  tryCatch (l, Throw x) h = after l (h x).
Proof. apply tryCatch_Throw. Qed.

Ltac run Hcb :=
  repeat first
    [ rewrite updateProgress_returns by (intros f Hf; apply (Hcb f _ Hf))
    | rewrite bind_after | rewrite after_after | rewrite after_pair
    | rewrite bind_Throw | rewrite tryCatch_Ret | rewrite tryCatch_after ];
  rewrite ?app_nil_r.





End WithEnv.





(** *** The file type read off a name *)

Import FileValidation ValidatorProperties.



End ProcessorProperties.

(** ** The status endpoint *)

Module StatusProperties.
Import JS Types Effects StatusRoute F64Facts StatusRouteFacts Invariants.

Lemma Qmin_le_95 x : (Qmin 95 x <= 95)%Q.
Proof.
  unfold Qmin. destruct (Qle_bool 95 x) eqn:E; [apply Qle_refl |].
  apply Qlt_le_weak, Qnot_le_lt. intros H. apply Qle_bool_iff in H. congruence.
Qed.

Lemma Qmin_mono x y : (x <= y)%Q -> (Qmin 95 x <= Qmin 95 y)%Q.
Proof.
  intros H. unfold Qmin.
  destruct (Qle_bool 95 x) eqn:Ex; destruct (Qle_bool 95 y) eqn:Ey.
  - apply Qle_refl.
  - apply Qle_bool_iff in Ex. exfalso.
    assert (Hy : Qle_bool 95 y = true)
      by (apply Qle_bool_iff; eapply Qle_trans; eauto).
    congruence.
  - apply Qlt_le_weak, Qnot_le_lt. intros K. apply Qle_bool_iff in K. congruence.
  - exact H.
Qed.

Lemma Qmin_nonneg x : (0 <= x)%Q -> (0 <= Qmin 95 x)%Q.
Proof.
  intros H. unfold Qmin. destruct (Qle_bool 95 x); [discriminate | exact H].
Qed.

Lemma Qmax_mono a x y : (x <= y)%Q -> (Qmax a x <= Qmax a y)%Q.
Proof.
  intros H. unfold Qmax.
  destruct (Qle_bool a x) eqn:Ex; destruct (Qle_bool a y) eqn:Ey.
  - exact H.
  - apply Qle_bool_iff in Ex. exfalso.
    assert (Hy : Qle_bool a y = true)
      by (apply Qle_bool_iff; eapply Qle_trans; eauto).
    congruence.
  - apply Qle_bool_iff. exact Ey.
  - apply Qle_refl.
Qed.

Lemma Qmax_lower a x : (a <= Qmax a x)%Q.
Proof.
  unfold Qmax. destruct (Qle_bool a x) eqn:E; [| apply Qle_refl].
  apply Qle_bool_iff. exact E.
Qed.

Lemma Qgtb_mono x y c : (x <= y)%Q -> Qgtb x c = true -> Qgtb y c = true.
Proof.
  unfold Qgtb. intros H Hx. apply negb_true_iff in Hx.
  apply negb_true_iff, not_true_is_false. intros Hy.
  apply Qle_bool_iff in Hy.
  assert (Hc : Qle_bool x c = true)
    by (apply Qle_bool_iff; eapply Qle_trans; eauto).
  congruence.
Qed.

Lemma round_mono x y : (x <= y)%Q -> round x <= round y.
Proof.
  intros H. unfold round. apply Qfloor_resp_le.
  apply Qplus_le_compat; [exact H | apply Qle_refl].
Qed.

Lemma quotient_mono e1 e2 t :
  0 < t -> e1 <= e2 -> (inject_Z e1 / inject_Z t <= inject_Z e2 / inject_Z t)%Q.
Proof.
  intros Ht He. apply Qmult_le_compat_r; [rewrite <- Zle_Qle; exact He |].
  apply Qlt_le_weak, Qinv_lt_0_compat.
  change 0%Q with (inject_Z 0). rewrite <- Zlt_Qlt. exact Ht.
Qed.

(** The percentage grows with the elapsed seconds. *)
Lemma progressPercentage_mono e1 e2 t :
  0 < t -> e1 <= e2 ->
  (progressPercentage e1 t <= progressPercentage e2 t)%Q.
Proof.
  intros Ht He. unfold progressPercentage.
  apply Qmin_mono, rn_mono. apply Qmult_le_compat_r; [| discriminate].
  apply rn_mono, quotient_mono; assumption.
Qed.

Lemma progressPercentage_nonneg e t :
  0 < t -> 0 <= e -> (0 <= progressPercentage e t)%Q.
Proof.
  intros Ht He. unfold progressPercentage. apply Qmin_nonneg.
  change 0%Q with (F64.rn (F64.rn (inject_Z 0 / inject_Z t) * 100)) at 1.
  - apply rn_mono. apply Qmult_le_compat_r; [| discriminate].
    apply rn_mono, quotient_mono; assumption.
Qed.

(** The elapsed seconds grow with the time of the request. *)
Lemma elapsedSecondsAt_mono earlier later document :
  earlier <= later ->
  elapsedSecondsAt earlier document <= elapsedSecondsAt later document.
Proof.
  intros H. unfold elapsedSecondsAt. cbv zeta.
  apply Qfloor_resp_le, rn_mono.
  apply Qmult_le_compat_r; [| discriminate].
  apply rn_mono. apply Qplus_le_compat; [| apply Qle_refl].
  rewrite <- Zle_Qle. exact H.
Qed.

Lemma estimate_Num fileSize fileType total :
  estimateProcessingTime fileSize fileType = Num total ->
  exists rate, multiplierOf fileType = Num rate /\ 10 <= total.
Proof.
  unfold estimateProcessingTime.
  destruct (multiplierOf fileType) as [rate |]; [| discriminate].
  intros H. inversion H. exists rate. split; [reflexivity |].
  apply estimate_at_least_10.
Qed.

(** The record of a document in processing whose estimate is a number. *)
Lemma processing_record now document total :
  status document = PROCESSING ->
  estimateProcessingTime (fileSize document) (fileType document) = Num total ->
  let elapsed := elapsedSecondsAt now document in
  let pct := progressPercentage elapsed total in
  let p := mapDocumentStatusToProgress now document in
  progress p = Num (round pct)
  /\ stage p = (if Qgtb pct 60 then analyzing
                else if Qgtb pct 30 then chunking else extracting)
  /\ estimatedTimeRemaining p
     = Some (Num (Qmax 5 (F64.rn (inject_Z total - inject_Z elapsed))))
  /\ progressError p = None.
Proof.
  intros Hs He elapsed pct p.
  subst p. unfold mapDocumentStatusToProgress. rewrite Hs. cbv zeta.
  fold elapsed. rewrite He. fold pct.
  destruct (Qgtb pct 30); destruct (Qgtb pct 60);
    cbn [progress stage estimatedTimeRemaining progressError];
    repeat split; reflexivity.
Qed.

(** X16.  While a document is in processing and its estimate is a number,
    the status endpoint never reports more than 95 percent, never a
    negative percentage once the elapsed time is not negative, never less
    than 5 seconds remaining, and no stage other than [extracting],
    [chunking] and [analyzing]; it reports no error.  When the estimate is
    [NaN] so are the percentage and the remaining time. *)
Theorem X16_a_document_in_processing_stays_below_96_percent
    (now : Z) (document : Document) :
  status document = PROCESSING ->
  let elapsed := elapsedSecondsAt now document in
  let p := mapDocumentStatusToProgress now document in
  match estimateProcessingTime (fileSize document) (fileType document) with
  | Num total =>
      exists pct remaining,
        progress p = Num pct
        /\ pct <= 95
        /\ (0 <= elapsed -> 0 <= pct)
        /\ estimatedTimeRemaining p = Some (Num remaining)
        /\ (5 <= remaining)%Q
        /\ In (stage p) [extracting; chunking; analyzing]
        /\ progressError p = None
  | NaN =>
      progress p = NaN
      /\ estimatedTimeRemaining p = Some NaN
      /\ stage p = extracting
  end.
Proof.
  intros Hs elapsed p.
  destruct (estimateProcessingTime _ _) as [total |] eqn:He.
  - destruct (processing_record now document total Hs He)
      as (Hp & Hst & Hrem & Herr).
    fold elapsed in Hp, Hst, Hrem. fold p in Hp, Hst, Hrem, Herr.
    destruct (estimate_Num _ _ _ He) as (rate & _ & H10).
    eexists _, _.
    split; [exact Hp |]. split.
    { change 95 with (round 95). apply round_mono, Qmin_le_95. }
    split.
    { intros H0. change 0 with (round 0). apply round_mono.
      apply progressPercentage_nonneg; lia. }
    split; [exact Hrem |]. split; [apply Qmax_lower |].
    split; [| exact Herr].
    rewrite Hst. destruct (Qgtb _ 60); [cbn; auto |].
    destruct (Qgtb _ 30); cbn; auto.
  - subst p. unfold mapDocumentStatusToProgress. rewrite Hs, He.
    repeat split; reflexivity.
Qed.

Lemma multiplierOf_positive fileType rate :
  multiplierOf fileType = Num rate -> (0 < rate)%Q.
Proof.
  unfold multiplierOf, timePerMB.
  repeat match goal with
         | |- context [if ?b then _ else _] => destruct b
         end;
    intros H; inversion H; reflexivity.
Qed.

Lemma sizeInMB_mono a b : a <= b -> (sizeInMB a <= sizeInMB b)%Q.
Proof.
  intros Hab. unfold sizeInMB. cbv zeta. apply rn_mono.
  apply Qmult_le_compat_r; [| discriminate].
  apply rn_mono. rewrite <- Zle_Qle. exact Hab.
Qed.

(** X17.  The estimate of the status endpoint never decreases when the file
    grows: for a file type whose rate is a number, a larger file gets an
    estimate at least as long, whatever the two sizes are, and no estimate
    is below 10 seconds. *)
Theorem X17_the_estimate_grows_with_the_size_of_the_file
    (small large : Z) (fileType : jsstring) (rate : Q) :
  multiplierOf fileType = Num rate ->
  small <= large ->
  exists es el,
    estimateProcessingTime small fileType = Num es
    /\ estimateProcessingTime large fileType = Num el
    /\ 10 <= es <= el.
Proof.
  intros Hrate Hle. unfold estimateProcessingTime. rewrite Hrate.
  pose proof (multiplierOf_positive _ _ Hrate) as Hpos.
  eexists _, _. split; [reflexivity |]. split; [reflexivity |].
  split; [apply estimate_at_least_10 |].
  apply Qceiling_resp_le, Qmax_mono, rn_mono.
  apply Qmult_le_compat_r; [| apply Qlt_le_weak; exact Hpos].
  apply sizeInMB_mono. exact Hle.
Qed.

(** X18.  While a document stays in processing, what the status endpoint
    reports never goes back as time passes: for two requests, the later
    one reports a percentage at least as high and a stage that is the same
    or a later one, in the order [extracting], [chunking], [analyzing]. *)
Theorem X18_progress_and_stage_never_go_back
    (earlier later : Z) (document : Document) (total : Z) :
  status document = PROCESSING ->
  estimateProcessingTime (fileSize document) (fileType document) = Num total ->
  earlier <= later ->
  let p1 := mapDocumentStatusToProgress earlier document in
  let p2 := mapDocumentStatusToProgress later document in
  exists pct1 pct2,
    progress p1 = Num pct1
    /\ progress p2 = Num pct2
    /\ pct1 <= pct2
    /\ stageRank (stage p1) <= stageRank (stage p2).
Proof.
  intros Hs He Hle p1 p2.
  destruct (processing_record earlier document total Hs He)
    as (Hp1 & Hst1 & _).
  destruct (processing_record later document total Hs He)
    as (Hp2 & Hst2 & _).
  destruct (estimate_Num _ _ _ He) as (rate & _ & H10).
  cbv zeta in Hp1, Hp2, Hst1, Hst2.
  pose proof (elapsedSecondsAt_mono earlier later document Hle) as Hel.
  assert (Hpct : (progressPercentage (elapsedSecondsAt earlier document) total
                  <= progressPercentage (elapsedSecondsAt later document) total)%Q)
    by (apply progressPercentage_mono; [lia | exact Hel]).
  eexists _, _. split; [exact Hp1 |]. split; [exact Hp2 |]. split.
  - apply round_mono. exact Hpct.
  - subst p1 p2. rewrite Hst1, Hst2.
    destruct (Qgtb (progressPercentage (elapsedSecondsAt earlier document) total) 60)
      eqn:A1.
    + rewrite (Qgtb_mono _ _ _ Hpct A1). reflexivity.
    + destruct (Qgtb (progressPercentage (elapsedSecondsAt earlier document) total) 30)
        eqn:B1.
      * rewrite (Qgtb_mono _ _ _ Hpct B1).
        destruct (Qgtb (progressPercentage (elapsedSecondsAt later document)
                          total) 60); cbn [stageRank]; lia.
      * destruct (Qgtb (progressPercentage (elapsedSecondsAt later document)
                          total) 60); [cbn [stageRank]; lia |].
        destruct (Qgtb (progressPercentage (elapsedSecondsAt later document)
                          total) 30); cbn [stageRank]; lia.
Qed.

Lemma X16_witness_document_after_four_seconds :
  let p := mapDocumentStatusToProgress 5000 Samples.processingDocument in
  progress p = Num 36
  /\ estimatedTimeRemaining p = Some (Num 7%Q)
  /\ stage p = chunking.
Proof.
  pose proof (X16_a_document_in_processing_stays_below_96_percent
                5000 Samples.processingDocument eq_refl) as H.
  cbv zeta in H.
  replace (estimateProcessingTime (fileSize Samples.processingDocument)
             (fileType Samples.processingDocument)) with (@Num Z 11) in H
    by (vm_compute; reflexivity).
  destruct H as (pct & remaining & Hp & _ & _ & Hr & _).
  cbv zeta. split; [| split]; vm_compute; reflexivity.
Defined.

Lemma X17_witness_two_pdf_files :
  exists es el,
    estimateProcessingTime (2 * 1024 * 1024) (str "pdf") = Num es
    /\ estimateProcessingTime (5 * 1024 * 1024) (str "pdf") = Num el
    /\ 10 <= es <= el.
Proof.
  apply (X17_the_estimate_grows_with_the_size_of_the_file
           (2 * 1024 * 1024) (5 * 1024 * 1024) (str "pdf") 3 eq_refl).
  lia.
Defined.

Lemma X18_witness_four_and_eight_seconds :
  let p1 := mapDocumentStatusToProgress 5000 Samples.processingDocument in
  let p2 := mapDocumentStatusToProgress 9000 Samples.processingDocument in
  exists pct1 pct2,
    progress p1 = Num pct1
    /\ progress p2 = Num pct2
    /\ pct1 <= pct2
    /\ stageRank (stage p1) <= stageRank (stage p2).
Proof.
  apply (X18_progress_and_stage_never_go_back 5000 9000
           Samples.processingDocument 11);
    [reflexivity | vm_compute; reflexivity | lia].
Defined.

End StatusProperties.

(** ** The chunker *)

Module ChunkingProperties.
Import JS Types Chunking Invariants.
Import StringFacts AssemblyFacts InkFacts PositionFacts ChunkingTheorems.

(** *** The semantic units *)

Lemma pushSentence_ok acc sentence :
  exists new,
    fst (pushSentence acc sentence) = fst acc ++ new /\ Forall UnitOk new.
Proof.
  destruct acc as [units position]. unfold pushSentence.
  destruct (isBlank sentence) eqn:E.
  - exists []. cbn [fst]. rewrite app_nil_r. split; [reflexivity | constructor].
  - eexists. cbn [fst]. split; [reflexivity |].
    constructor; [| constructor].
    split; [| split; [reflexivity | discriminate]].
    cbn [SemanticUnit.content]. apply trim_Trimmed.
    rewrite isBlank_hasInk in E. apply negb_false_iff in E. exact E.
Qed.

Lemma fold_ok {A} (f : list SemanticUnit.t * Z -> A -> list SemanticUnit.t * Z) :
  (forall acc a, exists new, fst (f acc a) = fst acc ++ new /\ Forall UnitOk new) ->
  forall l acc,
    exists new, fst (fold_left f l acc) = fst acc ++ new /\ Forall UnitOk new.
Proof.
  intros Hf. induction l as [| a l IH]; intros acc.
  - exists []. cbn [fold_left]. rewrite app_nil_r. split; [reflexivity | constructor].
  - cbn [fold_left]. destruct (Hf acc a) as (n1 & E1 & O1).
    destruct (IH (f acc a)) as (n2 & E2 & O2).
    exists (n1 ++ n2). rewrite E2, E1, app_assoc. split; [reflexivity |].
    apply Forall_app. split; assumption.
Qed.

Lemma detectSemanticType_not_other text : detectSemanticType text <> other.
Proof.
  unfold detectSemanticType. cbv zeta.
  destruct (isHeading _); [discriminate |].
  destruct (isList _); [discriminate |].
  destruct (isTable _); discriminate.
Qed.

Lemma pushParagraph_ok this acc p :
  exists new,
    fst (pushParagraph this acc p) = fst acc ++ new /\ Forall UnitOk new.
Proof.
  destruct acc as [units position]. unfold pushParagraph.
  rewrite isBlank_hasInk. destruct (hasInk p) eqn:E; cbn [negb].
  - cbv zeta. destruct (_ && _)%bool.
    + apply (fold_ok pushSentence pushSentence_ok).
    + eexists. cbn [fst]. split; [reflexivity |].
      constructor; [| constructor].
      split; [| split; [reflexivity | apply detectSemanticType_not_other]].
      cbn [SemanticUnit.content]. apply trim_Trimmed, E.
  - exists []. cbn [fst]. rewrite app_nil_r. split; [reflexivity | constructor].
Qed.

Lemma splitIntoSemanticUnits_ok this text :
  Forall UnitOk (splitIntoSemanticUnits this text).
Proof.
  unfold splitIntoSemanticUnits.
  destruct (fold_ok (pushParagraph this) (pushParagraph_ok this)
              (split sepParagraph text) ([], 0)) as (new & E & H).
  rewrite E. exact H.
Qed.

(** *** How far the positions go *)

Lemma cost2_cons q l : cost2 (q :: l) = (2 + List.length q + cost2 l)%nat.
Proof. reflexivity. Qed.

Lemma sepParagraph_long s n :
  sepParagraph s = S n -> (2 <= S n <= List.length s)%nat.
Proof.
  unfold sepParagraph. pose proof (spanLen_le (N.eqb 10) s) as Hle.
  destruct (Nat.leb 2 _) eqn:E; [| discriminate].
  apply Nat.leb_le in E. intros H. lia.
Qed.

Lemma splitGo_cost2 s :
  forall skip cur,
    (skip <= List.length s)%nat ->
    (cost2 (splitGo sepParagraph skip cur s) + skip
     <= List.length cur + List.length s + 2)%nat.
Proof.
  induction s as [| c s IH]; intros skip cur Hs.
  - cbn [splitGo]. rewrite rev'_rev, cost2_cons, length_rev.
    cbn in *. unfold cost2. cbn. lia.
  - cbn [splitGo]. destruct skip as [| k].
    + destruct (sepParagraph (c :: s)) as [| n] eqn:E.
      * cbn [List.length] in *. specialize (IH 0%nat (c :: cur) ltac:(lia)).
        cbn [List.length] in *. lia.
      * apply sepParagraph_long in E. cbn [List.length] in E.
        rewrite cost2_cons, rev'_rev, length_rev.
        specialize (IH n [] ltac:(lia)). cbn [List.length] in *. lia.
    + cbn [List.length] in *. specialize (IH k cur ltac:(lia)). lia.
Qed.

Lemma split_cost2 text :
  (cost2 (split sepParagraph text) <= List.length text + 2)%nat.
Proof.
  pose proof (splitGo_cost2 text 0 []) as H. cbn [List.length] in H.
  unfold split. lia.
Qed.

Lemma cost_lengths l :
  (list_sum (map (@List.length N) l) + List.length l = cost l)%nat.
Proof.
  induction l as [| q l IH]; [reflexivity |].
  rewrite cost_cons. cbn [map List.length].
  change (list_sum (List.length q :: map (@List.length N) l))
    with (List.length q + list_sum (map (@List.length N) l))%nat. lia.
Qed.

Lemma pushSentence_position acc sentence :
  snd (pushSentence acc sentence) <= snd acc + len sentence.
Proof.
  destruct acc as [units position]. unfold pushSentence.
  destruct (isBlank sentence); cbn [snd]; unfold len; lia.
Qed.

Lemma pushSentences_position sentences :
  forall acc,
    snd (fold_left pushSentence sentences acc)
    <= snd acc + Z.of_nat (list_sum (map (@List.length N) sentences)).
Proof.
  induction sentences as [| q l IH]; intros acc; [cbn; lia |].
  cbn [fold_left map].
  change (list_sum (List.length q :: map (@List.length N) l))
    with (List.length q + list_sum (map (@List.length N) l))%nat.
  specialize (IH (pushSentence acc q)).
  pose proof (pushSentence_position acc q). unfold len in *. lia.
Qed.

Lemma sentences_length x :
  (list_sum (map (@List.length N) (splitIntoSentences x)) <= List.length x)%nat.
Proof.
  pose proof (splitIntoSentences_cost x) as Hc.
  pose proof (cost_lengths (splitIntoSentences x)) as Hl.
  destruct (splitIntoSentences x) as [| q l]; [cbn; lia |].
  cbn [List.length] in Hl. lia.
Qed.

Lemma pushParagraph_position this acc p :
  snd (pushParagraph this acc p) <= snd acc + len p + 2.
Proof.
  destruct acc as [units position]. unfold pushParagraph.
  pose proof (trim_length p) as Ht.
  destruct (isBlank p); [cbn [snd]; unfold len; lia |].
  cbv zeta. destruct (_ && _)%bool.
  - pose proof (pushSentences_position (splitIntoSentences (trim p))
                  (units, position)) as Hs.
    pose proof (sentences_length (trim p)) as Hl.
    cbn [snd] in *. unfold len. lia.
  - cbn [snd]. unfold len. lia.
Qed.

Lemma pushParagraphs_position this paragraphs :
  forall acc,
    snd (fold_left (pushParagraph this) paragraphs acc)
    <= snd acc + Z.of_nat (cost2 paragraphs).
Proof.
  induction paragraphs as [| p l IH]; intros acc; [cbn; lia |].
  cbn [fold_left]. rewrite cost2_cons. specialize (IH (pushParagraph this acc p)).
  pose proof (pushParagraph_position this acc p). unfold len in *. lia.
Qed.

Lemma Placed_weaken lo units hi hi' :
  Placed lo units hi -> hi <= hi' -> Placed lo units hi'.
Proof.
  revert lo. induction units as [| u units IH]; intros lo H Hle; cbn [Placed] in *.
  - lia.
  - destruct H as (H1 & H2 & H3 & H4). repeat split; try assumption.
    apply IH; assumption.
Qed.

Lemma Placed_paragraphs this paragraphs :
  forall acc,
    Placed 0 (fst acc) (snd acc) ->
    Placed 0 (fst (fold_left (pushParagraph this) paragraphs acc))
             (snd (fold_left (pushParagraph this) paragraphs acc)).
Proof.
  induction paragraphs as [| p paragraphs IH]; intros acc H; [exact H |].
  cbn [fold_left]. apply IH, Placed_pushParagraph, H.
Qed.

(** X19.  The semantic units of a text lie in it one after the other: the
    first starts at 0 or later, every unit ends after it starts and spans
    at least the length of its content, every unit starts where the one
    before it ends or later, and the last one ends at most two characters
    past the end of the text.  Every unit has a content that is not empty
    and has no white space at either end, a token count that is the
    estimate of that content, and a type other than [other]; and a text
    that is not blank has at least one unit. *)
Theorem X19_the_semantic_units_lie_in_the_text_in_order
    (this : ChunkingOptions) (text : jsstring) :
  let units := splitIntoSemanticUnits this text in
  Placed 0 units (len text + 2)
  /\ Forall UnitOk units
  /\ (hasInk text = true -> units <> []).
Proof.
  intros units. split; [| split].
  - subst units. unfold splitIntoSemanticUnits.
    eapply Placed_weaken.
    + apply Placed_paragraphs. cbn. lia.
    + pose proof (pushParagraphs_position this (split sepParagraph text) ([], 0)).
      pose proof (split_cost2 text). cbn [snd] in *. unfold len. lia.
  - apply splitIntoSemanticUnits_ok.
  - intros H. subst units. unfold splitIntoSemanticUnits.
    destruct (pushParagraphs_grow this (split sepParagraph text) ([], 0))
      as (new & E & _ & N).
    rewrite E. cbn [fst app]. apply N. unfold split.
    apply splitGo_hasInk; [reflexivity |]. cbn [hasInk existsb orb]. exact H.
Qed.

Lemma X19_witness_three_paragraphs :
  let units :=
    splitIntoSemanticUnits DEFAULT_CHUNKING_OPTIONS Samples.threeParagraphs in
  map (fun u => (SemanticUnit.startPosition u, SemanticUnit.endPosition u)) units
  = [(0, 27); (29, 63); (65, 117)]
  /\ Placed 0 units (len Samples.threeParagraphs + 2)
  /\ units <> [].
Proof.
  cbv zeta. split; [vm_compute; reflexivity |].
  destruct (X19_the_semantic_units_lie_in_the_text_in_order
              DEFAULT_CHUNKING_OPTIONS Samples.threeParagraphs)
    as (H1 & _ & H3).
  split; [exact H1 | apply H3; reflexivity].
Defined.

(** *** The pieces of a unit that is too large *)

Lemma sumEstimates_snoc seen s :
  sumEstimates (seen ++ [s]) = sumEstimates seen + estimateTokenCount s.
Proof.
  unfold sumEstimates. induction seen as [| q seen IH]; cbn [app map fold_right].
  - lia.
  - rewrite IH. lia.
Qed.

Lemma PieceOk_more unit maxTokens seen s p :
  PieceOk unit maxTokens seen p -> PieceOk unit maxTokens (seen ++ [s]) p.
Proof.
  intros (Ht & Hc & [Hm | (q & Hq & Hcq & Htq)]).
  - split; [exact Ht |]. split; [exact Hc |]. left. exact Hm.
  - split; [exact Ht |]. split; [exact Hc |]. right. exists q.
    split; [apply in_or_app; left; exact Hq |]. split; assumption.
Qed.

Lemma TokensInv_step unit maxTokens seen st s :
  hasInk s = true ->
  TokensInv unit maxTokens seen st ->
  TokensInv unit maxTokens (seen ++ [s]) (splitStep unit maxTokens st s).
Proof.
  intros Hs (Hsum & Hall & Hcur).
  assert (Hall' : Forall (PieceOk unit maxTokens (seen ++ [s])) (splitUnits st)).
  { eapply Forall_impl; [| exact Hall]. intros p. apply PieceOk_more. }
  assert (Hin : In s (seen ++ [s])) by (apply in_or_app; right; left; reflexivity).
  unfold splitStep. cbv zeta.
  destruct (_ && _)%bool eqn:E.
  - apply andb_prop in E. destruct E as [_ Hne].
    destruct Hcur as [(Hnil & _) | (Hink & Htok)];
      [rewrite Hnil in Hne; discriminate |].
    split; [| split]; cbn [splitUnits currentContent currentTokens].
    + rewrite sumTokens_snoc, sumEstimates_snoc. cbn [pieceOf SemanticUnit.tokenCount].
      lia.
    + apply Forall_app. split; [exact Hall' |]. constructor; [| constructor].
      split; [reflexivity |]. split; [apply trim_Trimmed; exact Hink |].
      cbn [pieceOf SemanticUnit.tokenCount SemanticUnit.content].
      destruct Htok as [Hm | (q & Hq & Hcq & Htq)]; [left; exact Hm | right].
      exists q. split; [apply in_or_app; left; exact Hq |].
      split; [rewrite Hcq; reflexivity | exact Htq].
    + right. split; [exact Hs |]. right. exists s. auto.
  - split; [| split]; cbn [splitUnits currentContent currentTokens].
    + rewrite sumEstimates_snoc. lia.
    + exact Hall'.
    + right. split; [rewrite !hasInk_app, Hs, !orb_true_r; reflexivity |].
      destruct Hcur as [(Hnil & H0 & _) | (Hink & _)].
      * right. exists s. rewrite Hnil, H0. cbn [nonEmpty app].
        split; [exact Hin |]. split; [reflexivity | lia].
      * left. destruct (currentContent st) as [| c r] eqn:Ec;
          [discriminate Hink |].
        cbn [nonEmpty] in E. rewrite andb_true_r in E.
        rewrite Z.gtb_ltb in E. apply Z.ltb_ge in E. exact E.
Qed.

Lemma TokensInv_fold unit maxTokens sentences :
  forall seen st,
    Forall (fun s => hasInk s = true) sentences ->
    TokensInv unit maxTokens seen st ->
    TokensInv unit maxTokens (seen ++ sentences)
      (fold_left (splitStep unit maxTokens) sentences st).
Proof.
  induction sentences as [| s l IH]; intros seen st Hall H.
  - rewrite app_nil_r. exact H.
  - inversion Hall; subst. cbn [fold_left].
    replace (seen ++ s :: l) with ((seen ++ [s]) ++ l)
      by (rewrite <- app_assoc; reflexivity).
    apply IH; [assumption |]. apply TokensInv_step; assumption.
Qed.

Lemma sentences_have_ink x :
  Forall (fun s => hasInk s = true) (splitIntoSentences x).
Proof.
  apply Forall_forall. intros s Hs.
  apply splitIntoSentences_not_blank in Hs. rewrite isBlank_hasInk in Hs.
  apply negb_false_iff in Hs. exact Hs.
Qed.

Lemma splitLargeUnit_tokens unit maxTokens :
  let sentences := splitIntoSentences (SemanticUnit.content unit) in
  let pieces := splitLargeUnit unit maxTokens in
  sumTokens pieces = sumEstimates sentences
  /\ Forall (PieceOk unit maxTokens sentences) pieces
  /\ (pieces = [] <-> sentences = []).
Proof.
  intros sentences pieces. subst pieces. unfold splitLargeUnit. cbv zeta.
  fold sentences.
  pose proof (TokensInv_fold unit maxTokens sentences []
                {| splitUnits := []; currentContent := []; currentTokens := 0;
                   startPos := SemanticUnit.startPosition unit |}
                (sentences_have_ink _)) as H.
  cbn [app] in H.
  destruct H as (Hsum & Hall & Hcur).
  { split; [reflexivity |]. split; [constructor |]. left. auto. }
  set (st := fold_left (splitStep unit maxTokens) sentences _) in *.
  destruct Hcur as [(Hnil & H0 & Hseen) | (Hink & Htok)].
  - rewrite Hnil. cbn [nonEmpty]. split; [lia |]. split; [exact Hall |].
    split; [intros _; exact Hseen |]. intros Hs.
    subst st. rewrite Hs. reflexivity.
  - destruct (currentContent st) as [| c r] eqn:Ec; [discriminate Hink |].
    cbn [nonEmpty]. split; [| split; [| split]].
    + rewrite sumTokens_snoc. cbn [pieceOf SemanticUnit.tokenCount]. exact Hsum.
    + apply Forall_app. split; [exact Hall |]. constructor; [| constructor].
      split; [reflexivity |]. split.
      * cbn [pieceOf SemanticUnit.content]. rewrite Ec. apply trim_Trimmed.
        exact Hink.
      * cbn [pieceOf SemanticUnit.tokenCount SemanticUnit.content].
        destruct Htok as [Hm | (q & Hq & Hcq & Htq)]; [left; exact Hm | right].
        exists q. split; [exact Hq |]. rewrite Ec, Hcq. split; [reflexivity | exact Htq].
    + intros H. destruct (splitUnits st); discriminate H.
    + intros Hs. exfalso. subst st. rewrite Hs in Ec. discriminate Ec.
Qed.


Lemma splitLargeUnit_inked unit maxTokens : Inked (splitLargeUnit unit maxTokens).
Proof.
  destruct (splitLargeUnit_tokens unit maxTokens) as (_ & H & _).
  eapply Forall_impl; [| exact H]. intros p (_ & Hp & _). exact Hp.
Qed.

Lemma pushedUnits_inked units options :
  Inked units -> Inked (pushedUnits units options).
Proof.
  intros H. unfold pushedUnits. induction H as [| u units Hu _ IH];
    [constructor |].
  cbn [flat_map]. apply Forall_app. split; [| exact IH].
  destruct (_ >? _); [apply splitLargeUnit_inked |].
  constructor; [exact Hu | constructor].
Qed.

Lemma UnitOk_Inked units : Forall UnitOk units -> Inked units.
Proof.
  intros H. eapply Forall_impl; [| exact H]. intros u (Hu & _). exact Hu.
Qed.

Lemma pushed_inked this text options :
  Inked (pushedUnits (semanticUnitsOf this text) options).
Proof.
  apply pushedUnits_inked, UnitOk_Inked. unfold semanticUnitsOf.
  apply splitIntoSemanticUnits_ok.
Qed.

(** *** What a chunk holds *)

(** X21.  Every chunk [chunkDocument] returns is built from a run of one or
    more consecutive units, in the order in which the loop pushes them: its
    content is the contents of those units joined by blank lines, which
    is not empty and has no white space at its start or at its end; its
    token count is the sum of theirs and its unit count their number. *)
Theorem X21_a_chunk_is_a_run_of_units_joined_by_blank_lines
    (this : ChunkingOptions) (text : jsstring)
    (options : option PartialChunkingOptions) (chunks : list DocumentChunk.t) :
  chunkDocument this text options = Ret chunks ->
  let opts := spread this options in
  let pushed := pushedUnits (semanticUnitsOf this text) opts in
  forall c, In c chunks ->
    exists g,
      g <> []
      /\ Segment g pushed
      /\ c = buildChunk g (DocumentChunk.index c)
      /\ DocumentChunk.content c
         = join [10; 10]%N (map SemanticUnit.content g)
      /\ Trimmed (DocumentChunk.content c)
      /\ DocumentChunk.tokenCount c = sumTokens g
      /\ DocumentChunk.unitCount c = Z.of_nat (List.length g)
      /\ 1 <= DocumentChunk.unitCount c.
Proof.
  intros H opts pushed c Hc.
  apply chunkDocument_Ret in H. subst chunks. fold opts in Hc.
  rewrite createChunks_filter in Hc. apply filter_In in Hc.
  destruct Hc as [Hc _]. rewrite assembleChunks_groups in Hc.
  apply buildFrom_In in Hc. destruct Hc as (g & k & Hg & -> & _).
  pose proof (assembleGroups_segments (semanticUnitsOf this text) opts) as Hs.
  rewrite Forall_forall in Hs. destruct (Hs g Hg) as [Hne Hseg].
  fold pushed in Hseg.
  assert (Hi : Inked g)
    by (apply (Inked_segment g pushed Hseg), pushed_inked).
  exists g. split; [exact Hne |]. split; [exact Hseg |].
  split; [reflexivity |].
  rewrite (buildChunk_content g k Hne Hi).
  split; [reflexivity |]. split.
  { apply join_Trimmed.
    - destruct g; [congruence | discriminate].
    - apply Inked_contents, Hi. }
  split; [reflexivity |]. split; [reflexivity |].
  cbn [buildChunk DocumentChunk.unitCount]. destruct g; [congruence |].
  cbn [List.length]. lia.
Qed.

Lemma X21_witness_three_paragraphs :
  let chunks :=
    createChunks
      (semanticUnitsOf DEFAULT_CHUNKING_OPTIONS Samples.threeParagraphs)
      (spread DEFAULT_CHUNKING_OPTIONS (Samples.tight 10 2 0)) in
  map DocumentChunk.unitCount chunks = [1; 2; 2]
  /\ forall c, In c chunks ->
       Trimmed (DocumentChunk.content c) /\ 1 <= DocumentChunk.unitCount c.
Proof.
  cbv zeta. split; [vm_compute; reflexivity |].
  intros c Hc.
  destruct (X21_a_chunk_is_a_run_of_units_joined_by_blank_lines
              DEFAULT_CHUNKING_OPTIONS Samples.threeParagraphs
              (Samples.tight 10 2 0) _
              (chunkDocument_not_blank DEFAULT_CHUNKING_OPTIONS
                 Samples.threeParagraphs (Samples.tight 10 2 0) eq_refl)
              c Hc)
    as (g & _ & _ & _ & _ & Ht & _ & _ & Hu).
  split; assumption.
Defined.

(** *** Nothing is lost before the filter *)











(** *** Without overlap *)

Lemma totalTokens_app a b : totalTokens (a ++ b) = totalTokens a + totalTokens b.
Proof.
  unfold totalTokens. induction a as [| c a IH]; cbn [app map fold_right]; lia.
Qed.

Lemma totalTokens_buildFrom groups :
  forall i, totalTokens (buildFrom i groups) = sumTokens (List.concat groups).
Proof.
  induction groups as [| g groups IH]; intros i; [reflexivity |].
  cbn [buildFrom List.concat]. rewrite sumTokens_app.
  change (totalTokens (buildChunk g i :: buildFrom (i + 1) groups))
    with (sumTokens g + totalTokens (buildFrom (i + 1) groups)).
  rewrite IH. reflexivity.
Qed.

Lemma partition_splitUnit options D g p :
  List.concat (closed g) ++ running g = D ->
  List.concat (closed (groupSplitUnit options g p))
  ++ running (groupSplitUnit options g p) = D ++ [p].
Proof.
  intros H. unfold groupSplitUnit, groupPush, groupClose. cbv zeta.
  destruct (_ && _)%bool; cbn [closed running].
  - rewrite concat_app. cbn [List.concat]. rewrite !app_nil_r, H. reflexivity.
  - rewrite app_assoc, H. reflexivity.
Qed.

Lemma partition_pieces options pieces :
  forall D g,
    List.concat (closed g) ++ running g = D ->
    let g' := fold_left (groupSplitUnit options) pieces g in
    List.concat (closed g') ++ running g' = D ++ pieces.
Proof.
  induction pieces as [| p pieces IH]; intros D g H; cbv zeta.
  - rewrite app_nil_r. exact H.
  - cbn [fold_left].
    replace (D ++ p :: pieces) with ((D ++ [p]) ++ pieces)
      by (rewrite <- app_assoc; reflexivity).
    apply IH, partition_splitUnit, H.
Qed.

Lemma partition_unit options D g u :
  overlapTokens options <= 0 ->
  List.concat (closed g) ++ running g = D ->
  List.concat (closed (groupUnit options g u)) ++ running (groupUnit options g u)
  = D ++ expand options u.
Proof.
  intros Ho H. unfold groupUnit, expand. cbv zeta.
  assert (Hgt : (overlapTokens options >? 0) = false)
    by (rewrite Z.gtb_ltb; apply Z.ltb_ge; exact Ho).
  rewrite Hgt.
  set (g' := if (_ && _)%bool then groupClose g [] else g).
  assert (H' : List.concat (closed g') ++ running g' = D).
  { subst g'. destruct (_ && _)%bool; [| exact H].
    unfold groupClose. cbn [closed running]. rewrite concat_app. cbn [List.concat].
    rewrite !app_nil_r. exact H. }
  destruct (SemanticUnit.tokenCount u >? maxTokens options).
  - apply partition_pieces. exact H'.
  - unfold groupPush. cbn [closed running]. rewrite app_assoc, H'. reflexivity.
Qed.

Lemma partition_units options units :
  overlapTokens options <= 0 ->
  forall D g,
    List.concat (closed g) ++ running g = D ->
    let g' := fold_left (groupUnit options) units g in
    List.concat (closed g') ++ running g' = D ++ flat_map (expand options) units.
Proof.
  intros Ho. induction units as [| u units IH]; intros D g H; cbv zeta.
  - cbn [flat_map]. rewrite app_nil_r. exact H.
  - cbn [fold_left flat_map]. rewrite app_assoc.
    apply IH, partition_unit; assumption.
Qed.

(** X23.  When the overlap is switched off ([overlapTokens] at most 0), the
    assembled chunks cut the pushed units into consecutive runs: the arrays
    given to [buildChunk], one after the other, are the pushed units in
    order, each once, and the token counts of the assembled chunks add up
    to the token counts of the units. *)
Theorem X23_without_overlap_the_chunks_partition_the_units
    (units : list SemanticUnit.t) (options : ChunkingOptions) :
  overlapTokens options <= 0 ->
  List.concat (assembleGroups units options) = pushedUnits units options
  /\ totalTokens (assembleChunks units options)
     = sumTokens (pushedUnits units options).
Proof.
  intros Ho.
  assert (Hc : List.concat (assembleGroups units options)
               = pushedUnits units options).
  { pose proof (partition_units options units Ho []
                  {| closed := []; running := [] |} eq_refl) as H.
    cbv zeta in H. cbn [app] in H. rewrite pushedUnits_expand, <- H.
    unfold assembleGroups. cbv zeta.
    destruct (running _) as [| r rs] eqn:E; cbn [nonEmpty].
    - rewrite app_nil_r. reflexivity.
    - rewrite concat_app. cbn [List.concat]. rewrite app_nil_r. reflexivity. }
  split; [exact Hc |].
  rewrite assembleChunks_groups, totalTokens_buildFrom, Hc. reflexivity.
Qed.

Lemma X23_witness_three_paragraphs_without_overlap :
  let options := spread DEFAULT_CHUNKING_OPTIONS (Samples.tight 10 0 0) in
  let units :=
    semanticUnitsOf DEFAULT_CHUNKING_OPTIONS Samples.threeParagraphs in
  map DocumentChunk.tokenCount (assembleChunks units options) = [8; 8; 8]
  /\ totalTokens (assembleChunks units options)
     = sumTokens (pushedUnits units options).
Proof.
  cbv zeta. split; [vm_compute; reflexivity |].
  apply X23_without_overlap_the_chunks_partition_the_units. cbn. lia.
Defined.

End ChunkingProperties.
